(** * script.js: functions, controllers and rate limiters

    A shallow embedding of [script.js].  JavaScript numbers are IEEE 754
    binary64 values, modelled by [spec_float] with the operations of
    [SpecFloat] at precision 53 and maximal exponent 1024; the DOM is
    modelled by the class list, the style table and the text of the elements
    the script touches; the timers of the page ([setInterval],
    [setTimeout]) by a table of live handles. *)

From Stdlib Require Import ZArith Lia Bool Ascii DecimalString.
From Stdlib Require DecimalN.
From Stdlib Require Import SpecFloat.
From stdpp Require Import base gmap strings list.

Local Open Scope Z_scope.
#[local] Set Warnings "-clear-no-such-hyp".

(** ** JavaScript numbers *)

Module JsNumber.

Definition prec : Z := 53.
Definition emax : Z := 1024.

Abbreviation number := spec_float.

#[global] Instance number_eq_dec : EqDecision number.
Proof. solve_decision. Defined.

(** The Number value of an integer literal: round to nearest, ties to
    even. *)
Definition of_Z (z : Z) : number := binary_normalize prec emax z 0 false.

Definition zero : number := S754_zero false.
Definition one : number := of_Z 1.
Definition two : number := of_Z 2.
Definition NaN : number := S754_nan.
Definition Infinity : number := S754_infinity false.
Definition neg_Infinity : number := S754_infinity true.

(** A value of the type is a double when its mantissa is canonical. *)
Definition is_double (x : number) : bool := valid_binary prec emax x.

Definition add : number -> number -> number := SFadd prec emax.
Definition mul : number -> number -> number := SFmul prec emax.
Definition sqrt : number -> number := SFsqrt prec emax.

(** [x < y], [x <= y], [x === y] on numbers: false when either is NaN. *)
Definition ltb : number -> number -> bool := SFltb.
Definition leb : number -> number -> bool := SFleb.
Definition strict_eqb : number -> number -> bool := SFeqb.

Definition isNaN (x : number) : bool :=
  match x with S754_nan => true | _ => false end.

(** [n % d]: the remainder of the truncating division, exact, with the
    sign of the dividend. *)
Definition rem (n d : number) : number :=
  match n, d with
  | S754_nan, _ | _, S754_nan => S754_nan
  | S754_infinity _, _ => S754_nan
  | _, S754_zero _ => S754_nan
  | _, S754_infinity _ => n
  | S754_zero _, _ => n
  | S754_finite sn mn en, S754_finite _ md ed =>
      let ez := Z.min en ed in
      let r := Z.rem (Zpos (fst (shl_align mn en ez)))
                     (Zpos (fst (shl_align md ed ez))) in
      binary_normalize prec emax (cond_Zopp sn r) ez sn
  end.

(** [Math.floor]. *)
Definition floor (x : number) : number :=
  match x with
  | S754_finite s m e =>
      if 0 <=? e then x
      else binary_normalize prec emax
             (cond_Zopp s (Zpos m) / 2 ^ (- e)) 0 s
  | _ => x
  end.

(** The array index a number denotes when used as a property key of a
    string: a non-negative integer value ([-0] reads as [0]). *)
Definition to_index (x : number) : option nat :=
  match x with
  | S754_zero _ => Some 0%nat
  | S754_finite false m e =>
      if 0 <=? e then Some (Z.to_nat (Zpos m * 2 ^ e))
      else if Zpos m mod 2 ^ (- e) =? 0
           then Some (Z.to_nat (Zpos m / 2 ^ (- e)))
           else None
  | _ => None
  end.

(** *** Number to string *)

Definition digits_of (n : Z) : string :=
  NilZero.string_of_uint (N.to_uint (Z.to_N n)).

Fixpoint zeros (k : nat) : string :=
  match k with
  | O => ""
  | S k' => String "0"%char (zeros k')
  end.

(** Digits of [n] with a decimal point before the last [f] digits. *)
Definition fixed_digits (n : Z) (f : nat) : string :=
  let m := digits_of n in
  match f with
  | O => m
  | _ =>
      let m' := if (String.length m <=? f)%nat
                then zeros (f + 1 - String.length m) +:+ m else m in
      let k := String.length m' in
      String.substring 0 (k - f) m' +:+ "." +:+ String.substring (k - f) f m'
  end.

(** The candidates with [k] significant digits for an integer [X] of
    [nd] digits: the multiples of [10^(nd-k)] around [X] that read back
    as the same double; the closest one is taken. *)
Definition shortest_at (X : Z) (nd k : Z) : option Z :=
  let p := 10 ^ (nd - k) in
  let lo := X / p in
  let hi := lo + 1 in
  let ok c := bool_decide (of_Z (c * p) = of_Z X) in
  match ok lo, ok hi with
  | true, true =>
      let dlo := X - lo * p in
      let dhi := hi * p - X in
      if dlo <? dhi then Some lo
      else if dhi <? dlo then Some hi
      else Some (if Z.even lo then lo else hi)
  | true, false => Some lo
  | false, true => Some hi
  | false, false => None
  end.

Fixpoint shortest_from (fuel : nat) (X nd k : Z) : Z * Z :=
  match fuel with
  | O => (X, nd)
  | S fuel' =>
      match shortest_at X nd k with
      | Some s => (s, k)
      | None => shortest_from fuel' X nd (k + 1)
      end
  end.

(** [Number::toString] of an integer value [X >= 10^21]: the shortest
    digits that read back as the same double, in exponent notation. *)
Definition toString_large (X : Z) : string :=
  let nd := Z.of_nat (String.length (digits_of X)) in
  let '(s, k) := shortest_from 21 X nd 1 in
  let '(s, n) := if s =? 10 ^ k then (1, nd + 1) else (s, nd) in
  let ds := digits_of s in
  let mant := match ds with
              | String d "" => String d ""
              | String d rest => String d ("." +:+ rest)
              | "" => ""
              end in
  mant +:+ "e+" +:+ digits_of (n - 1).

(** [Number.prototype.toFixed(f)]. *)
Definition toFixed (x : number) (f : nat) : string :=
  match x with
  | S754_nan => "NaN"
  | S754_infinity false => "Infinity"
  | S754_infinity true => "-Infinity"
  | S754_zero _ => fixed_digits 0 f
  | S754_finite s m e =>
      let sign := if s then "-" else "" in
      let big := if 0 <=? e then 10 ^ 21 <=? Zpos m * 2 ^ e
                 else 10 ^ 21 * 2 ^ (- e) <=? Zpos m in
      if big then
        sign +:+ toString_large (if 0 <=? e then Zpos m * 2 ^ e
                                else Zpos m / 2 ^ (- e))
      else
        let n := if 0 <=? e then Zpos m * 2 ^ e * 10 ^ Z.of_nat f
                 else (2 * Zpos m * 10 ^ Z.of_nat f + 2 ^ (- e))
                      / (2 * 2 ^ (- e)) in
        sign +:+ fixed_digits n f
  end.

End JsNumber.

Import JsNumber.

(** ** Values and results *)

(** The values a caller can pass.  Objects and functions carry no content
    here: the script only asks for their type. *)
Inductive value :=
  | VUndefined
  | VNull
  | VBoolean (b : bool)
  | VNumber (x : number)
  | VBigInt (z : Z)
  | VString (s : string)
  | VSymbol
  | VObject
  | VFunction.

Definition typeof (v : value) : string :=
  match v with
  | VUndefined => "undefined"
  | VNull => "object"
  | VBoolean _ => "boolean"
  | VNumber _ => "number"
  | VBigInt _ => "bigint"
  | VString _ => "string"
  | VSymbol => "symbol"
  | VObject => "object"
  | VFunction => "function"
  end.

(** What a call does: it returns, it throws [new Error(message)], or the
    loop it runs has not finished within the fuel given. *)
Inductive outcome (A : Type) :=
  | Return (a : A)
  | Throw (message : string)
  | OutOfFuel.
Arguments Return {A} a.
Arguments Throw {A} message.
Arguments OutOfFuel {A}.

(** ** performCalculations *)

Record calculations := {
  squared : number;
  cubed : number;
  squareRoot : string;
  isEven : bool;
  factorial : value
}.

(** [for (let i = 2; i <= number; i++) result *= i;] then
    [return result]. *)
Fixpoint factorial_loop (fuel : nat) (number i result : number)
  : option JsNumber.number :=
  match fuel with
  | O => None
  | S fuel' =>
      if leb i number
      then factorial_loop fuel' number (add i one) (mul result i)
      else Some result
  end.

(** The function expression called in place for the [factorial] field. *)
Definition factorial_iife (fuel : nat) (number : number) : option value :=
  if ltb number zero then Some VUndefined
  else if strict_eqb number zero || strict_eqb number one
  then Some (VNumber one)
  else VNumber <$> factorial_loop fuel number two one.

Definition performCalculations (fuel : nat) (number : value)
  : outcome calculations :=
  match number with
  | VNumber x =>
      if isNaN x then Throw "Invalid input: must be a number"
      else
        match factorial_iife fuel x with
        | Some f =>
            Return {| squared := mul x x;
                      cubed := mul (mul x x) x;
                      squareRoot := toFixed (sqrt x) 2;
                      isEven := strict_eqb (rem x two) zero;
                      factorial := f |}
        | None => OutOfFuel
        end
  | _ => Throw "Invalid input: must be a number"
  end.

(** ** getRandomColor *)

(** [Math.random] is a sequence of numbers read at a position that each
    call advances. *)
Definition random_source := nat -> number.

Definition letters : string := "0123456789ABCDEF".

(** [letters[x]] appended to a string: the character at the index, or the
    text of [undefined] when [x] is no index of the string. *)
Definition letter_at (x : number) : string :=
  match to_index x with
  | Some k =>
      match String.get k letters with
      | Some c => String c ""
      | None => "undefined"
      end
  | None => "undefined"
  end.

(** [for (let i = 0; i < 6; i++) color += letters[...]], [n] rounds left. *)
Fixpoint color_loop (n : nat) (rnd : random_source) (pos : nat)
    (color : string) : string * nat :=
  match n with
  | O => (color, pos)
  | S n' =>
      color_loop n' rnd (S pos)
        (color +:+ letter_at (floor (mul (rnd pos) (of_Z 16))))
  end.

Definition getRandomColor (rnd : random_source) (pos : nat) : string * nat :=
  color_loop 6 rnd pos "#".

(** ** formatText *)

(** Texts are strings of 8-bit characters.  On the ASCII characters, the
    codes below 128, [toUpperCase] and [toLowerCase] are the case maps of
    JavaScript: they act on the letters and leave every other character as
    it is.  Beyond ASCII the maps of JavaScript change other letters too,
    and can change the length of a text: what is stated of ['upper'] and
    ['lower'] is stated of ASCII texts.  [\w] and [\b] know the ASCII
    letters, digits and underscore only, in JavaScript as here. *)
Definition is_lower (c : ascii) : bool :=
  let n := nat_of_ascii c in ((97 <=? n) && (n <=? 122))%nat.
Definition is_upper (c : ascii) : bool :=
  let n := nat_of_ascii c in ((65 <=? n) && (n <=? 90))%nat.
Definition is_digit (c : ascii) : bool :=
  let n := nat_of_ascii c in ((48 <=? n) && (n <=? 57))%nat.

Definition char_toUpperCase (c : ascii) : ascii :=
  if is_lower c then ascii_of_nat (nat_of_ascii c - 32) else c.
Definition char_toLowerCase (c : ascii) : ascii :=
  if is_upper c then ascii_of_nat (nat_of_ascii c + 32) else c.

Fixpoint string_map (f : ascii -> ascii) (s : string) : string :=
  match s with
  | EmptyString => EmptyString
  | String c s' => String (f c) (string_map f s')
  end.

Definition toUpperCase : string -> string := string_map char_toUpperCase.
Definition toLowerCase : string -> string := string_map char_toLowerCase.

(** The class [\w]: letters, digits and the underscore. *)
Definition is_word_char (c : ascii) : bool :=
  is_lower c || is_upper c || is_digit c || Ascii.eqb c "_"%char.

(** [text.replace(/\b\w/g, char => char.toUpperCase())], scanning from the
    left.  [prev] tells whether the character before the current position
    is a word character (false at the start of the text): [\b\w] matches a
    word character that follows none. *)
Fixpoint replace_word_starts (prev : bool) (text : string) : string :=
  match text with
  | EmptyString => EmptyString
  | String c rest =>
      let w := is_word_char c in
      String (if w && negb prev then char_toUpperCase c else c)
             (replace_word_starts w rest)
  end.

(** The parameter [style = 'capitalize'] takes its default when the
    argument is [undefined] or left out.  [switch] compares with [===]:
    of all values only the three strings select a case. *)
Definition formatText (text : string) (style : value) : string :=
  let style := match style with
               | VUndefined => VString "capitalize"
               | _ => style
               end in
  match style with
  | VString s =>
      if String.eqb s "upper" then toUpperCase text
      else if String.eqb s "lower" then toLowerCase text
      else if String.eqb s "capitalize" then replace_word_starts false text
      else text
  | _ => text
  end.

(** ** Elements of the page *)

(** What the script reads and writes of an element: its class list, its
    inline style and its text. *)
Record element := {
  classList : gset string;
  style : gmap string string;
  textContent : string
}.

Definition with_classList (f : gset string -> gset string) (el : element)
  : element :=
  {| classList := f (classList el); style := style el;
     textContent := textContent el |}.

Definition classList_add (c : string) : element -> element :=
  with_classList (fun cs => {[c]} ∪ cs).
Definition classList_remove (c : string) : element -> element :=
  with_classList (fun cs => cs ∖ {[c]}).
Definition classList_toggle (c : string) : element -> element :=
  with_classList (fun cs => if decide (c ∈ cs) then cs ∖ {[c]} else {[c]} ∪ cs).

Definition set_style (property v : string) (el : element) : element :=
  {| classList := classList el; style := <[property := v]> (style el);
     textContent := textContent el |}.

Definition set_textContent (v : string) (el : element) : element :=
  {| classList := classList el; style := style el; textContent := v |}.

(** What a method of [classList] throws for a token that is no class
    name: a [SyntaxError] for the empty text, an [InvalidCharacterError]
    for a text with ASCII white space (tab, line feed, form feed, carriage
    return, space).  The class list is then left as it is. *)
Inductive DOMException := SyntaxError | InvalidCharacterError.

Definition is_ascii_whitespace (c : ascii) : bool :=
  let n := nat_of_ascii c in
  ((n =? 9) || (n =? 10) || (n =? 12) || (n =? 13) || (n =? 32))%nat.

Fixpoint has_ascii_whitespace (s : string) : bool :=
  match s with
  | EmptyString => false
  | String c rest => is_ascii_whitespace c || has_ascii_whitespace rest
  end.

Definition token_error (token : string) : option DOMException :=
  match token with
  | EmptyString => Some SyntaxError
  | _ => if has_ascii_whitespace token then Some InvalidCharacterError
         else None
  end.

(** A call of a method of [classList] with a token: the element after the
    call, and what the call throws if it does. *)
Definition classList_call (method : string -> element -> element)
    (token : string) (el : element) : element * option DOMException :=
  match token_error token with
  | Some e => (el, Some e)
  | None => (method token el, None)
  end.

Definition toggleClass (el : element) (className : string) (force : value)
  : element * option DOMException :=
  match force with
  | VBoolean true => classList_call classList_add className el
  | VBoolean false => classList_call classList_remove className el
  | _ => classList_call classList_toggle className el
  end.

(** ** Interval timers *)

(** The live intervals of the page: each handle with the variables its
    callback has captured.  Handles are positive and never given twice. *)
Record intervals (C : Type) := {
  live : gmap positive C;
  fresh : positive
}.
Arguments live {C} _.
Arguments fresh {C} _.

Definition no_intervals {C} : intervals C := {| live := ∅; fresh := 1%positive |}.

Definition setInterval {C} (captured : C) (tm : intervals C)
  : positive * intervals C :=
  (fresh tm,
   {| live := <[fresh tm := captured]> (live tm);
      fresh := Pos.succ (fresh tm) |}).

Definition clearInterval {C} (h : positive) (tm : intervals C) : intervals C :=
  {| live := delete h (live tm); fresh := fresh tm |}.

Definition capture {C} (h : positive) (captured : C) (tm : intervals C)
  : intervals C :=
  {| live := <[h := captured]> (live tm); fresh := fresh tm |}.

(** ** AnimationController *)

Module AnimationController.

Record t := {
  box : element;
  animationInterval : option positive;
  isAnimating : bool
}.

(** The controller together with the intervals it has set; an interval
    carries the [rotation] of its callback, an integer of degrees. *)
Record page := {
  this : t;
  timers : intervals Z
}.

Definition constructor (boxElement : element) : t :=
  {| box := boxElement; animationInterval := None; isAnimating := false |}.

Definition load (boxElement : element) : page :=
  {| this := constructor boxElement; timers := no_intervals |}.

Definition set_isAnimating (b : bool) (p : page) : page :=
  {| this := {| box := box (this p);
                animationInterval := animationInterval (this p);
                isAnimating := b |};
     timers := timers p |}.

Definition set_animationInterval (h : option positive) (p : page) : page :=
  {| this := {| box := box (this p); animationInterval := h;
                isAnimating := isAnimating (this p) |};
     timers := timers p |}.

Definition with_box (f : element -> element) (p : page) : page :=
  {| this := {| box := f (box (this p));
                animationInterval := animationInterval (this p);
                isAnimating := isAnimating (this p) |};
     timers := timers p |}.

Definition with_timers (f : intervals Z -> intervals Z) (p : page) : page :=
  {| this := this p; timers := f (timers p) |}.

Definition startAnimation (p : page) : page :=
  if isAnimating (this p) then p
  else
    let p := set_isAnimating true p in
    let p := with_box (classList_add "animate") p in
    let '(h, tm) := setInterval 0 (timers p) in
    set_animationInterval (Some h) (with_timers (fun _ => tm) p).

(** One run of the callback of interval [h], if it is live. *)
Definition tick (h : positive) (p : page) : page :=
  match live (timers p) !! h with
  | Some rotation =>
      let rotation := (rotation + 2) mod 360 in
      let p := with_timers (capture h rotation) p in
      with_box (set_style "transform"
                  ("rotate(" +:+ digits_of rotation +:+ "deg)")) p
  | None => p
  end.

Definition stopAnimation (p : page) : page :=
  let p := set_isAnimating false p in
  let p := with_box (classList_remove "animate") p in
  match animationInterval (this p) with
  | Some h => set_animationInterval None (with_timers (clearInterval h) p)
  | None => p
  end.

Definition resetAnimation (p : page) : page :=
  let p := stopAnimation p in
  let p := with_box (set_style "transform" "rotate(0deg)") p in
  with_box (set_style "background"
              "linear-gradient(45deg, #667eea, #764ba2)") p.

(** What the user and the page can do to the controller. *)
Inductive op :=
  | Start
  | Stop
  | Reset
  | Tick (h : positive).

Definition step (p : page) (o : op) : page :=
  match o with
  | Start => startAnimation p
  | Stop => stopAnimation p
  | Reset => resetAnimation p
  | Tick h => tick h p
  end.

Definition run (p : page) (ops : list op) : page := foldl step p ops.

End AnimationController.

(** ** FlipCardManager *)

Module FlipCardManager.

Record t := {
  card : element;
  isFlipped : bool
}.

Definition constructor (cardElement : element) : t :=
  {| card := cardElement; isFlipped := false |}.

(** ['flipped'] is a class name: the call of [toggleClass] does not
    throw, and the card is the element after it. *)
Definition flip (m : t) : t :=
  let flipped := negb (isFlipped m) in
  {| card := (toggleClass (card m) "flipped" (VBoolean flipped)).1;
     isFlipped := flipped |}.

Definition reset (m : t) : t :=
  {| card := classList_remove "flipped" (card m); isFlipped := false |}.

Inductive op := Flip | Reset.

Definition step (m : t) (o : op) : t :=
  match o with
  | Flip => flip m
  | Reset => reset m
  end.

Definition run (m : t) (ops : list op) : t := foldl step m ops.

End FlipCardManager.

(** ** LoadingManager *)

Module LoadingManager.

Record t := {
  loadingBar : element;
  statusElement : element;
  loadingInterval : option positive;
  isLoading : bool
}.

(** The manager together with the intervals it has set; an interval
    carries the [progress] of its callback. *)
Record page := {
  this : t;
  timers : intervals number
}.

Definition constructor (loadingBar statusElement : element) : t :=
  {| loadingBar := loadingBar; statusElement := statusElement;
     loadingInterval := None; isLoading := false |}.

Definition load (loadingBar statusElement : element) : page :=
  {| this := constructor loadingBar statusElement; timers := no_intervals |}.

Definition set_isLoading (b : bool) (p : page) : page :=
  {| this := {| loadingBar := loadingBar (this p);
                statusElement := statusElement (this p);
                loadingInterval := loadingInterval (this p);
                isLoading := b |};
     timers := timers p |}.

Definition set_loadingInterval (h : option positive) (p : page) : page :=
  {| this := {| loadingBar := loadingBar (this p);
                statusElement := statusElement (this p);
                loadingInterval := h;
                isLoading := isLoading (this p) |};
     timers := timers p |}.

Definition with_loadingBar (f : element -> element) (p : page) : page :=
  {| this := {| loadingBar := f (loadingBar (this p));
                statusElement := statusElement (this p);
                loadingInterval := loadingInterval (this p);
                isLoading := isLoading (this p) |};
     timers := timers p |}.

Definition with_statusElement (f : element -> element) (p : page) : page :=
  {| this := {| loadingBar := loadingBar (this p);
                statusElement := f (statusElement (this p));
                loadingInterval := loadingInterval (this p);
                isLoading := isLoading (this p) |};
     timers := timers p |}.

Definition with_timers (f : intervals number -> intervals number) (p : page)
  : page :=
  {| this := this p; timers := f (timers p) |}.

Definition startLoading (p : page) : page :=
  if isLoading (this p) then p
  else
    let p := set_isLoading true p in
    let p := with_loadingBar (classList_add "loading") p in
    let p := with_statusElement (set_textContent "Loading...") p in
    let '(h, tm) := setInterval zero (timers p) in
    set_loadingInterval (Some h) (with_timers (fun _ => tm) p).

Definition stopLoading (p : page) : page :=
  let p := set_isLoading false p in
  let p := with_loadingBar (classList_remove "loading") p in
  let p := with_statusElement (set_textContent "Stopped") p in
  match loadingInterval (this p) with
  | Some h => set_loadingInterval None (with_timers (clearInterval h) p)
  | None => p
  end.

Definition finishLoading (p : page) : page :=
  let p := set_isLoading false p in
  let p := with_loadingBar (classList_remove "loading") p in
  let p := with_statusElement (set_textContent "Complete!") p in
  match loadingInterval (this p) with
  | Some h => set_loadingInterval None (with_timers (clearInterval h) p)
  | None => p
  end.

(** One run of the callback of interval [h], if it is live; [random] is
    what [Math.random()] returns in it. *)
Definition tick (h : positive) (random : number) (p : page) : page :=
  match live (timers p) !! h with
  | Some progress =>
      let progress := add progress (mul random (of_Z 10)) in
      let p := with_timers (capture h progress) p in
      if leb (of_Z 100) progress then finishLoading p else p
  | None => p
  end.

(** What the user and the page can do to the manager. *)
Inductive op :=
  | Start
  | Stop
  | Finish
  | Tick (h : positive) (random : number).

Definition step (p : page) (o : op) : page :=
  match o with
  | Start => startLoading p
  | Stop => stopLoading p
  | Finish => finishLoading p
  | Tick h r => tick h r p
  end.

Definition run (p : page) (ops : list op) : page := foldl step p ops.

(** The states of the specification, read off the manager: it is loading
    while the flag is set; otherwise the status text tells how it ended. *)
Inductive phase := Idle | Loading | Complete | Stopped.

Definition phase_of (p : page) : phase :=
  if isLoading (this p) then Loading
  else if String.eqb (textContent (statusElement (this p))) "Complete!"
  then Complete
  else if String.eqb (textContent (statusElement (this p))) "Stopped"
  then Stopped
  else Idle.

End LoadingManager.

(** ** debounce *)

Module Debounce.
Section Closure.

(** The arguments of a call, and the delay [wait] in milliseconds. *)
Context {A : Type}.
Variable wait : nat.

(** A pending timeout: its handle, the time it is due and the arguments
    its [later] has captured.  The list is in the order the timeouts
    were set. *)
Definition timeout_entry : Type := positive * (nat * A).

(** The closure [debounce(func, wait)] returns, in the page: the captured
    variable [timeout], the pending timeouts, the clock, and the calls
    [func] has received so far, each with its time. *)
Record state := {
  timeout : option positive;
  pending : list timeout_entry;
  fresh_handle : positive;
  now : nat;
  calls : list (nat * A)
}.

(** [debounce(func, wait)] at time [t]: [let timeout;]. *)
Definition debounce (t : nat) : state :=
  {| timeout := None; pending := []; fresh_handle := 1%positive;
     now := t; calls := [] |}.

(** [clearTimeout(h)]: nothing happens when [h] is [undefined] or no
    pending timeout has this handle. *)
Definition clearTimeout (h : option positive) (l : list timeout_entry)
  : list timeout_entry :=
  match h with
  | Some h => filter (fun e => e.1 ≠ h) l
  | None => l
  end.

(** [later]: [clearTimeout(timeout); func(...args)]. *)
Definition later (args : A) (st : state) : state :=
  {| timeout := timeout st;
     pending := clearTimeout (timeout st) (pending st);
     fresh_handle := fresh_handle st;
     now := now st;
     calls := calls st ++ [(now st, args)] |}.

(** [executedFunction(...args)]:
    [clearTimeout(timeout); timeout = setTimeout(later, wait)]. *)
Definition executedFunction (args : A) (st : state) : state :=
  let h := fresh_handle st in
  {| timeout := Some h;
     pending := clearTimeout (timeout st) (pending st)
                  ++ [(h, (now st + wait, args))%nat];
     fresh_handle := Pos.succ h;
     now := now st;
     calls := calls st |}.

(** The pending timeout that is due first; of two due at the same time,
    the one set first. *)
Fixpoint earliest (l : list timeout_entry) : option timeout_entry :=
  match l with
  | [] => None
  | e :: l' =>
      match earliest l' with
      | Some e' => if (e'.2.1 <? e.2.1)%nat then Some e' else Some e
      | None => Some e
      end
  end.

(** The clock moves to [t]; on the way every timeout that comes due is
    taken off the list and its [later] runs at the time it is due. *)
Fixpoint run_until (fuel : nat) (t : nat) (st : state) : state :=
  let idle := {| timeout := timeout st; pending := pending st;
                 fresh_handle := fresh_handle st;
                 now := now st `max` t; calls := calls st |} in
  match fuel with
  | O => idle
  | S fuel' =>
      match earliest (pending st) with
      | Some (h, (due, args)) =>
          if (due <=? t)%nat then
            run_until fuel' t
              (later args
                 {| timeout := timeout st;
                    pending := filter (fun e => e.1 ≠ h) (pending st);
                    fresh_handle := fresh_handle st;
                    now := now st `max` due;
                    calls := calls st |})
          else idle
      | None => idle
      end
  end.

(** [d] milliseconds pass.  A [later] sets no timeout, so one round for
    each pending timeout is enough. *)
Definition elapse (d : nat) (st : state) : state :=
  run_until (length (pending st)) (now st + d) st.

(** A burst: each call comes [gap] milliseconds after the event before
    it.  The timeouts due by then run before the call, as they do when
    the call comes in a later task, after the time they are due.  A call
    at the very time a timeout is due, as a second call in the same task
    with [wait = 0], may come before the timeout runs: what is stated of
    the order of the two leaves such calls out. *)
Definition call_after (st : state) (c : nat * A) : state :=
  executedFunction c.2 (elapse c.1 st).

Definition burst (st : state) (cs : list (nat * A)) : state :=
  foldl call_after st cs.

End Closure.
End Debounce.

(** ** The colour button *)

(** [el.style[property] = v]: an empty text takes the property off. *)
Definition assign_style (property v : string) (el : element) : element :=
  if String.eqb v "" then
    {| classList := classList el; style := delete property (style el);
       textContent := textContent el |}
  else set_style property v el.

(** The listener of [randomColorBtn]: two colours are drawn, the one of
    the constant first, and set as the background of the body. *)
Definition randomColor_click (rnd : random_source) (pos : nat)
    (body : element) : element * nat :=
  let '(randomColor, pos) := getRandomColor rnd pos in
  let '(second, pos) := getRandomColor rnd pos in
  (assign_style "background"
     ("linear-gradient(135deg, " +:+ randomColor +:+ " 0%, "
      +:+ second +:+ " 100%)") body,
   pos).

(** ** throttle *)

Module Throttle.
Section Closure.

(** The arguments of a call, and the delay [limit] in milliseconds. *)
Context {A : Type}.
Variable limit : nat.

(** The closure [throttle(func, limit)] returns, in the page: the captured
    variable [inThrottle] ([None] while it is [undefined]), the pending
    timeouts with the time each is due, in the order they were set, the
    clock, and the calls [func] has received so far, each with its time. *)
Record state := {
  inThrottle : option bool;
  pending : list (positive * nat);
  fresh_handle : positive;
  now : nat;
  calls : list (nat * A)
}.

(** [throttle(func, limit)] at time [t]: [let inThrottle;]. *)
Definition throttle (t : nat) : state :=
  {| inThrottle := None; pending := []; fresh_handle := 1%positive;
     now := t; calls := [] |}.

(** [!inThrottle] is false on [true] only. *)
Definition truthy (v : option bool) : bool :=
  match v with
  | Some true => true
  | _ => false
  end.

(** The function returned: [if (!inThrottle) { func.apply(context, args);
    inThrottle = true; setTimeout(() => inThrottle = false, limit); }]. *)
Definition throttled (args : A) (st : state) : state :=
  if truthy (inThrottle st) then st
  else
    {| inThrottle := Some true;
       pending := pending st ++ [(fresh_handle st, (now st + limit)%nat)];
       fresh_handle := Pos.succ (fresh_handle st);
       now := now st;
       calls := calls st ++ [(now st, args)] |}.

(** The callback of the timeout: [inThrottle = false]. *)
Definition release (st : state) : state :=
  {| inThrottle := Some false; pending := pending st;
     fresh_handle := fresh_handle st; now := now st; calls := calls st |}.

(** The pending timeout that is due first; of two due at the same time,
    the one set first. *)
Fixpoint earliest (l : list (positive * nat)) : option (positive * nat) :=
  match l with
  | [] => None
  | e :: l' =>
      match earliest l' with
      | Some e' => if (e'.2 <? e.2)%nat then Some e' else Some e
      | None => Some e
      end
  end.

(** The clock moves to [t]; on the way every timeout that comes due is
    taken off the list and its callback runs at the time it is due. *)
Fixpoint run_until (fuel : nat) (t : nat) (st : state) : state :=
  let idle := {| inThrottle := inThrottle st; pending := pending st;
                 fresh_handle := fresh_handle st;
                 now := now st `max` t; calls := calls st |} in
  match fuel with
  | O => idle
  | S fuel' =>
      match earliest (pending st) with
      | Some (h, due) =>
          if (due <=? t)%nat then
            run_until fuel' t
              (release
                 {| inThrottle := inThrottle st;
                    pending := filter (fun e => e.1 ≠ h) (pending st);
                    fresh_handle := fresh_handle st;
                    now := now st `max` due;
                    calls := calls st |})
          else idle
      | None => idle
      end
  end.

(** [d] milliseconds pass.  The callback sets no timeout, so one round
    for each pending timeout is enough. *)
Definition elapse (d : nat) (st : state) : state :=
  run_until (length (pending st)) (now st + d) st.

(** Each call comes [gap] milliseconds after the event before it.  The
    timeout due by then runs before the call, as it does when the call
    comes in a later task, after the time it is due.  A call at the very
    time the timeout is due, as a second call in the same task with
    [limit = 0], may come before the timeout runs: what is stated of the
    order of the two leaves such calls out. *)
Definition call_after (st : state) (c : nat * A) : state :=
  throttled c.2 (elapse c.1 st).

Definition run (st : state) (cs : list (nat * A)) : state :=
  foldl call_after st cs.

End Closure.
End Throttle.

(** ** ModalManager *)

Module ModalManager.

(** How a method ends: normally, or with the [TypeError] of reading
    [style] of [null]. *)
Inductive completion := Normal | TypeError.

(** The manager in the page: the modal, the element that
    [querySelector('.modal-content')] finds in it ([None] when there is
    none), the pending timeouts of [close] with the time each is due, and
    the clock. *)
Record page := {
  modal : element;
  content : option element;
  pending : list (positive * nat);
  fresh_handle : positive;
  now : nat
}.

Definition constructor (modalElement : element) (found : option element)
    (t : nat) : page :=
  {| modal := modalElement; content := found; pending := [];
     fresh_handle := 1%positive; now := t |}.

Definition with_modal (f : element -> element) (p : page) : page :=
  {| modal := f (modal p); content := content p; pending := pending p;
     fresh_handle := fresh_handle p; now := now p |}.

Definition with_content (f : element -> element) (p : page) : page :=
  {| modal := modal p; content := f <$> content p; pending := pending p;
     fresh_handle := fresh_handle p; now := now p |}.

Definition open (p : page) : page * completion :=
  let p := with_modal (assign_style "display" "block") p in
  match content p with
  | Some _ =>
      (with_content (assign_style "animation" "modalSlideIn 0.5s ease-out") p,
       Normal)
  | None => (p, TypeError)
  end.

(** The callback of the timeout of [close]. *)
Definition hide (p : page) : page :=
  let p := with_modal (assign_style "display" "none") p in
  with_content (assign_style "animation" "") p.

Definition close (p : page) : page * completion :=
  match content p with
  | Some _ =>
      let p := with_content
                 (assign_style "animation" "modalSlideOut 0.3s ease-in") p in
      ({| modal := modal p; content := content p;
          pending := pending p ++ [(fresh_handle p, (now p + 300)%nat)];
          fresh_handle := Pos.succ (fresh_handle p); now := now p |},
       Normal)
  | None => (p, TypeError)
  end.

(** The clock moves to [t]; every timeout that comes due on the way is
    taken off the list and hides the modal at the time it is due. *)
Fixpoint run_until (fuel : nat) (t : nat) (p : page) : page :=
  let idle := {| modal := modal p; content := content p;
                 pending := pending p; fresh_handle := fresh_handle p;
                 now := now p `max` t |} in
  match fuel with
  | O => idle
  | S fuel' =>
      match Throttle.earliest (pending p) with
      | Some (h, due) =>
          if (due <=? t)%nat then
            run_until fuel' t
              (hide
                 {| modal := modal p; content := content p;
                    pending := filter (fun e => e.1 ≠ h) (pending p);
                    fresh_handle := fresh_handle p;
                    now := now p `max` due |})
          else idle
      | None => idle
      end
  end.

Definition elapse (d : nat) (p : page) : page :=
  run_until (length (pending p)) (now p + d) p.

(** What happens to the modal: a call of [open], a call of [close], or
    time passing. *)
Inductive op :=
  | Open
  | Close
  | Wait (d : nat).

Definition step (p : page) (o : op) : page :=
  match o with
  | Open => (open p).1
  | Close => (close p).1
  | Wait d => elapse d p
  end.

Definition run (p : page) (ops : list op) : page := foldl step p ops.

End ModalManager.

(** ** Numbers as text, text as numbers *)

(** *** Number::toString *)

(** A double [A * 2^e2] against a decimal [c * 10^p]: both sides are
    multiplied by the powers of 2 and 10 that make them integers. *)
Definition binary_side (A e2 p : Z) : Z :=
  A * 2 ^ Z.max 0 e2 * 10 ^ Z.max 0 (- p).
Definition decimal_side (c e2 p : Z) : Z :=
  c * 10 ^ Z.max 0 p * 2 ^ Z.max 0 (- e2).

(** The [n] with [10^(n-1) <= m * 2^e < 10^n], searched upwards from
    [n]. *)
Fixpoint decimal_exponent (fuel : nat) (m e n : Z) : Z :=
  match fuel with
  | O => n
  | S fuel' =>
      if binary_side m e n <? decimal_side 1 e n then n
      else decimal_exponent fuel' m e (n + 1)
  end.

(** A decimal exponent that is not above the one of [m * 2^e], and close
    to it: 30103/100000 is just above the logarithm of 2. *)
Definition decimal_exponent_below (m : positive) (e : Z) : Z :=
  (Zpos (digits2_pos m) + e - 1) * 30103 / 100000 - 1.

(** Whether the decimal [c * 10^p] reads back as the double [m * 2^e]:
    it lies between the midpoints to the neighbours of the double, the
    midpoints included when [m] is even.  Everything is counted in
    quarters of the unit [2^e]; the neighbour below a power of two is
    half as far away. *)
Definition reads_back (m e c p : Z) : bool :=
  let e2 := e - 2 in
  let lower := if (m =? 2 ^ 52) && (-1074 <? e) then 4 * m - 1 else 4 * m - 2 in
  let upper := 4 * m + 2 in
  let d := decimal_side c e2 p in
  if Z.even m
  then (binary_side lower e2 p <=? d) && (d <=? binary_side upper e2 p)
  else (binary_side lower e2 p <? d) && (d <? binary_side upper e2 p).

(** The [k]-digit decimals around [m * 2^e], whose decimal exponent is
    [n]: the one that reads back as the double, the closest one when both
    do, the even one when they are as close. *)
Definition digits_at (m e n k : Z) : option Z :=
  let p := n - k in
  let e2 := e - 2 in
  let x := binary_side (4 * m) e2 p in
  let lo := x / decimal_side 1 e2 p in
  let hi := lo + 1 in
  match reads_back m e lo p, reads_back m e hi p with
  | true, true =>
      let dlo := x - decimal_side lo e2 p in
      let dhi := decimal_side hi e2 p - x in
      if dlo <? dhi then Some lo
      else if dhi <? dlo then Some hi
      else Some (if Z.even lo then lo else hi)
  | true, false => Some lo
  | false, true => Some hi
  | false, false => None
  end.

(** The fewest digits that read back; 17 always do. *)
Fixpoint shortest_digits (fuel : nat) (m e n k : Z) : Z * Z :=
  match fuel with
  | O => (0, k)
  | S fuel' =>
      match digits_at m e n k with
      | Some s => (s, k)
      | None => shortest_digits fuel' m e n (k + 1)
      end
  end.

(** The text of the [k] digits of [s] with decimal exponent [n]. *)
Definition decimal_text (s n k : Z) : string :=
  let ds := digits_of s in
  if (k <=? n) && (n <=? 21) then ds +:+ zeros (Z.to_nat (n - k))
  else if (0 <? n) && (n <=? 21)
  then String.substring 0 (Z.to_nat n) ds +:+ "."
       +:+ String.substring (Z.to_nat n) (Z.to_nat (k - n)) ds
  else if (-6 <? n) && (n <=? 0) then "0." +:+ zeros (Z.to_nat (- n)) +:+ ds
  else
    let mant := match ds with
                | String d "" => String d ""
                | String d rest => String d ("." +:+ rest)
                | "" => ""
                end in
    mant +:+ "e" +:+ (if 0 <=? n - 1 then "+" else "-")
    +:+ digits_of (Z.abs (n - 1)).

(** The integer a positive double [m * 2^e] is, when it is one and is at
    most 2^53. *)
Definition small_integer (m e : Z) : option Z :=
  if 0 <=? e
  then (if m * 2 ^ e <=? 2 ^ 53 then Some (m * 2 ^ e) else None)
  else if (m mod 2 ^ (- e) =? 0) && (m / 2 ^ (- e) <=? 2 ^ 53)
       then Some (m / 2 ^ (- e)) else None.

(** The shortest decimal text that reads back as the positive double
    [m * 2^e]. *)
Definition shortest_text (m : positive) (e : Z) : string :=
  let n := decimal_exponent 640 (Zpos m) e (decimal_exponent_below m e) in
  let '(s, k) := shortest_digits 17 (Zpos m) e n 1 in
  if s =? 10 ^ k then decimal_text 1 (n + 1) 1
  else decimal_text s n k.

(** [Number::toString], radix 10.  An integer up to 2^53 is written with
    its decimal digits, which is what the shortest digits come to there:
    the doubles next to it are at least half a unit away. *)
Definition toString (x : number) : string :=
  match x with
  | S754_nan => "NaN"
  | S754_zero _ => "0"
  | S754_infinity false => "Infinity"
  | S754_infinity true => "-Infinity"
  | S754_finite sg m e =>
      (if sg then "-" else "") +:+
      match small_integer (Zpos m) e with
      | Some X => digits_of X
      | None => shortest_text m e
      end
  end.

(** The text a value has in a template literal.  Symbols, objects and
    functions, which the script never puts there, are given no text. *)
Definition template_text (v : value) : string :=
  match v with
  | VUndefined => "undefined"
  | VNull => "null"
  | VBoolean b => if b then "true" else "false"
  | VNumber x => toString x
  | VBigInt z => (if z <? 0 then "-" else "") +:+ digits_of (Z.abs z)
  | VString s => s
  | VSymbol | VObject | VFunction => ""
  end.

(** *** parseInt *)

(** The white space of ASCII. *)
Definition is_white_space (c : ascii) : bool :=
  let n := nat_of_ascii c in
  ((9 <=? n) && (n <=? 13) || (n =? 32))%nat.

Fixpoint trim_start (s : string) : string :=
  match s with
  | String c rest => if is_white_space c then trim_start rest else s
  | "" => ""
  end.

Definition digit_value (c : ascii) : option Z :=
  let n := Z.of_nat (nat_of_ascii c) in
  if is_digit c then Some (n - 48)
  else if is_lower c then Some (n - 87)
  else if is_upper c then Some (n - 55)
  else None.

(** The integer written by the digits of radix [R] that [s] starts with;
    [acc] is [None] until a digit is read. *)
Fixpoint leading_digits (R : Z) (s : string) (acc : option Z) : option Z :=
  match s with
  | String c rest =>
      match digit_value c with
      | Some d =>
          if d <? R then leading_digits R rest (Some (default 0 acc * R + d))
          else acc
      | None => acc
      end
  | "" => acc
  end.

(** The sign that a text starts with, if any, and the rest. *)
Definition skip_sign (inputString : string) : bool * string :=
  match inputString with
  | String c rest =>
      if Ascii.eqb c "-" then (true, rest)
      else if Ascii.eqb c "+" then (false, rest)
      else (false, inputString)
  | "" => (false, "")
  end.

(** The radix that the start of a text selects, and the digits. *)
Definition radix_prefix (unsigned : string) : Z * string :=
  match unsigned with
  | String c (String c' rest) =>
      if Ascii.eqb c "0" && (Ascii.eqb c' "x" || Ascii.eqb c' "X")
      then (16, rest) else (10, unsigned)
  | _ => (10, unsigned)
  end.

(** [parseInt(string)] with no radix given: white space is skipped, a
    sign is read, [0x] or [0X] selects radix 16, and the digits that
    follow give the integer, rounded to a double; no digit gives [NaN]. *)
Definition parseInt (text : string) : number :=
  let inputString := trim_start text in
  let '(negative, unsigned) := skip_sign inputString in
  let '(R, digits) := radix_prefix unsigned in
  match leading_digits R digits None with
  | None => NaN
  | Some 0 => S754_zero negative
  | Some mathInt => of_Z (if negative then - mathInt else mathInt)
  end.
(** ** The listeners of the page *)

(** *** demonstrateScope *)

Definition line_feed : string := String "010" "".

(** The global [globalCounter] and the markup of the element with id
    [scopeOutput].  The markup a script assigns to [innerHTML] is read back
    as it was written: the script writes tags without attributes, digits
    and plain words. *)
Record scope := {
  globalCounter : number;
  scopeOutput : string
}.

(** The nested function; [localCounter] is the variable of the call of
    [demonstrateScope] around it. *)
Definition innerFunction (localCounter : number) : string :=
  let innerCounter := add localCounter (of_Z 10) in
  "Inner function result: " +:+ toString innerCounter.

Definition demonstrateScope (st : scope) : scope :=
  let localCounter := zero in
  let globalCounter := add (globalCounter st) one in
  let localCounter := add localCounter one in
  let innerHTML :=
    line_feed +:+ "        <strong>Scope Demonstration:</strong><br>"
    +:+ line_feed +:+ "        Global Counter: " +:+ toString globalCounter
    +:+ "<br>"
    +:+ line_feed +:+ "        Local Counter: " +:+ toString localCounter
    +:+ "<br>"
    +:+ line_feed +:+ "        <small>Note: Local counter resets each call, "
    +:+ "global persists</small>"
    +:+ line_feed +:+ "    " in
  {| globalCounter := globalCounter;
     scopeOutput := innerHTML +:+ "<br>" +:+ innerFunction localCounter |}.

(** *** The listener of the calculate button *)

(** What the listener assigns to [output.innerHTML] for the text
    [input.value]; an error thrown in the [try] block is caught and its
    message is shown. *)
Definition calculate_click (fuel : nat) (input_value : string)
  : outcome string :=
  let number := parseInt input_value in
  let caught message := Return ("<strong>Error:</strong> " +:+ message) in
  if isNaN number then caught "Please enter a valid number"
  else
    match performCalculations fuel (VNumber number) with
    | Return results =>
        Return (
          line_feed +:+ "                <strong>Calculations for "
          +:+ toString number +:+ ":</strong><br>"
          +:+ line_feed +:+ "                Squared: "
          +:+ toString (squared results) +:+ "<br>"
          +:+ line_feed +:+ "                Cubed: "
          +:+ toString (cubed results) +:+ "<br>"
          +:+ line_feed +:+ "                Square Root: "
          +:+ squareRoot results +:+ "<br>"
          +:+ line_feed +:+ "                Even: "
          +:+ (if isEven results then "Yes" else "No") +:+ "<br>"
          +:+ line_feed +:+ "                Factorial: "
          +:+ template_text (factorial results)
          +:+ line_feed +:+ "            ")
    | Throw message => caught message
    | OutOfFuel => OutOfFuel
    end.

(** *** The listener of the format button *)

(** [const styles = ['upper', 'lower', 'capitalize']]. *)
Definition styles : list string := ["upper"; "lower"; "capitalize"].

(** [styles[Math.floor(Math.random() * styles.length)]] for the value [r]
    of [Math.random()]; [None] is [undefined], what the array gives for a
    key that is none of its indices. *)
Definition random_style (r : number) : option string :=
  match to_index (floor (mul r (of_Z (Z.of_nat (length styles))))) with
  | Some i => styles !! i
  | None => None
  end.

(** A text that is written out as markup and parsed again, as
    [innerHTML += ...] does with the text of the element: the parser
    drops the character 0 and turns every line break (CR LF or CR) into a
    line feed. *)
Fixpoint parsed_text (s : string) : string :=
  match s with
  | "" => ""
  | String c rest =>
      if Ascii.eqb c "000" then parsed_text rest
      else if Ascii.eqb c "013" then
        String "010"
          match rest with
          | String c' rest' =>
              if Ascii.eqb c' "010" then parsed_text rest'
              else parsed_text rest
          | "" => ""
          end
      else String c (parsed_text rest)
  end.

(** What reading an element of an array of strings gives as a value. *)
Definition element_value (read : option string) : value :=
  match read with
  | Some s => VString s
  | None => VUndefined
  end.

(** The click, for the value [r] that [Math.random()] gives.  The output
    element is an ordinary container; after the click it holds the text, a
    line break and the label, and its [textContent] is the text followed
    by the label. *)
Definition formatText_click (r : number) (output : element) : element :=
  let randomStyle := random_style r in
  let output :=
    set_textContent
      (formatText (textContent output) (element_value randomStyle)) output in
  set_textContent
    (parsed_text (textContent output)
     +:+ "Applied style: " +:+ default "undefined" randomStyle)
    output.
(** ** Readings of the specification *)

(** What the guard of [performCalculations] rejects: a value that is not
    of type number, or NaN. *)
Definition not_a_number (v : value) : bool :=
  match v with
  | VNumber x => isNaN x
  | _ => true
  end.

(** A finite number: a value of type number other than NaN and the
    infinities. *)
Definition is_finite_number (v : value) : bool :=
  match v with
  | VNumber (S754_zero _ | S754_finite _ _ _) => true
  | _ => false
  end.

(** The standard recursive definition of the factorial. *)
Fixpoint factorial_spec (n : nat) : Z :=
  match n with
  | O => 1
  | S k => Z.of_nat n * factorial_spec k
  end.

(** The double of an integer [k] with [1 <= k < 2^53]: the mantissa is
    [k] shifted up to 53 bits. *)
Definition int_digits (k : Z) : Z := Z.log2 k + 1.

Definition int_float (k : Z) : number :=
  S754_finite false (Z.to_pos (k * 2 ^ (53 - int_digits k)))
    (int_digits k - 53).

Definition two_pow_53 : number := of_Z (2 ^ 53).

Definition int_or_two_pow_53 (k : Z) : number :=
  if k <? 2 ^ 53 then int_float k else two_pow_53.

(** A value of [Math.random()]: a double [r] with [0 <= r < 1]. *)
Definition unit_interval (r : number) : Prop :=
  is_double r = true /\ leb zero r = true /\ ltb r one = true.

(** The integer part of [16 * r] for [r >= 0], and the letter it picks. *)
Definition hex_index (r : number) : nat :=
  match r with
  | S754_finite false m e =>
      if 0 <=? e then Z.to_nat (Zpos m * 2 ^ e * 16)
      else Z.to_nat (Zpos m * 16 / 2 ^ (- e))
  | _ => 0%nat
  end.

Definition hex_letter (k : nat) : ascii :=
  default "0"%char (String.get k letters).

(** The [n] digits drawn from position [pos] on, one per random value. *)
Fixpoint hex_digits (n : nat) (rnd : random_source) (pos : nat) : string :=
  match n with
  | O => ""
  | S n' => String (hex_letter (hex_index (rnd pos))) (hex_digits n' rnd (S pos))
  end.

(** The pattern [^#[0-9A-F]{6}$]. *)
Definition is_hex_digit (c : ascii) : bool :=
  let n := nat_of_ascii c in
  is_digit c || ((65 <=? n) && (n <=? 70))%nat.

Fixpoint all_hex_digits (s : string) : bool :=
  match s with
  | EmptyString => true
  | String c s' => is_hex_digit c && all_hex_digits s'
  end.

Definition is_color (s : string) : bool :=
  match s with
  | String c rest =>
      Ascii.eqb c "#"%char && (String.length rest =? 6)%nat
      && all_hex_digits rest
  | EmptyString => false
  end.

(** ** Invariants of the controllers *)

(** The flag of a flip card tells whether the card carries the class. *)
Definition flag_matches_class (m : FlipCardManager.t) : Prop :=
  FlipCardManager.isFlipped m = true
  <-> "flipped" ∈ classList (FlipCardManager.card m).

(** The handles a controller holds: none or one. *)
Definition handle_set (h : option positive) : gset positive :=
  match h with
  | Some h => {[h]}
  | None => ∅
  end.

(** The live intervals of the page are the one the controller holds, and
    the controller holds one exactly while its flag is set. *)
Definition animation_consistent (p : AnimationController.page) : Prop :=
  dom (live (AnimationController.timers p))
  = handle_set (AnimationController.animationInterval (AnimationController.this p))
  /\ (AnimationController.isAnimating (AnimationController.this p) = true
      <-> AnimationController.animationInterval (AnimationController.this p) <> None).

Definition loading_consistent (p : LoadingManager.page) : Prop :=
  dom (live (LoadingManager.timers p))
  = handle_set (LoadingManager.loadingInterval (LoadingManager.this p))
  /\ (LoadingManager.isLoading (LoadingManager.this p) = true
      <-> LoadingManager.loadingInterval (LoadingManager.this p) <> None).

(** [reset] as the specification words it: [stop], then the default
    transform and background on the box. *)
Definition reset_as_specified (p : AnimationController.page)
  : AnimationController.page :=
  let q := AnimationController.stopAnimation p in
  let b := AnimationController.box (AnimationController.this q) in
  {| AnimationController.this :=
       {| AnimationController.box :=
            {| classList := classList b;
               style := <["background" := "linear-gradient(45deg, #667eea, #764ba2)"]>
                          (<["transform" := "rotate(0deg)"]> (style b));
               textContent := textContent b |};
          AnimationController.animationInterval :=
            AnimationController.animationInterval (AnimationController.this q);
          AnimationController.isAnimating :=
            AnimationController.isAnimating (AnimationController.this q) |};
     AnimationController.timers := AnimationController.timers q |}.

(** The progress of a loading callback after the ticks that drew
    [randoms], and whether it stayed below 100 at every one of them. *)
Fixpoint progress_after (progress : number) (randoms : list number) : number :=
  match randoms with
  | [] => progress
  | r :: rs => progress_after (add progress (mul r (of_Z 10))) rs
  end.

Fixpoint stays_below (progress : number) (randoms : list number) : bool :=
  match randoms with
  | [] => true
  | r :: rs =>
      let progress := add progress (mul r (of_Z 10)) in
      negb (leb (of_Z 100) progress) && stays_below progress rs
  end.

(** A manager at rest: flag off, no handle, no live interval. *)
Definition loading_idle (p : LoadingManager.page) : Prop :=
  LoadingManager.isLoading (LoadingManager.this p) = false
  /\ LoadingManager.loadingInterval (LoadingManager.this p) = None
  /\ live (LoadingManager.timers p) = ∅.

(** Right after a call of the debounced function: [func] has not run, and
    the only pending timeout is the one this call has set, due [wait] from
    now with its arguments. *)
Definition just_called {A : Type} (wait : nat) (st : Debounce.state (A := A))
    (args : A) : Prop :=
  Debounce.calls st = []
  /\ exists h, Debounce.timeout st = Some h
               /\ Debounce.pending st
                  = [(h, ((Debounce.now st + wait)%nat, args))].

(** A text of ASCII characters: every code is below 128. *)
Fixpoint ascii_text (s : string) : bool :=
  match s with
  | EmptyString => true
  | String c rest => (nat_of_ascii c <? 128)%nat && ascii_text rest
  end.



(** A controller at rest: flag off, no handle, no live interval. *)
Definition animation_idle (p : AnimationController.page) : Prop :=
  AnimationController.isAnimating (AnimationController.this p) = false
  /\ AnimationController.animationInterval (AnimationController.this p) = None
  /\ live (AnimationController.timers p) = ∅.

(** The class list of an element whose class [c] follows a flag. *)
Definition classes_with (c : string) (flag : bool) (cs : gset string)
  : gset string :=
  if flag then {[c]} ∪ cs else cs.

(** The box of an animation keeps its text, and its class list is the one
    it had, with [animate] while the flag is set. *)
Definition box_follows_flag (boxElement : element)
    (p : AnimationController.page) : Prop :=
  classList (AnimationController.box (AnimationController.this p))
  = classes_with "animate"
      (AnimationController.isAnimating (AnimationController.this p))
      (classList boxElement)
  /\ textContent (AnimationController.box (AnimationController.this p))
     = textContent boxElement.

(** The elements of a loader: the bar keeps its style and text and carries
    [loading] while the flag is set; the status element keeps its classes
    and style, and its text is the one it had or one of the three the
    manager writes, [Loading...] while the flag is set. *)
Definition loader_follows_flag (bar status : element)
    (p : LoadingManager.page) : Prop :=
  let m := LoadingManager.this p in
  classList (LoadingManager.loadingBar m)
  = classes_with "loading" (LoadingManager.isLoading m) (classList bar)
  /\ style (LoadingManager.loadingBar m) = style bar
  /\ textContent (LoadingManager.loadingBar m) = textContent bar
  /\ classList (LoadingManager.statusElement m) = classList status
  /\ style (LoadingManager.statusElement m) = style status
  /\ (if LoadingManager.isLoading m
      then textContent (LoadingManager.statusElement m) = "Loading..."
      else textContent (LoadingManager.statusElement m) = textContent status
           \/ textContent (LoadingManager.statusElement m) = "Stopped"
           \/ textContent (LoadingManager.statusElement m) = "Complete!").






(** Whether [func] may run at time [t] through a throttled function. *)
Definition free_now (free_at : option nat) (t : nat) : bool :=
  match free_at with
  | Some f => (f <=? t)%nat
  | None => true
  end.

(** The calls of [func] a throttled function makes: a call runs [func], at
    once and with its own arguments, when [func] has not run yet or last
    ran [limit] or more before.  [free_at] is the time from which [func]
    may run again. *)
Fixpoint throttled_calls {A : Type} (limit : nat) (free_at : option nat)
    (t : nat) (events : list (nat * A)) : list (nat * A) :=
  match events with
  | [] => []
  | (g, a) :: rest =>
      let t' := (t + g)%nat in
      if free_now free_at t'
      then (t', a) :: throttled_calls limit (Some (t' + limit)%nat) t' rest
      else throttled_calls limit free_at t' rest
  end.


(** Runs of [func] that are [limit] or more apart, the first not before
    [from]. *)
Fixpoint spaced {A : Type} (limit from : nat) (l : list (nat * A)) : Prop :=
  match l with
  | [] => True
  | (t, _) :: l' => (from <= t)%nat /\ spaced limit (t + limit) l'
  end.


(** The calls with the time of each: [t] is the time of the event before
    the first. *)
Fixpoint timed {A : Type} (t : nat) (events : list (nat * A))
  : list (nat * A) :=
  match events with
  | [] => []
  | (g, a) :: rest => ((t + g)%nat, a) :: timed (t + g) rest
  end.

(** Right after a call of a throttled function: either [func] is free to
    run and nothing is pending, or the flag is set and the one pending
    timeout, due at [f], will clear it. *)
Definition holds_free {A : Type} (st : Throttle.state (A := A))
    (free_at : option nat) : Prop :=
  match free_at with
  | Some f =>
      Throttle.inThrottle st = Some true
      /\ (Throttle.now st <= f)%nat
      /\ exists h, Throttle.pending st = [(h, f)]
  | None =>
      Throttle.truthy (Throttle.inThrottle st) = false
      /\ Throttle.pending st = []
  end.

(** A modal at rest: it has its content and no timeout is pending. *)
Definition modal_settled (p : ModalManager.page) (c : element) : Prop :=
  ModalManager.content p = Some c /\ ModalManager.pending p = [].

(** The double of an integer of absolute value [k], [1 <= k < 2^53], with
    sign [s]. *)
Definition signed_int_float (s : bool) (k : Z) : number :=
  S754_finite s (Z.to_pos (k * 2 ^ (53 - int_digits k))) (int_digits k - 53).

(** The integer part of a finite number, rounded down. *)
Definition floor_Z (x : number) : Z :=
  match x with
  | S754_finite s m e =>
      if 0 <=? e then cond_Zopp s (Zpos m * 2 ^ e)
      else cond_Zopp s (Zpos m) / 2 ^ (- e)
  | _ => 0
  end.

(** ** Readings of the listeners *)

(** The markup of the scope demonstration after [calls] calls. *)
Definition scope_markup (calls : Z) : string :=
  (line_feed +:+ "        <strong>Scope Demonstration:</strong><br>"
   +:+ line_feed +:+ "        Global Counter: " +:+ digits_of calls +:+ "<br>"
   +:+ line_feed +:+ "        Local Counter: 1<br>"
   +:+ line_feed +:+ "        <small>Note: Local counter resets each call, "
   +:+ "global persists</small>"
   +:+ line_feed +:+ "    ")
  +:+ "<br>Inner function result: 11".

(** An integer in decimal, with its sign. *)
Definition Z_text (z : Z) : string :=
  (if z <? 0 then "-" else "") +:+ digits_of (Z.abs z).




(** The markup of the results, from the texts of the six values. *)
Definition results_markup
    (number squared cubed squareRoot even factorial : string) : string :=
  line_feed +:+ "                <strong>Calculations for "
  +:+ number +:+ ":</strong><br>"
  +:+ line_feed +:+ "                Squared: " +:+ squared +:+ "<br>"
  +:+ line_feed +:+ "                Cubed: " +:+ cubed +:+ "<br>"
  +:+ line_feed +:+ "                Square Root: " +:+ squareRoot +:+ "<br>"
  +:+ line_feed +:+ "                Even: " +:+ even +:+ "<br>"
  +:+ line_feed +:+ "                Factorial: " +:+ factorial
  +:+ line_feed +:+ "            ".

(** The square root of [n >= 0] to the nearest hundredth. *)
Definition root_text (n : Z) : string :=
  fixed_digits ((Z.sqrt (40000 * n) + 1) / 2) 2.

(** The markup for the integer [z]. *)
Definition integer_markup (z : Z) : string :=
  results_markup (Z_text z) (digits_of (z * z)) (Z_text (z * z * z))
    (if z <? 0 then "NaN" else root_text z)
    (if Z.even z then "Yes" else "No")
    (if z <? 0 then "undefined" else digits_of (factorial_spec (Z.to_nat z))).

(** A text without the characters that markup does not keep. *)
Fixpoint plain_text (s : string) : bool :=
  match s with
  | "" => true
  | String c rest =>
      negb (Ascii.eqb c "000") && negb (Ascii.eqb c "013") && plain_text rest
  end.

(** The clicks on the format button, one for each value of
    [Math.random()]. *)
Definition format_clicks (output : element) (rs : list number) : element :=
  foldl (fun el r => formatText_click r el) output rs.

(** A number that is not negative and is below the integer [N]: a zero,
    or a positive double, of exponent at most -46 as every double below
    128 has, with [m * 2^e < N]. *)
Definition below_integer (N : Z) (x : number) : Prop :=
  (exists s, x = S754_zero s)
  \/ exists (m : positive) (e : Z),
       x = S754_finite false m e
       /\ -1074 <= e <= -46 /\ Zpos m < 2 ^ 53 /\ Zpos m < N * 2 ^ (- e).

(** The flips of a card since its last reset. *)
Definition flips_since_reset (ops : list FlipCardManager.op) : nat :=
  foldl (fun n o => match o with
                    | FlipCardManager.Flip => S n
                    | FlipCardManager.Reset => O
                    end) O ops.
(** * Properties *)

(** Numbers are computed on concrete inputs only. *)
#[global] Arguments of_Z : simpl never.
#[global] Arguments add : simpl never.
#[global] Arguments mul : simpl never.
#[global] Arguments sqrt : simpl never.
#[global] Arguments leb : simpl never.
#[global] Arguments ltb : simpl never.
#[global] Arguments strict_eqb : simpl never.
#[global] Arguments rem : simpl never.
#[global] Arguments floor : simpl never.
#[global] Arguments toFixed : simpl never.

(** ** Exact rounding *)

Lemma digits2_pos_size (p : positive) : digits2_pos p = Pos.size p.
Proof. induction p; simpl; congruence. Qed.

Lemma digits2_log2 (p : positive) : Zpos (digits2_pos p) = Z.log2 (Zpos p) + 1.
Proof.
  rewrite digits2_pos_size.
  destruct p; simpl; try reflexivity; rewrite Pos2Z.inj_succ; lia.
Qed.

Lemma iter_xO_pow (m p : positive) :
  Zpos (Pos.iter xO m p) = Zpos m * 2 ^ Zpos p.
Proof.
  change (Pos.iter xO m p) with (shift_pos p m).
  rewrite shift_pos_correct. change (Z.pow_pos 2 p) with (2 ^ Zpos p). lia.
Qed.

Lemma iter_pos_nat {A : Type} (f : A -> A) (p : positive) :
  forall x, SpecFloat.iter_pos f p x = Nat.iter (Pos.to_nat p) f x.
Proof.
  induction p as [p IH|p IH|]; intros x; cbn [SpecFloat.iter_pos].
  - rewrite !IH, Pos2Nat.inj_xI, <- Nat.iter_succ_r, <- Nat.iter_add.
    f_equal. lia.
  - rewrite !IH, Pos2Nat.inj_xO, <- Nat.iter_add. f_equal. lia.
  - reflexivity.
Qed.

Lemma shr_1_even (q : positive) :
  shr_1 (Build_shr_record (Zpos q~0) false false)
  = Build_shr_record (Zpos q) false false.
Proof. reflexivity. Qed.

Lemma iter_shr_1_exact (n : nat) (q : positive) :
  Nat.iter n shr_1 (Build_shr_record (Zpos (Nat.iter n xO q)) false false)
  = Build_shr_record (Zpos q) false false.
Proof.
  induction n as [|n IH]; [reflexivity|].
  rewrite Nat.iter_succ_r. simpl Nat.iter at 2. rewrite shr_1_even. exact IH.
Qed.

Lemma shr_exact (M : positive) (e sh : Z) :
  0 <= sh -> (2 ^ sh | Zpos M) ->
  shr (Build_shr_record (Zpos M) false false) e sh
  = (Build_shr_record (Zpos M / 2 ^ sh) false false, e + sh).
Proof.
  intros Hsh [q Hq]. destruct sh as [|p|p]; [| |lia].
  - simpl. rewrite Z.div_1_r, Z.add_0_r. reflexivity.
  - assert (Hqpos : 0 < q) by (assert (0 < 2 ^ Zpos p) by lia; nia).
    destruct q as [|q|q]; try lia.
    assert (HM : M = Pos.iter xO q p).
    { apply Pos2Z.inj. rewrite iter_xO_pow. exact Hq. }
    clear Hq. subst M.
    replace (Zpos (Pos.iter xO q p) / 2 ^ Zpos p) with (Zpos q)
      by (rewrite iter_xO_pow, Z.div_mul; lia).
    unfold shr. rewrite iter_pos_nat, Pos2Nat.inj_iter.
    f_equal. apply iter_shr_1_exact.
Qed.

Lemma digits2_shift (q : positive) (sh : Z) (M : positive) :
  0 <= sh -> Zpos M = Zpos q * 2 ^ sh ->
  Zpos (digits2_pos M) = Zpos (digits2_pos q) + sh.
Proof.
  intros Hsh HM. rewrite !digits2_log2, HM, Z.log2_mul_pow2 by lia. lia.
Qed.

(** Rounding a mantissa whose low bits, down to the exponent of its
    format, are all zero drops these bits and nothing else. *)
Lemma binary_round_aux_exact (s : bool) (M : positive) (e sh : Z) :
  sh = fexp prec emax (Zpos (digits2_pos M) + e) - e ->
  0 <= sh -> (2 ^ sh | Zpos M) -> e + sh <= emax - prec ->
  binary_round_aux prec emax s (Zpos M) e loc_Exact
  = S754_finite s (Z.to_pos (Zpos M / 2 ^ sh)) (e + sh).
Proof.
  intros Hsh Hpos Hdiv Hmax.
  unfold binary_round_aux, shr_fexp.
  cbn [Zdigits2 shr_record_of_loc]. rewrite <- Hsh, shr_exact by assumption.
  cbn [shr_m loc_of_shr_record round_nearest_even].
  destruct Hdiv as [q Hq].
  assert (Hqpos : 0 < q) by (assert (0 < 2 ^ sh) by lia; nia).
  destruct q as [|q|q]; try lia.
  rewrite Hq, Z.div_mul by lia.
  cbn [Zdigits2 shr_record_of_loc Z.to_pos].
  assert (Hd := digits2_shift q sh M Hpos Hq).
  replace (fexp prec emax (Zpos (digits2_pos q) + (e + sh)) - (e + sh)) with 0.
  2:{ replace (Zpos (digits2_pos q) + (e + sh)) with (Zpos (digits2_pos M) + e) by lia.
      lia. }
  cbn [shr shr_m].
  destruct (Z.leb_spec (e + sh) (emax - prec)); [reflexivity | lia].
Qed.

Lemma shl_align_value (m : positive) (e e' : Z) :
  e' <= e -> Zpos (fst (shl_align m e e')) = Zpos m * 2 ^ (e - e').
Proof.
  intros Hle. unfold shl_align.
  destruct (e' - e) as [|d|d] eqn:Hd; try lia; cbn [fst].
  - replace (e - e') with 0 by lia. lia.
  - rewrite iter_xO_pow. f_equal. f_equal. lia.
Qed.

Lemma shl_align_keep (m : positive) (e e' : Z) :
  e <= e' -> shl_align m e e' = (m, e).
Proof.
  intros Hle. unfold shl_align.
  destruct (e' - e) as [|d|d] eqn:Hd; try lia; reflexivity.
Qed.

(** ** Integers below 2^53 *)

Lemma int_digits_range (k : Z) :
  1 <= k < 2 ^ 53 -> 1 <= int_digits k <= 53.
Proof.
  intros Hk. unfold int_digits.
  assert (0 <= Z.log2 k) by apply Z.log2_nonneg.
  assert (Z.log2 k < 53) by (apply Z.log2_lt_pow2; lia).
  lia.
Qed.

Lemma one_eq : one = S754_finite false 4503599627370496 (-52).
Proof. reflexivity. Qed.

Lemma add_one_int (k : Z) :
  1 <= k -> k + 1 < 2 ^ 53 -> add (int_float k) one = int_float (k + 1).
Proof.
  intros Hk Hk1.
  assert (Hd := int_digits_range k ltac:(lia)).
  assert (Hd1 := int_digits_range (k + 1) ltac:(lia)).
  set (d := int_digits k) in *. set (d1 := int_digits (k + 1)) in *.
  assert (Hpow : 0 < 2 ^ (53 - d)) by (apply Z.pow_pos_nonneg; lia).
  assert (Hpow1 : 0 < 2 ^ (53 - d1)) by (apply Z.pow_pos_nonneg; lia).
  rewrite one_eq. unfold int_float, add, SFadd. fold d d1.
  replace (Z.min (d - 53) (-52)) with (-52) by lia.
  rewrite !shl_align_value by lia. cbn [cond_Zopp].
  rewrite Z2Pos.id by nia.
  replace (k * 2 ^ (53 - d) * 2 ^ (d - 53 - -52)
           + 4503599627370496 * 2 ^ (-52 - -52))
    with ((k + 1) * 2 ^ 52).
  2:{ replace (d - 53 - -52) with (d - 1) by lia.
      replace (-52 - -52) with 0 by lia.
      rewrite <- Z.mul_assoc, <- Z.pow_add_r by lia.
      replace (53 - d + (d - 1)) with 52 by lia. lia. }
  assert (HM : 0 < (k + 1) * 2 ^ 52) by lia.
  destruct ((k + 1) * 2 ^ 52) as [|M|M] eqn:EM; try lia.
  assert (HdM : Zpos (digits2_pos M) = d1 + 52).
  { rewrite digits2_log2, <- EM, Z.log2_mul_pow2 by lia.
    unfold d1, int_digits. lia. }
  unfold binary_normalize, binary_round.
  rewrite HdM.
  replace (fexp prec emax (d1 + 52 + -52)) with (d1 - 53)
    by (unfold fexp, emin, prec, emax; lia).
  rewrite shl_align_keep by lia.
  rewrite (binary_round_aux_exact false M (-52) (d1 - 1)).
  - f_equal; [|lia]. f_equal. rewrite <- EM.
    replace (2 ^ 52) with (2 ^ (53 - d1) * 2 ^ (d1 - 1)).
    2:{ rewrite <- Z.pow_add_r by lia. f_equal. lia. }
    rewrite Z.mul_assoc, Z.div_mul by (apply Z.pow_nonzero; lia).
    reflexivity.
  - rewrite HdM. unfold fexp, emin, prec, emax. lia.
  - lia.
  - rewrite <- EM. exists ((k + 1) * 2 ^ (53 - d1)).
    rewrite <- Z.mul_assoc, <- Z.pow_add_r by lia. do 2 f_equal. lia.
  - unfold prec, emax. lia.
Qed.

Lemma two_eq : two = int_or_two_pow_53 2.
Proof. reflexivity. Qed.

Lemma add_one_int_or_two_pow_53 (k : Z) :
  1 <= k <= 2 ^ 53 -> add (int_or_two_pow_53 k) one = int_or_two_pow_53 (Z.min (k + 1) (2 ^ 53)).
Proof.
  intros Hk. unfold int_or_two_pow_53.
  destruct (Z.ltb_spec k (2 ^ 53)) as [Hlt|Hge].
  - destruct (Z.ltb_spec (Z.min (k + 1) (2 ^ 53)) (2 ^ 53)) as [Hlt1|Hge1].
    + replace (Z.min (k + 1) (2 ^ 53)) with (k + 1) by lia.
      apply add_one_int; lia.
    + replace k with (2 ^ 53 - 1) by lia. vm_compute. reflexivity.
  - destruct (Z.ltb_spec (Z.min (k + 1) (2 ^ 53)) (2 ^ 53)); [lia|].
    vm_compute. reflexivity.
Qed.

(** ** Comparisons *)

Lemma SFcompare_antisym (x y : number) :
  SFcompare y x = CompOpp <$> SFcompare x y.
Proof.
  destruct x as [sx|sx| |sx mx ex], y as [sy|sy| |sy my ey];
    try reflexivity;
    try (destruct sx; reflexivity); try (destruct sy; reflexivity);
    try (destruct sx, sy; reflexivity).
  cbn [SFcompare fmap option_fmap option_map].
  rewrite (Z.compare_antisym ex ey).
  assert (Hm : Pos.compare_cont Eq my mx = CompOpp (Pos.compare_cont Eq mx my))
    by (rewrite Pos.compare_cont_antisym; reflexivity).
  change PosDef.Pos.compare_cont with Pos.compare_cont.
  rewrite Hm.
  destruct sx, sy; try reflexivity;
    destruct (ex ?= ey); cbn [CompOpp]; try reflexivity;
    destruct (Pos.compare_cont Eq mx my); reflexivity.
Qed.

Lemma ltb_not_leb (x y : number) : ltb x y = true -> leb y x = false.
Proof.
  unfold ltb, leb, SFltb, SFleb. rewrite (SFcompare_antisym x y).
  destruct (SFcompare x y) as [[]|]; simpl; congruence.
Qed.

Lemma leb_two_pow_53_int (k : Z) (x : number) :
  1 <= k <= 2 ^ 53 -> leb two_pow_53 x = true -> leb (int_or_two_pow_53 k) x = true.
Proof.
  intros Hk Hx. unfold int_or_two_pow_53.
  destruct (Z.ltb_spec k (2 ^ 53)) as [Hlt|Hge]; [|exact Hx].
  assert (Hd := int_digits_range k ltac:(lia)).
  unfold int_float. revert Hx. unfold leb, SFleb.
  change two_pow_53 with (S754_finite false 4503599627370496 1).
  destruct x as [sx|sx| |sx mx ex]; cbn [SFcompare]; try discriminate.
  - destruct sx; [discriminate | reflexivity].
  - destruct sx; [discriminate|].
    destruct (Z.compare_spec 1 ex) as [Heq|Hlt1|Hgt]; try discriminate; intros _;
      (replace (int_digits k - 53 ?= ex) with Lt
        by (symmetry; apply Z.compare_lt_iff; lia)); reflexivity.
Qed.

(** ** The factorial loop *)

Lemma factorial_loop_more_fuel (fuel : nat) :
  forall (x i res v : number) (extra : nat),
    factorial_loop fuel x i res = Some v ->
    factorial_loop (fuel + extra) x i res = Some v.
Proof.
  induction fuel as [|fuel IH]; intros x i res v extra H; [discriminate|].
  cbn [factorial_loop Nat.add] in *.
  destruct (leb i x); [apply IH; exact H | exact H].
Qed.

(** Below 2^53 the counter reaches the bound: it takes the integers from
    2 on, one by one. *)
Lemma factorial_loop_returns (x : number) :
  ltb x two_pow_53 = true ->
  forall (n : nat) (k : Z) (res : number),
    2 <= k <= 2 ^ 53 -> 2 ^ 53 - k <= Z.of_nat n ->
    exists v, factorial_loop (S n) x (int_or_two_pow_53 k) res = Some v.
Proof.
  intros Hx. induction n as [|n IH]; intros k res Hk Hn;
    cbn [factorial_loop].
  - replace k with (2 ^ 53) by lia.
    change (int_or_two_pow_53 (2 ^ 53)) with two_pow_53.
    rewrite (ltb_not_leb _ _ Hx). eauto.
  - destruct (leb (int_or_two_pow_53 k) x) eqn:Hle; [|eauto].
    assert (Hlt : k < 2 ^ 53).
    { destruct (Z.eq_dec k (2 ^ 53)) as [->|]; [|lia].
      change (int_or_two_pow_53 (2 ^ 53)) with two_pow_53 in Hle.
      rewrite (ltb_not_leb _ _ Hx) in Hle. discriminate. }
    rewrite add_one_int_or_two_pow_53 by lia.
    replace (Z.min (k + 1) (2 ^ 53)) with (k + 1) by lia.
    apply IH; lia.
Qed.

(** From 2^53 on the counter stops moving at 2^53, where adding one rounds
    back, and never passes the bound. *)
Lemma factorial_loop_never_returns (x : number) :
  leb two_pow_53 x = true ->
  forall (fuel : nat) (k : Z) (res : number),
    2 <= k <= 2 ^ 53 -> factorial_loop fuel x (int_or_two_pow_53 k) res = None.
Proof.
  intros Hx. induction fuel as [|fuel IH]; intros k res Hk; [reflexivity|].
  cbn [factorial_loop].
  rewrite (leb_two_pow_53_int k x) by (trivial; lia).
  rewrite add_one_int_or_two_pow_53 by lia.
  apply IH. lia.
Qed.

(** ** performCalculations *)

Lemma factorial_iife_more_fuel (fuel extra : nat) (x : number) (f : value) :
  factorial_iife fuel x = Some f -> factorial_iife (fuel + extra) x = Some f.
Proof.
  unfold factorial_iife.
  destruct (ltb x zero); [trivial|].
  destruct (strict_eqb x zero || strict_eqb x one); [trivial|].
  destruct (factorial_loop fuel x two one) as [v|] eqn:Hv; [|discriminate].
  rewrite (factorial_loop_more_fuel _ _ _ _ _ extra Hv). trivial.
Qed.

Lemma performCalculations_more_fuel (fuel extra : nat) (v : value)
    (r : calculations) :
  performCalculations fuel v = Return r ->
  performCalculations (fuel + extra) v = Return r.
Proof.
  unfold performCalculations. destruct v as [| | |x| | | | |]; try discriminate.
  destruct (isNaN x); [discriminate|].
  destruct (factorial_iife fuel x) as [f|] eqn:Hf; [|discriminate].
  rewrite (factorial_iife_more_fuel _ extra _ _ Hf). trivial.
Qed.

Lemma factorial_iife_returns (x : number) :
  ltb x two_pow_53 = true ->
  exists f, factorial_iife (S (Z.to_nat (2 ^ 53 - 2))) x = Some f.
Proof.
  intros Hx. unfold factorial_iife.
  destruct (ltb x zero); [eauto|].
  destruct (strict_eqb x zero || strict_eqb x one); [eauto|].
  rewrite two_eq.
  destruct (factorial_loop_returns x Hx (Z.to_nat (2 ^ 53 - 2)) 2 one)
    as [v Hv]; [lia | lia |].
  rewrite Hv. eauto.
Qed.

Lemma guard_throws (fuel : nat) (v : value) :
  not_a_number v = true ->
  performCalculations fuel v = Throw "Invalid input: must be a number".
Proof.
  destruct v as [| | |x| | | | |]; try reflexivity.
  simpl. intros ->. reflexivity.
Qed.

Lemma guard_passes (fuel : nat) (v : value) (msg : string) :
  not_a_number v = false -> performCalculations fuel v <> Throw msg.
Proof.
  destruct v as [| | |x| | | | |]; try discriminate.
  simpl. intros ->. destruct (factorial_iife fuel x); discriminate.
Qed.

Lemma returns_below_two_pow_53 (x : number) :
  ltb x two_pow_53 = true ->
  exists (fuel : nat) (r : calculations),
    forall fuel', (fuel <= fuel')%nat ->
      performCalculations fuel' (VNumber x) = Return r.
Proof.
  intros Hx. destruct (factorial_iife_returns x Hx) as [f Hf].
  set (fuel := S (Z.to_nat (2 ^ 53 - 2))) in *.
  exists fuel.
  assert (Hnan : isNaN x = false) by (destruct x; trivial; discriminate).
  eexists. intros fuel' Hle.
  replace fuel' with (fuel + (fuel' - fuel))%nat by lia.
  apply performCalculations_more_fuel.
  unfold performCalculations. rewrite Hnan, Hf. reflexivity.
Qed.

Lemma never_returns_from_two_pow_53 (x : number) (fuel : nat) :
  leb two_pow_53 x = true -> performCalculations fuel (VNumber x) = OutOfFuel.
Proof.
  intros Hx.
  assert (Hloop := factorial_loop_never_returns x Hx fuel 2 one ltac:(lia)).
  rewrite <- two_eq in Hloop.
  unfold performCalculations, factorial_iife. rewrite Hloop.
  revert Hx. unfold leb, SFleb, ltb, SFltb, strict_eqb, SFeqb.
  change two_pow_53 with (S754_finite false 4503599627370496 1).
  change one with (S754_finite false 4503599627370496 (-52)).
  destruct x as [sx|sx| |sx mx ex]; cbn [SFcompare isNaN zero]; try discriminate.
  - destruct sx; [discriminate | reflexivity].
  - destruct sx; [discriminate|].
    destruct (Z.compare_spec 1 ex) as [Heq|Hlt1|Hgt]; try discriminate; intros _;
      (replace (ex ?= -52) with Gt
        by (symmetry; apply Z.compare_gt_iff; lia)); reflexivity.
Qed.

Lemma negative_result (x : number) (fuel : nat) :
  ltb x zero = true ->
  performCalculations fuel (VNumber x)
  = Return {| squared := mul x x;
              cubed := mul (mul x x) x;
              squareRoot := "NaN";
              isEven := strict_eqb (rem x two) zero;
              factorial := VUndefined |}.
Proof.
  intros Hx. unfold performCalculations, factorial_iife. rewrite Hx.
  destruct x as [sx|sx| |sx mx ex]; try discriminate;
    destruct sx; try discriminate; reflexivity.
Qed.

(** C9. For every negative number [x], finite or not, and whatever the
    fuel, [performCalculations(x)] returns, and the [squareRoot] field of
    its result is the string [NaN]. *)
Theorem performCalculations_negative_sqrt_NaN (x : number) (fuel : nat) :
  ltb x zero = true ->
  exists r, performCalculations fuel (VNumber x) = Return r
            /\ squareRoot r = "NaN".
Proof.
  intros Hx. rewrite (negative_result x fuel Hx). eauto.
Qed.

Lemma performCalculations_negative_sqrt_NaN_witness :
  exists r, performCalculations 0 (VNumber (of_Z (-9))) = Return r
            /\ squareRoot r = "NaN".
Proof.
  apply (performCalculations_negative_sqrt_NaN (of_Z (-9)) 0). reflexivity.
Defined.

(** C2. For every integer [n] from 0 to 20, [performCalculations(n)]
    returns (20 rounds of the loop are enough) and its [factorial] field
    is the number [n!] of the recursive definition, with [0! = 1! = 1]; for
    every negative number the field is [undefined]. *)
Theorem factorial_field_small_integers :
  (forall (n fuel : nat), (n <= 20)%nat -> (20 <= fuel)%nat ->
     exists r,
       performCalculations fuel (VNumber (of_Z (Z.of_nat n))) = Return r
       /\ factorial r = VNumber (of_Z (factorial_spec n)))
  /\ factorial_spec 0 = 1 /\ factorial_spec 1 = 1
  /\ (forall (x : number) (fuel : nat), ltb x zero = true ->
        exists r, performCalculations fuel (VNumber x) = Return r
                  /\ factorial r = VUndefined).
Proof.
  split; [|split; [reflexivity|split; [reflexivity|]]].
  - intros n fuel Hn Hfuel.
    replace fuel with (20 + (fuel - 20))%nat by lia.
    assert (H20 : exists r,
      performCalculations 20 (VNumber (of_Z (Z.of_nat n))) = Return r
      /\ factorial r = VNumber (of_Z (factorial_spec n))).
    { do 21 (destruct n as [|n];
             [eexists; split; [vm_compute; reflexivity|vm_compute; reflexivity]|]).
      lia. }
    destruct H20 as (r & Hr & Hf). exists r. split; [|exact Hf].
    apply performCalculations_more_fuel. exact Hr.
  - intros x fuel Hx. rewrite (negative_result x fuel Hx). eauto.
Qed.

Lemma factorial_field_small_integers_witness :
  (exists r, performCalculations 20 (VNumber (of_Z 5)) = Return r
             /\ factorial r = VNumber (of_Z 120))
  /\ (exists r, performCalculations 0 (VNumber (of_Z (-3))) = Return r
                /\ factorial r = VUndefined).
Proof.
  destruct factorial_field_small_integers as (Hsmall & _ & _ & Hneg).
  split.
  - apply (Hsmall 5%nat 20%nat); lia.
  - apply (Hneg (of_Z (-3)) 0%nat). reflexivity.
Defined.

(** At [-Infinity], which is no finite number, the call returns. *)
Lemma performCalculations_neg_Infinity_returns :
  is_finite_number (VNumber neg_Infinity) = false
  /\ performCalculations 0 (VNumber neg_Infinity)
     = Return {| squared := Infinity;
                 cubed := neg_Infinity;
                 squareRoot := "NaN";
                 isEven := false;
                 factorial := VUndefined |}.
Proof. split; reflexivity. Qed.

(** At [Infinity] the call neither throws nor returns: the loop of the
    factorial runs for ever. *)
Lemma performCalculations_Infinity_never_returns (fuel : nat) :
  performCalculations fuel (VNumber Infinity) = OutOfFuel.
Proof. apply never_returns_from_two_pow_53. reflexivity. Qed.

(** C1, as the code has it.  [performCalculations] throws, with the
    message [Invalid input: must be a number], exactly when its argument is
    not of type number or is NaN; the infinities are not rejected.  For
    every number below 2^53, negative numbers and [-Infinity] included, it
    returns: some amount of fuel is enough, and so is any larger one. *)
Theorem performCalculations_throws_iff_not_a_number (v : value) :
  (not_a_number v = true ->
   forall fuel,
     performCalculations fuel v = Throw "Invalid input: must be a number")
  /\ (not_a_number v = false ->
      forall fuel msg, performCalculations fuel v <> Throw msg)
  /\ (forall x, v = VNumber x -> ltb x (of_Z (2 ^ 53)) = true ->
      exists (fuel : nat) (r : calculations),
        forall fuel', (fuel <= fuel')%nat ->
          performCalculations fuel' v = Return r).
Proof.
  split; [intros H fuel; apply guard_throws; exact H|].
  split; [intros H fuel msg; apply guard_passes; exact H|].
  intros x -> Hx. apply returns_below_two_pow_53. exact Hx.
Qed.

Lemma performCalculations_throws_iff_not_a_number_witness :
  performCalculations 0 (VString "4")
  = Throw "Invalid input: must be a number"
  /\ performCalculations 0 (VNumber NaN)
     = Throw "Invalid input: must be a number"
  /\ (forall fuel msg,
        performCalculations fuel (VNumber neg_Infinity) <> Throw msg)
  /\ (exists (fuel : nat) (r : calculations),
        forall fuel', (fuel <= fuel')%nat ->
          performCalculations fuel' (VNumber (of_Z 7)) = Return r).
Proof.
  split; [apply (performCalculations_throws_iff_not_a_number (VString "4"));
          reflexivity|].
  split; [apply (performCalculations_throws_iff_not_a_number (VNumber NaN));
          reflexivity|].
  split; [apply (performCalculations_throws_iff_not_a_number
                   (VNumber neg_Infinity)); reflexivity|].
  apply (performCalculations_throws_iff_not_a_number (VNumber (of_Z 7))
           ) with (x := of_Z 7); reflexivity.
Defined.

(** ** getRandomColor *)

Lemma to_index_small (q : Z) :
  0 <= q <= 15 -> to_index (of_Z q) = Some (Z.to_nat q).
Proof.
  intros Hq. rewrite <- (Z2Nat.id q) at 1 by lia.
  assert (Hn : (Z.to_nat q <= 15)%nat) by lia.
  revert Hn. generalize (Z.to_nat q). intros n Hn.
  do 16 (destruct n as [|n]; [reflexivity|]). lia.
Qed.

Lemma compare_cont_Eq_Lt (p q : positive) :
  PosDef.Pos.compare_cont Eq p q = Lt -> Zpos p < Zpos q.
Proof. intros H. apply Pos2Z.pos_lt_pos. exact H. Qed.

Lemma below_one_shape (m : positive) (e : Z) :
  is_double (S754_finite false m e) = true ->
  ltb (S754_finite false m e) one = true ->
  -1074 <= e <= -53 /\ Zpos (digits2_pos m) <= 53.
Proof.
  unfold is_double, valid_binary, bounded, canonical_mantissa.
  intros Hb Hlt. apply andb_true_iff in Hb as [Hc _].
  apply Z.eqb_eq in Hc. unfold fexp, emin, prec, emax in Hc.
  revert Hlt. unfold ltb, SFltb.
  change one with (S754_finite false 4503599627370496 (-52)).
  cbn [SFcompare].
  destruct (Z.compare_spec e (-52)) as [He|He|He]; try discriminate.
  - destruct (PosDef.Pos.compare_cont Eq m 4503599627370496) eqn:Hm;
      try discriminate.
    intros _. exfalso. apply compare_cont_Eq_Lt in Hm.
    assert (Hd : Zpos (digits2_pos m) = 53) by lia.
    rewrite digits2_log2 in Hd.
    assert (2 ^ 52 <= Zpos m) by (apply Z.log2_le_pow2; lia).
    lia.
  - intros _. lia.
Qed.

Lemma random_digit (r : number) :
  unit_interval r ->
  to_index (floor (mul r (of_Z 16))) = Some (hex_index r)
  /\ (hex_index r < 16)%nat.
Proof.
  intros (Hd & Hge & Hlt).
  destruct r as [s|s| |s m e];
    [ | destruct s; discriminate Hlt || discriminate Hge
      | discriminate Hlt | ].
  - split; [reflexivity | simpl; lia].
  - destruct s; [discriminate Hge|].
    destruct (below_one_shape m e Hd Hlt) as [He Hdm].
    assert (Hm : Zpos m < 2 ^ 53).
    { apply Z.log2_lt_pow2; [lia|]. rewrite digits2_log2 in Hdm. lia. }
    set (sh := Z.max (Zpos (digits2_pos m) - 1) (-1026 - e)).
    assert (Hsh : 0 <= sh <= 52) by (unfold sh; lia).
    assert (HM : Zpos (m * 4503599627370496) = Zpos m * 2 ^ 52) by reflexivity.
    assert (HdM := digits2_shift m 52 _ ltac:(lia) HM).
    unfold mul, SFmul. change (of_Z 16) with (S754_finite false 4503599627370496 (-48)).
    cbn [xorb].
    rewrite (binary_round_aux_exact false _ _ sh).
    2:{ rewrite HdM. unfold fexp, emin, prec, emax, sh. lia. }
    2:{ lia. }
    2:{ rewrite HM. exists (Zpos m * 2 ^ (52 - sh)).
        rewrite <- Z.mul_assoc, <- Z.pow_add_r by lia. do 2 f_equal. lia. }
    2:{ unfold prec, emax, sh. lia. }
    assert (Hquot : Zpos (m * 4503599627370496) / 2 ^ sh = Zpos m * 2 ^ (52 - sh)).
    { rewrite HM. replace (2 ^ 52) with (2 ^ (52 - sh) * 2 ^ sh).
      2:{ rewrite <- Z.pow_add_r by lia. f_equal. lia. }
      rewrite Z.mul_assoc, Z.div_mul by (apply Z.pow_nonzero; lia). reflexivity. }
    rewrite Hquot.
    assert (Hp : 0 < 2 ^ (52 - sh)) by (apply Z.pow_pos_nonneg; lia).
    assert (Hp4 : 0 < 2 ^ (- e - 4)) by (apply Z.pow_pos_nonneg; lia).
    unfold floor.
    destruct (Z.leb_spec 0 (e + -48 + sh)) as [Hbad|_]; [unfold sh in Hbad; lia|].
    cbn [cond_Zopp]. rewrite Z2Pos.id by nia.
    replace (2 ^ (- (e + -48 + sh))) with (2 ^ (- e - 4) * 2 ^ (52 - sh)).
    2:{ rewrite <- Z.pow_add_r by lia. f_equal. lia. }
    rewrite Z.div_mul_cancel_r by lia.
    assert (Hq : 0 <= Zpos m / 2 ^ (- e - 4) <= 15).
    { split; [apply Z.div_pos; lia|].
      assert (Zpos m / 2 ^ (- e - 4) < 16); [|lia].
      apply Z.div_lt_upper_bound; [lia|].
      replace (2 ^ (- e - 4) * 16) with (2 ^ (- e))
        by (change 16 with (2 ^ 4); rewrite <- Z.pow_add_r by lia; f_equal; lia).
      assert (2 ^ 53 <= 2 ^ (- e)) by (apply Z.pow_le_mono_r; lia). lia. }
    assert (Hidx : hex_index (S754_finite false m e)
                   = Z.to_nat (Zpos m / 2 ^ (- e - 4))).
    { unfold hex_index. destruct (Z.leb_spec 0 e); [lia|].
      replace (2 ^ (- e)) with (2 ^ (- e - 4) * 16)
        by (change 16 with (2 ^ 4); rewrite <- Z.pow_add_r by lia; f_equal; lia).
      rewrite Z.div_mul_cancel_r by lia. reflexivity. }
    rewrite Hidx. split; [|lia].
    apply (to_index_small _ Hq).
Qed.

Lemma append_snoc (s t : string) (c : ascii) :
  (s +:+ String c "") +:+ t = s +:+ String c t.
Proof.
  induction s as [|a s IH]; [reflexivity|].
  change (String a ((s +:+ String c "") +:+ t) = String a (s +:+ String c t)).
  f_equal. exact IH.
Qed.

Lemma append_empty (s : string) : s +:+ "" = s.
Proof.
  induction s as [|a s IH]; [reflexivity|].
  change (String a (s +:+ "") = String a s). f_equal. exact IH.
Qed.

Lemma hex_letter_hex (k : nat) : (k < 16)%nat -> is_hex_digit (hex_letter k) = true.
Proof. intros Hk. do 16 (destruct k as [|k]; [reflexivity|]). lia. Qed.

Lemma letter_at_random (r : number) :
  unit_interval r ->
  letter_at (floor (mul r (of_Z 16))) = String (hex_letter (hex_index r)) "".
Proof.
  intros Hr. destruct (random_digit r Hr) as [Hidx Hlt].
  unfold letter_at. rewrite Hidx. unfold hex_letter.
  revert Hlt. generalize (hex_index r). intros k Hk.
  do 16 (destruct k as [|k]; [reflexivity|]). lia.
Qed.

Lemma color_loop_digits (rnd : random_source) :
  (forall i, unit_interval (rnd i)) ->
  forall (n pos : nat) (color : string),
    color_loop n rnd pos color
    = (color +:+ hex_digits n rnd pos, (pos + n)%nat).
Proof.
  intros Hrnd. induction n as [|n IH]; intros pos color; cbn [color_loop hex_digits].
  - rewrite append_empty. f_equal. lia.
  - rewrite IH, letter_at_random by apply Hrnd.
    rewrite append_snoc. f_equal. lia.
Qed.

Lemma hex_digits_all_hex (rnd : random_source) :
  (forall i, unit_interval (rnd i)) ->
  forall n pos,
    all_hex_digits (hex_digits n rnd pos) = true
    /\ String.length (hex_digits n rnd pos) = n.
Proof.
  intros Hrnd. induction n as [|n IH]; intros pos; [split; reflexivity|].
  cbn [hex_digits all_hex_digits String.length].
  destruct (IH (S pos)) as [Hall Hlen]. rewrite Hall, Hlen.
  destruct (random_digit _ (Hrnd pos)) as [_ Hlt].
  rewrite (hex_letter_hex _ Hlt). split; reflexivity.
Qed.



(** ** formatText *)




Lemma string_map_length (f : ascii -> ascii) (s : string) :
  String.length (string_map f s) = String.length s.
Proof. induction s as [|c s IH]; simpl; [reflexivity | now rewrite IH]. Qed.

Lemma replace_word_starts_length (text : string) :
  forall prev, String.length (replace_word_starts prev text) = String.length text.
Proof.
  induction text as [|c s IH]; intros prev; simpl; [reflexivity|].
  now rewrite IH.
Qed.




Lemma formatText_default (text : string) :
  formatText text VUndefined = formatText text (VString "capitalize").
Proof. reflexivity. Qed.



(** ** Class lists *)

Lemma element_eq (a b : element) :
  classList a = classList b -> style a = style b ->
  textContent a = textContent b -> a = b.
Proof. destruct a, b; simpl; intros; subst; reflexivity. Qed.

Lemma add_remove_absent (c : string) (el : element) :
  c ∉ classList el -> classList_remove c (classList_add c el) = el.
Proof.
  intros Hc. apply element_eq; simpl; trivial. set_solver.
Qed.

Lemma remove_add_present (c : string) (el : element) :
  c ∈ classList el -> classList_add c (classList_remove c el) = el.
Proof.
  intros Hc. apply element_eq; simpl; trivial.
  apply set_eq. intros x. destruct (decide (x = c)); set_solver.
Qed.

Lemma remove_remove (c : string) (el : element) :
  classList_remove c (classList_remove c el) = classList_remove c el.
Proof. apply element_eq; simpl; trivial. set_solver. Qed.

(** ** FlipCardManager *)

Section FlipCard.
Import FlipCardManager.

(** The class name ['flipped'] is a valid token: the call completes. *)
Lemma toggleClass_flipped (el : element) (b : bool) :
  toggleClass el "flipped" (VBoolean b)
  = (if b then classList_add "flipped" el else classList_remove "flipped" el,
     None).
Proof. destruct b; reflexivity. Qed.

Lemma flip_matches (m : t) : flag_matches_class (flip m).
Proof.
  unfold flag_matches_class, flip. rewrite toggleClass_flipped.
  destruct (isFlipped m); simpl.
  - split; [discriminate | set_solver].
  - split; [set_solver | reflexivity].
Qed.

Lemma reset_matches (m : t) : flag_matches_class (reset m).
Proof.
  unfold flag_matches_class, reset; simpl.
  split; [discriminate | set_solver].
Qed.

Lemma run_matches (m : t) (ops : list op) :
  flag_matches_class m -> flag_matches_class (run m ops).
Proof.
  revert m. induction ops as [|o ops IH]; intros m Hm; [exact Hm|].
  apply IH. destruct o; [apply flip_matches | apply reset_matches].
Qed.

Lemma flip_flip (m : t) : flag_matches_class m -> flip (flip m) = m.
Proof.
  destruct m as [el b]. unfold flag_matches_class, flip.
  rewrite !toggleClass_flipped. simpl.
  intros Hm. destruct b; simpl.
  - rewrite remove_add_present; [reflexivity | apply Hm; reflexivity].
  - rewrite add_remove_absent; [reflexivity|].
    intros Hin. apply Hm in Hin. discriminate.
Qed.

(** C10. Starting from a card without the class [flipped], after every
    sequence of [flip()] and [reset()] calls the flag [isFlipped] is true
    exactly when the card carries the class, and two more [flip()] calls
    in a row give back the same flag and the same card. *)
Theorem flip_card_flag_tracks_class (cardElement : element) (ops : list op) :
  "flipped" ∉ classList cardElement ->
  let m := run (constructor cardElement) ops in
  (isFlipped m = true <-> "flipped" ∈ classList (card m))
  /\ flip (flip m) = m.
Proof.
  intros Habsent m.
  assert (Hm : flag_matches_class m).
  { apply run_matches. split; simpl; [discriminate | intros; contradiction]. }
  split; [exact Hm | apply flip_flip; exact Hm].
Qed.

Lemma flip_card_flag_tracks_class_witness :
  let el := {| classList := {["card"]}; style := ∅; textContent := "" |} in
  let m := run (constructor el) [Flip; Reset; Flip] in
  (isFlipped m = true <-> "flipped" ∈ classList (card m))
  /\ flip (flip m) = m.
Proof.
  intros el.
  apply (flip_card_flag_tracks_class el [Flip; Reset; Flip]).
  simpl. set_solver.
Defined.

End FlipCard.

(** ** AnimationController *)

Lemma handle_set_size (h : option positive) : (size (handle_set h) <= 1)%nat.
Proof.
  destruct h as [h|]; unfold handle_set.
  - rewrite (size_singleton (C := gset positive)). lia.
  - rewrite (size_empty (C := gset positive)). lia.
Qed.

Section Animation.
Import AnimationController.

Lemma load_consistent (boxElement : element) :
  animation_consistent (load boxElement).
Proof.
  split; simpl.
  - apply dom_empty_L.
  - split; [discriminate | intros H; contradiction].
Qed.

Lemma startAnimation_consistent (p : page) :
  animation_consistent p -> animation_consistent (startAnimation p).
Proof.
  intros Hp. unfold startAnimation.
  destruct (isAnimating (this p)) eqn:Hb; [exact Hp|].
  destruct Hp as [Hdom Hflag].
  destruct (animationInterval (this p)) as [h|] eqn:Hh.
  { rewrite Hb in Hflag.
    assert (false = true) by (apply Hflag; discriminate). discriminate. }
  split; simpl.
  - rewrite dom_insert_L, Hdom. simpl. set_solver.
  - split; [discriminate | reflexivity].
Qed.

Lemma stopAnimation_consistent (p : page) :
  animation_consistent p -> animation_consistent (stopAnimation p).
Proof.
  destruct p as [[b i a] tm]. intros [Hdom Hflag].
  unfold stopAnimation. simpl in *.
  destruct i as [h|]; split; simpl in *.
  - rewrite dom_delete_L, Hdom. set_solver.
  - split; [discriminate | intros H; contradiction].
  - exact Hdom.
  - split; [discriminate | intros H; contradiction].
Qed.

Lemma resetAnimation_consistent (p : page) :
  animation_consistent p -> animation_consistent (resetAnimation p).
Proof.
  intros H. apply stopAnimation_consistent in H.
  destruct H as [Hdom Hflag]. split; assumption.
Qed.

Lemma tick_consistent (h : positive) (p : page) :
  animation_consistent p -> animation_consistent (tick h p).
Proof.
  intros Hp. unfold tick.
  destruct (live (timers p) !! h) as [rotation|] eqn:Hl; [|exact Hp].
  destruct Hp as [Hdom Hflag].
  split; simpl; [|exact Hflag].
  rewrite dom_insert_L, <- Hdom.
  assert (h ∈ dom (live (timers p))) by (apply elem_of_dom; eauto).
  set_solver.
Qed.

Lemma run_consistent (p : page) (ops : list op) :
  animation_consistent p -> animation_consistent (run p ops).
Proof.
  revert p. induction ops as [|o ops IH]; intros p Hp; [exact Hp|].
  apply IH. destruct o; simpl;
    auto using startAnimation_consistent, stopAnimation_consistent,
               resetAnimation_consistent, tick_consistent.
Qed.

Lemma startAnimation_active (p : page) :
  isAnimating (this p) = true -> startAnimation p = p.
Proof. intros H. unfold startAnimation. rewrite H. reflexivity. Qed.

Lemma stopAnimation_cleared (p : page) :
  animationInterval (this (stopAnimation p)) = None
  /\ isAnimating (this (stopAnimation p)) = false.
Proof.
  unfold stopAnimation. simpl.
  destruct (animationInterval (this p)) eqn:Hh; simpl; auto.
Qed.

Lemma stopAnimation_idempotent (p : page) :
  stopAnimation (stopAnimation p) = stopAnimation p.
Proof.
  destruct p as [[b i a] tm]. unfold stopAnimation.
  destruct i as [h|];
    unfold set_isAnimating, set_animationInterval, with_box, with_timers;
    cbn -[classList_remove]; rewrite remove_remove; reflexivity.
Qed.

Lemma stopAnimation_no_timer (p : page) :
  animation_consistent p -> live (timers (stopAnimation p)) = ∅.
Proof.
  intros H. apply stopAnimation_consistent in H. destruct H as [Hdom _].
  destruct (stopAnimation_cleared p) as [Hnone _].
  rewrite Hnone in Hdom. simpl in Hdom. apply dom_empty_iff_L. exact Hdom.
Qed.

(** C4. From every state of the controller, [resetAnimation()] gives the
    state that [stopAnimation()] followed by setting the transform to
    [rotate(0deg)] and the background to the default gradient gives:
    flag off, no handle, the interval cleared, the class [animate]
    removed and the two style properties set. *)
Theorem resetAnimation_is_stop_then_defaults (p : page) :
  resetAnimation p = reset_as_specified p
  /\ isAnimating (this (resetAnimation p)) = false
  /\ animationInterval (this (resetAnimation p)) = None
  /\ classList (box (this (resetAnimation p)))
     = classList (box (this p)) ∖ {["animate"]}
  /\ style (box (this (resetAnimation p)))
     = <["background" := "linear-gradient(45deg, #667eea, #764ba2)"]>
         (<["transform" := "rotate(0deg)"]> (style (box (this p))))
  /\ timers (resetAnimation p) = timers (stopAnimation p).
Proof.
  destruct p as [[b i a] tm].
  unfold resetAnimation, reset_as_specified, stopAnimation. simpl.
  destruct i as [h|]; simpl; repeat split; reflexivity.
Qed.

End Animation.

(** ** LoadingManager *)

Section Loading.
Import LoadingManager.

Ltac unfold_setters :=
  unfold set_isLoading, set_loadingInterval, with_loadingBar,
    with_statusElement, with_timers.

Lemma loading_load_consistent (loadingBar statusElement : element) :
  loading_consistent (load loadingBar statusElement).
Proof.
  split; simpl.
  - apply dom_empty_L.
  - split; [discriminate | intros H; contradiction].
Qed.

Lemma startLoading_consistent (p : page) :
  loading_consistent p -> loading_consistent (startLoading p).
Proof.
  intros Hp. unfold startLoading.
  destruct (isLoading (this p)) eqn:Hb; [exact Hp|].
  destruct Hp as [Hdom Hflag].
  destruct (loadingInterval (this p)) as [h|] eqn:Hh.
  { rewrite Hb in Hflag.
    assert (false = true) by (apply Hflag; discriminate). discriminate. }
  split; simpl.
  - rewrite dom_insert_L, Hdom. simpl. set_solver.
  - split; [discriminate | reflexivity].
Qed.

Lemma stopLoading_consistent (p : page) :
  loading_consistent p -> loading_consistent (stopLoading p).
Proof.
  destruct p as [[b s i a] tm]. intros [Hdom Hflag].
  unfold stopLoading. simpl in *.
  destruct i as [h|]; split; simpl in *.
  - rewrite dom_delete_L, Hdom. set_solver.
  - split; [discriminate | intros H; contradiction].
  - exact Hdom.
  - split; [discriminate | intros H; contradiction].
Qed.

Lemma finishLoading_consistent (p : page) :
  loading_consistent p -> loading_consistent (finishLoading p).
Proof.
  destruct p as [[b s i a] tm]. intros [Hdom Hflag].
  unfold finishLoading. simpl in *.
  destruct i as [h|]; split; simpl in *.
  - rewrite dom_delete_L, Hdom. set_solver.
  - split; [discriminate | intros H; contradiction].
  - exact Hdom.
  - split; [discriminate | intros H; contradiction].
Qed.

Lemma loading_tick_consistent (h : positive) (r : number) (p : page) :
  loading_consistent p -> loading_consistent (tick h r p).
Proof.
  intros Hp. unfold tick.
  destruct (live (timers p) !! h) as [progress|] eqn:Hl; [|exact Hp].
  assert (Hc : loading_consistent
                 (with_timers (capture h (add progress (mul r (of_Z 10)))) p)).
  { destruct Hp as [Hdom Hflag]. split; simpl; [|exact Hflag].
    rewrite dom_insert_L, <- Hdom.
    assert (h ∈ dom (live (timers p))) by (apply elem_of_dom; eauto).
    set_solver. }
  destruct (leb _ _); [apply finishLoading_consistent|]; exact Hc.
Qed.

Lemma loading_run_consistent (p : page) (ops : list op) :
  loading_consistent p -> loading_consistent (run p ops).
Proof.
  revert p. induction ops as [|o ops IH]; intros p Hp; [exact Hp|].
  apply IH. destruct o; simpl;
    auto using startLoading_consistent, stopLoading_consistent,
               finishLoading_consistent, loading_tick_consistent.
Qed.

Lemma startLoading_active (p : page) :
  isLoading (this p) = true -> startLoading p = p.
Proof. intros H. unfold startLoading. rewrite H. reflexivity. Qed.

Lemma stopLoading_cleared (p : page) :
  loadingInterval (this (stopLoading p)) = None
  /\ isLoading (this (stopLoading p)) = false
  /\ textContent (statusElement (this (stopLoading p))) = "Stopped".
Proof.
  unfold stopLoading. simpl.
  destruct (loadingInterval (this p)) eqn:Hh; simpl; auto.
Qed.

Lemma finishLoading_cleared (p : page) :
  loadingInterval (this (finishLoading p)) = None
  /\ isLoading (this (finishLoading p)) = false
  /\ textContent (statusElement (this (finishLoading p))) = "Complete!".
Proof.
  unfold finishLoading. simpl.
  destruct (loadingInterval (this p)) eqn:Hh; simpl; auto.
Qed.

Lemma stopLoading_idempotent (p : page) :
  stopLoading (stopLoading p) = stopLoading p.
Proof.
  destruct p as [[b s i a] tm]. unfold stopLoading.
  destruct i as [h|]; unfold_setters;
    cbn -[classList_remove]; rewrite remove_remove; reflexivity.
Qed.

Lemma finishLoading_idempotent (p : page) :
  finishLoading (finishLoading p) = finishLoading p.
Proof.
  destruct p as [[b s i a] tm]. unfold finishLoading.
  destruct i as [h|]; unfold_setters;
    cbn -[classList_remove]; rewrite remove_remove; reflexivity.
Qed.

Lemma stopLoading_no_timer (p : page) :
  loading_consistent p -> live (timers (stopLoading p)) = ∅.
Proof.
  intros H. apply stopLoading_consistent in H. destruct H as [Hdom _].
  destruct (stopLoading_cleared p) as [Hnone _].
  rewrite Hnone in Hdom. simpl in Hdom. apply dom_empty_iff_L. exact Hdom.
Qed.

Lemma finishLoading_no_timer (p : page) :
  loading_consistent p -> live (timers (finishLoading p)) = ∅.
Proof.
  intros H. apply finishLoading_consistent in H. destruct H as [Hdom _].
  destruct (finishLoading_cleared p) as [Hnone _].
  rewrite Hnone in Hdom. simpl in Hdom. apply dom_empty_iff_L. exact Hdom.
Qed.

End Loading.

(** C3. After every sequence of operations on a freshly built controller
    (start, stop, reset and interval ticks for the animation; start, stop,
    completion and interval ticks for the loader) the
    live intervals are exactly the handle the controller holds, so at most
    one; [start] on an active controller changes nothing; the stopping
    operations ([stopAnimation], [stopLoading], [finishLoading]) are
    idempotent and leave no handle and no live interval. *)
Theorem controllers_hold_at_most_one_timer
    (boxElement loadingBar statusElement : element)
    (aops : list AnimationController.op) (lops : list LoadingManager.op) :
  let a := AnimationController.run (AnimationController.load boxElement) aops in
  let l := LoadingManager.run (LoadingManager.load loadingBar statusElement) lops in
  (dom (live (AnimationController.timers a))
   = handle_set (AnimationController.animationInterval (AnimationController.this a))
   /\ (size (live (AnimationController.timers a)) <= 1)%nat
   /\ (AnimationController.isAnimating (AnimationController.this a) = true ->
       AnimationController.startAnimation a = a)
   /\ AnimationController.stopAnimation (AnimationController.stopAnimation a)
      = AnimationController.stopAnimation a
   /\ AnimationController.animationInterval
        (AnimationController.this (AnimationController.stopAnimation a)) = None
   /\ live (AnimationController.timers (AnimationController.stopAnimation a)) = ∅
   /\ live (AnimationController.timers (AnimationController.resetAnimation a)) = ∅)
  /\
  (dom (live (LoadingManager.timers l))
   = handle_set (LoadingManager.loadingInterval (LoadingManager.this l))
   /\ (size (live (LoadingManager.timers l)) <= 1)%nat
   /\ (LoadingManager.isLoading (LoadingManager.this l) = true ->
       LoadingManager.startLoading l = l)
   /\ LoadingManager.stopLoading (LoadingManager.stopLoading l)
      = LoadingManager.stopLoading l
   /\ LoadingManager.finishLoading (LoadingManager.finishLoading l)
      = LoadingManager.finishLoading l
   /\ LoadingManager.loadingInterval
        (LoadingManager.this (LoadingManager.stopLoading l)) = None
   /\ LoadingManager.loadingInterval
        (LoadingManager.this (LoadingManager.finishLoading l)) = None
   /\ live (LoadingManager.timers (LoadingManager.stopLoading l)) = ∅
   /\ live (LoadingManager.timers (LoadingManager.finishLoading l)) = ∅).
Proof.
  intros a l.
  assert (Ha : animation_consistent a)
    by (apply run_consistent, load_consistent).
  assert (Hl : loading_consistent l)
    by (apply loading_run_consistent, loading_load_consistent).
  split.
  - split; [apply Ha|].
    split; [rewrite <- size_dom, (proj1 Ha); apply handle_set_size|].
    split; [apply startAnimation_active|].
    split; [apply stopAnimation_idempotent|].
    split; [apply stopAnimation_cleared|].
    split; [apply stopAnimation_no_timer; exact Ha|].
    apply (stopAnimation_no_timer a Ha).
  - split; [apply Hl|].
    split; [rewrite <- size_dom, (proj1 Hl); apply handle_set_size|].
    split; [apply startLoading_active|].
    split; [apply stopLoading_idempotent|].
    split; [apply finishLoading_idempotent|].
    split; [apply stopLoading_cleared|].
    split; [apply finishLoading_cleared|].
    split; [apply stopLoading_no_timer | apply finishLoading_no_timer]; exact Hl.
Qed.

Lemma controllers_hold_at_most_one_timer_witness :
  let el := {| classList := ∅; style := ∅; textContent := "" |} in
  let a := AnimationController.run (AnimationController.load el)
             [AnimationController.Start; AnimationController.Tick 1;
              AnimationController.Start] in
  let l := LoadingManager.run (LoadingManager.load el el)
             [LoadingManager.Start] in
  AnimationController.startAnimation a = a
  /\ LoadingManager.startLoading l = l.
Proof.
  intros el a l.
  destruct (controllers_hold_at_most_one_timer el el el
              [AnimationController.Start; AnimationController.Tick 1;
               AnimationController.Start]
              [LoadingManager.Start]) as [(_ & _ & Ha & _) (_ & _ & Hl & _)].
  split; [apply Ha | apply Hl]; reflexivity.
Defined.

Section LoadingRun.
Import LoadingManager.

(** While the progress stays below 100 the ticks of the live interval
    only move the progress. *)
Lemma ticks_below (h : positive) (randoms : list number) :
  forall (p : page) (progress : number),
    live (timers p) = {[h := progress]} ->
    stays_below progress randoms = true ->
    run p (map (Tick h) randoms)
    = with_timers
        (fun tm => {| live := {[h := progress_after progress randoms]};
                      fresh := fresh tm |}) p.
Proof.
  induction randoms as [|r rs IH]; intros p progress Hlive Hbelow; simpl.
  - destruct p as [th [lv fr]]. simpl in *. subst lv. reflexivity.
  - simpl in Hbelow. apply andb_true_iff in Hbelow as [Hnow Hrest].
    apply negb_true_iff in Hnow.
    unfold tick at 1. rewrite Hlive, lookup_singleton_eq, Hnow.
    rewrite (IH _ (add progress (mul r (of_Z 10))));
      [reflexivity
      | simpl; rewrite Hlive; apply insert_singleton_eq
      | exact Hrest].
Qed.

(** C5. A manager at rest is started and the ticks of its interval draw
    [randoms] and then [r].  If the progress stays below 100 through
    [randoms], the manager is still loading with its interval live,
    and a stop there leaves it stopped, the handle and the interval
    cleared and the status text [Stopped]; if the tick of [r] brings the
    progress to 100 or more, that tick leaves it complete, the handle
    and the interval cleared and the status text [Complete!]. *)
Theorem loading_completes_at_crossing
    (p : page) (randoms : list number) (r : number) :
  loading_idle p ->
  stays_below zero randoms = true ->
  leb (of_Z 100) (add (progress_after zero randoms) (mul r (of_Z 10))) = true ->
  let h := fresh (timers p) in
  let before := run (startLoading p) (map (Tick h) randoms) in
  let after := tick h r before in
  let stopped := stopLoading before in
  (phase_of before = Loading
   /\ loadingInterval (this before) = Some h
   /\ live (timers before) = {[h := progress_after zero randoms]})
  /\ (phase_of after = Complete
      /\ loadingInterval (this after) = None
      /\ live (timers after) = ∅
      /\ textContent (statusElement (this after)) = "Complete!"
      /\ "loading" ∉ classList (loadingBar (this after)))
  /\ (phase_of stopped = Stopped
      /\ loadingInterval (this stopped) = None
      /\ live (timers stopped) = ∅
      /\ textContent (statusElement (this stopped)) = "Stopped"
      /\ "loading" ∉ classList (loadingBar (this stopped))).
Proof.
  intros (Hflag & Hnone & Hlive) Hbelow Hcross h before after stopped.
  assert (Hbefore :
    before = with_timers
               (fun tm => {| live := {[h := progress_after zero randoms]};
                             fresh := fresh tm |}) (startLoading p)).
  { apply ticks_below; [|exact Hbelow].
    unfold startLoading. rewrite Hflag. simpl. rewrite Hlive.
    apply insert_empty. }
  assert (Hstart : startLoading p
    = set_loadingInterval (Some h)
        (with_timers (fun _ => (setInterval zero (timers p)).2)
           (with_statusElement (set_textContent "Loading...")
              (with_loadingBar (classList_add "loading")
                 (set_isLoading true p))))).
  { unfold startLoading. rewrite Hflag. reflexivity. }
  subst after stopped. rewrite Hbefore, Hstart. clear Hbefore Hstart before.
  split; [repeat split; reflexivity|].
  split.
  - unfold tick. simpl. rewrite lookup_singleton_eq, Hcross.
    unfold finishLoading, phase_of. simpl.
    repeat split; try reflexivity.
    + rewrite insert_singleton_eq. apply delete_singleton_eq.
    + set_solver.
  - unfold stopLoading, phase_of. simpl.
    repeat split; try reflexivity.
    + apply delete_singleton_eq.
    + set_solver.
Qed.

End LoadingRun.

Lemma loading_completes_at_crossing_witness :
  let el := {| classList := ∅; style := ∅; textContent := "" |} in
  let half := S754_finite false 4503599627370496 (-53) in
  LoadingManager.phase_of
    (LoadingManager.tick 1 half
       (LoadingManager.run
          (LoadingManager.startLoading (LoadingManager.load el el))
          (map (LoadingManager.Tick 1) (replicate 19 half))))
  = LoadingManager.Complete.
Proof.
  intros el half.
  assert (Hidle : loading_idle (LoadingManager.load el el))
    by (repeat split; reflexivity).
  assert (Hbelow : stays_below zero (replicate 19 half) = true)
    by (vm_compute; reflexivity).
  assert (Hcross : leb (of_Z 100)
                     (add (progress_after zero (replicate 19 half))
                          (mul half (of_Z 10))) = true)
    by (vm_compute; reflexivity).
  destruct (loading_completes_at_crossing (LoadingManager.load el el)
              (replicate 19 half) half Hidle Hbelow Hcross)
    as (_ & (Hphase & _) & _).
  exact Hphase.
Defined.

(** ** debounce *)

Section DebounceBurst.
Import Debounce.
Context {A : Type}.
Variable wait : nat.

Lemma filter_own (h : positive) (x : nat * A) :
  filter (fun e : timeout_entry => e.1 ≠ h) [(h, x)] = [].
Proof.
  rewrite filter_cons. simpl. destruct (decide (h ≠ h)); [contradiction|].
  reflexivity.
Qed.

Lemma elapse_short (st : state) (args : A) (d : nat) :
  just_called wait st args -> (d < wait)%nat ->
  elapse d st
  = {| timeout := timeout st; pending := pending st;
       fresh_handle := fresh_handle st; now := (now st + d)%nat;
       calls := calls st |}.
Proof.
  intros (Hcalls & h & Hto & Hpend) Hd.
  unfold elapse. rewrite Hpend. simpl. rewrite Hpend. simpl.
  destruct (Nat.leb_spec (now st + wait) (now st + d)); [lia|].
  f_equal. lia.
Qed.

Lemma elapse_long (st : state) (args : A) (d : nat) :
  just_called wait st args -> (wait <= d)%nat ->
  calls (elapse d st) = [((now st + wait)%nat, args)]
  /\ pending (elapse d st) = [].
Proof.
  intros (Hcalls & h & Hto & Hpend) Hd.
  unfold elapse. rewrite Hpend. simpl. rewrite Hpend. simpl.
  destruct (Nat.leb_spec (now st + wait) (now st + d)); [|lia].
  simpl. rewrite filter_own, Hcalls, Hto. simpl.
  split; [|reflexivity].
  do 2 f_equal. lia.
Qed.

Lemma call_keeps_one_pending (st : state) (args : A) (c : nat * A) :
  just_called wait st args -> (c.1 < wait)%nat ->
  just_called wait (call_after wait st c) c.2.
Proof.
  intros Hst Hd. unfold call_after.
  rewrite (elapse_short st args c.1 Hst Hd).
  destruct Hst as (Hcalls & h & Hto & Hpend).
  split; [exact Hcalls|].
  exists (fresh_handle st). simpl. split; [reflexivity|].
  rewrite Hto, Hpend. simpl. rewrite filter_own. reflexivity.
Qed.

Lemma first_call (t : nat) (c : nat * A) :
  just_called wait (call_after wait (debounce t) c) c.2.
Proof.
  split; [reflexivity|]. exists 1%positive. split; [reflexivity|].
  reflexivity.
Qed.

Lemma default_last_cons (l : list (nat * A)) :
  forall x a b, default a (last (x :: l)) = default b (last (x :: l)).
Proof.
  induction l as [|y l IH]; intros x a b; [reflexivity|].
  rewrite !(last_cons_cons x). apply IH.
Qed.

Lemma burst_keeps_one_pending (cs : list (nat * A)) :
  forall (st : state) (c : nat * A),
    just_called wait st c.2 ->
    Forall (fun c => (c.1 < wait)%nat) cs ->
    just_called wait (burst wait st cs) (default c (last cs)).2.
Proof.
  induction cs as [|c' cs IH]; intros st c Hst Hgaps; [exact Hst|].
  apply Forall_cons in Hgaps as [Hgap Hgaps].
  simpl. specialize (IH (call_after wait st c') c').
  destruct cs as [|c'' cs].
  - simpl. eapply call_keeps_one_pending; eauto.
  - rewrite last_cons_cons, (default_last_cons cs c'' c c').
    apply IH; [|exact Hgaps].
    eapply call_keeps_one_pending; eauto.
Qed.

(** C6. The debounced function is called in a burst: a first call, then
    calls that each come less than [wait] after the one before.  Right
    after the burst [func] has not run and a single timeout is pending,
    that of the last call: every earlier one has been cancelled.  While
    less than [wait] has passed since the last call [func] still has not
    run; once [wait] or more has passed it has run exactly once, at
    [wait] after the last call, with the arguments of the last call, and
    nothing is pending. *)
Theorem debounce_runs_last_call_once
    (t0 : nat) (first : nat * A) (rest : list (nat * A)) :
  Forall (fun c => (c.1 < wait)%nat) rest ->
  let st := burst wait (debounce t0) (first :: rest) in
  let args := (default first (last rest)).2 in
  calls st = []
  /\ (exists h, pending st = [(h, ((now st + wait)%nat, args))])
  /\ (forall d, (d < wait)%nat ->
        calls (elapse d st) = []
        /\ length (pending (elapse d st)) = 1%nat)
  /\ (forall d, (wait <= d)%nat ->
        calls (elapse d st) = [((now st + wait)%nat, args)]
        /\ pending (elapse d st) = []).
Proof.
  intros Hgaps st args.
  assert (Hst : just_called wait st args).
  { apply (burst_keeps_one_pending rest _ first); [|exact Hgaps].
    apply first_call. }
  split; [apply Hst|].
  split; [destruct Hst as (_ & h & _ & Hp); eauto|].
  split.
  - intros d Hd. rewrite (elapse_short st args d Hst Hd). simpl.
    destruct Hst as (Hc & h & _ & Hp). rewrite Hp. auto.
  - intros d Hd. apply elapse_long; assumption.
Qed.

End DebounceBurst.

Lemma debounce_runs_last_call_once_witness :
  Debounce.calls
    (Debounce.elapse 100
       (Debounce.burst 100 (Debounce.debounce 0)
          [(0, "a"); (10, "b"); (10, "c"); (10, "d"); (10, "e")]%nat))
  = [(140%nat, "e")].
Proof.
  assert (Hgaps : Forall (fun c : nat * string => (c.1 < 100)%nat)
                    [(10, "b"); (10, "c"); (10, "d"); (10, "e")]%nat)
    by (repeat constructor; simpl; lia).
  destruct (debounce_runs_last_call_once 100 0 (0%nat, "a") _ Hgaps)
    as (_ & _ & _ & Hlong).
  destruct (Hlong 100%nat) as [Hcalls _]; [lia|].
  exact Hcalls.
Defined.

(** ** toggleClass *)

Lemma toggle_toggle (c : string) (el : element) :
  classList_toggle c (classList_toggle c el) = el.
Proof.
  apply element_eq; simpl; trivial.
  destruct (decide (c ∈ classList el)) as [Hin|Hout].
  - destruct (decide (c ∈ classList el ∖ {[c]})) as [Hbad|_]; [set_solver|].
    apply set_eq. intros x. destruct (decide (x = c)); set_solver.
  - destruct (decide (c ∈ {[c]} ∪ classList el)) as [_|Hbad]; set_solver.
Qed.

(** X1. [toggleClass(element, className, force)] with a class name that
    is empty or has ASCII white space throws, a [SyntaxError] or an
    [InvalidCharacterError], and leaves the element as it is.  With any
    other class name it completes, and after it the element carries the
    class exactly when [force] is [true], or [force] is no boolean and the
    class was absent; every other class, the style and the text are as
    before; and two calls without a boolean [force] give the element
    back. *)
Theorem toggleClass_sets_presence
    (el : element) (className : string) (force : value) :
  (token_error className
   = if String.eqb className "" then Some SyntaxError
     else if has_ascii_whitespace className then Some InvalidCharacterError
     else None)
  /\ (forall e, token_error className = Some e ->
        toggleClass el className force = (el, Some e))
  /\ (token_error className = None ->
      (toggleClass el className force).2 = None
      /\ (className ∈ classList (toggleClass el className force).1
          <-> match force with
              | VBoolean b => b = true
              | _ => className ∉ classList el
              end)
      /\ (forall c, c <> className ->
            (c ∈ classList (toggleClass el className force).1
             <-> c ∈ classList el))
      /\ style (toggleClass el className force).1 = style el
      /\ textContent (toggleClass el className force).1 = textContent el
      /\ (match force with VBoolean _ => False | _ => True end ->
          toggleClass (toggleClass el className force).1 className force
          = (el, None))).
Proof.
  split; [destruct className; reflexivity|].
  split.
  { intros e He. unfold toggleClass, classList_call. rewrite He.
    destruct force as [| |[|]| | | | | |]; reflexivity. }
  intros Hok.
  assert (Htoggle :
    (className ∈ classList (classList_toggle className el)
     <-> className ∉ classList el)
    /\ (forall c, c <> className ->
          (c ∈ classList (classList_toggle className el) <-> c ∈ classList el))).
  { simpl. destruct (decide (className ∈ classList el)); split; set_solver. }
  unfold toggleClass, classList_call. rewrite Hok.
  destruct force as [| |[|]| | | | | |]; cbn [fst snd]; rewrite ?Hok;
    try (split; [reflexivity|split; [apply Htoggle|split; [apply Htoggle|
           repeat split; trivial; intros _; cbn [fst];
           rewrite toggle_toggle; reflexivity]]]).
  - split; [reflexivity|]. simpl. split; [set_solver|]. split; [set_solver|].
    repeat split; contradiction.
  - split; [reflexivity|]. simpl.
    split; [split; [set_solver|discriminate]|].
    split; [set_solver|]. repeat split; contradiction.
Qed.

Lemma toggleClass_sets_presence_witness :
  let el := {| classList := {["card"]}; style := ∅; textContent := "" |} in
  token_error "flipped" = None
  /\ token_error "a b" = Some InvalidCharacterError
  /\ toggleClass el "a b" (VBoolean true) = (el, Some InvalidCharacterError)
  /\ ("card" ∈ classList (toggleClass el "flipped" VUndefined).1)
  /\ toggleClass (toggleClass el "flipped" VUndefined).1 "flipped" VUndefined
     = (el, None).
Proof.
  intros el.
  destruct (toggleClass_sets_presence el "a b" (VBoolean true))
    as (_ & Hthrows & _).
  destruct (toggleClass_sets_presence el "flipped" VUndefined)
    as (_ & _ & Hvalid).
  destruct (Hvalid eq_refl) as (_ & _ & Hother & _ & _ & Htwice).
  split; [reflexivity|]. split; [reflexivity|].
  split; [apply Hthrows; reflexivity|].
  split.
  - apply Hother; [discriminate | set_solver].
  - apply Htwice. exact I.
Defined.

(** ** The controllers and their elements *)

Lemma classes_with_add (c : string) (b : bool) (cs : gset string) :
  {[c]} ∪ classes_with c b cs = classes_with c true cs.
Proof. destruct b; unfold classes_with; set_solver. Qed.

Lemma classes_with_remove (c : string) (b : bool) (cs : gset string) :
  c ∉ cs -> classes_with c b cs ∖ {[c]} = classes_with c false cs.
Proof. intros Hc. destruct b; unfold classes_with; set_solver. Qed.

Section AnimationElements.
Import AnimationController.

Lemma step_box_follows (boxElement : element) (p : page) (o : op) :
  "animate" ∉ classList boxElement ->
  box_follows_flag boxElement p -> box_follows_flag boxElement (step p o).
Proof.
  unfold box_follows_flag. intros Hcs [Hp Ht].
  destruct p as [[b i a] tm]. simpl in Hp, Ht.
  destruct o as [| | |h]; simpl.
  - unfold startAnimation. simpl. destruct a; simpl; [split; assumption|].
    rewrite Hp. split; [apply classes_with_add | exact Ht].
  - unfold stopAnimation. simpl.
    destruct i; simpl; rewrite Hp;
      (split; [apply classes_with_remove; exact Hcs | exact Ht]).
  - unfold resetAnimation, stopAnimation. simpl.
    destruct i; simpl; rewrite Hp;
      (split; [apply classes_with_remove; exact Hcs | exact Ht]).
  - unfold tick. simpl. destruct (live tm !! h); simpl; split; assumption.
Qed.

Lemma run_box_follows (boxElement : element) (ops : list op) :
  forall p, "animate" ∉ classList boxElement ->
            box_follows_flag boxElement p ->
            box_follows_flag boxElement (run p ops).
Proof.
  induction ops as [|o ops IH]; intros p Hcs Hp; [exact Hp|].
  apply IH; [exact Hcs|]. apply step_box_follows; assumption.
Qed.

(** X2. On a box that does not carry [animate] when the controller is
    built, after every sequence of start, stop, reset and ticks the box
    carries [animate] exactly while [isAnimating] is set; its other
    classes and its text are never touched. *)
Theorem animate_class_follows_flag (boxElement : element) (ops : list op) :
  "animate" ∉ classList boxElement ->
  let p := run (load boxElement) ops in
  ("animate" ∈ classList (box (this p)) <-> isAnimating (this p) = true)
  /\ (forall c, c <> "animate" ->
        (c ∈ classList (box (this p)) <-> c ∈ classList boxElement))
  /\ textContent (box (this p)) = textContent boxElement.
Proof.
  intros Hcs p.
  destruct (run_box_follows boxElement ops (load boxElement) Hcs) as [Hc Ht].
  { split; reflexivity. }
  fold p in Hc, Ht. rewrite Hc. unfold classes_with.
  destruct (isAnimating (this p)).
  - split; [split; [reflexivity | set_solver]|]. split; [set_solver | exact Ht].
  - split; [split; [contradiction | discriminate]|]. split; [tauto | exact Ht].
Qed.

Lemma animate_class_follows_flag_witness :
  let el := {| classList := {["box"]}; style := ∅; textContent := "" |} in
  let p := run (load el) [Start; Tick 1; Stop; Start] in
  "animate" ∈ classList (box (this p)) <-> isAnimating (this p) = true.
Proof.
  intros el.
  apply (animate_class_follows_flag el [Start; Tick 1; Stop; Start]).
  simpl. set_solver.
Defined.

End AnimationElements.

Section LoaderElements.
Import LoadingManager.

Lemma stopLoading_follows (bar status : element) (p : page) :
  "loading" ∉ classList bar ->
  loader_follows_flag bar status p ->
  loader_follows_flag bar status (stopLoading p).
Proof.
  unfold loader_follows_flag. intros Hcs (Hc & Hs & Ht & Hsc & Hss & Htx).
  destruct p as [[b s i a] tm]. unfold stopLoading. simpl in *.
  destruct i; simpl; rewrite Hc;
    (split; [apply classes_with_remove; exact Hcs|]);
    repeat (split; [assumption|]); tauto.
Qed.

Lemma finishLoading_follows (bar status : element) (p : page) :
  "loading" ∉ classList bar ->
  loader_follows_flag bar status p ->
  loader_follows_flag bar status (finishLoading p).
Proof.
  unfold loader_follows_flag. intros Hcs (Hc & Hs & Ht & Hsc & Hss & Htx).
  destruct p as [[b s i a] tm]. unfold finishLoading. simpl in *.
  destruct i; simpl; rewrite Hc;
    (split; [apply classes_with_remove; exact Hcs|]);
    repeat (split; [assumption|]); tauto.
Qed.

Lemma step_loader_follows (bar status : element) (p : page) (o : op) :
  "loading" ∉ classList bar ->
  loader_follows_flag bar status p -> loader_follows_flag bar status (step p o).
Proof.
  intros Hcs Hp. destruct o as [| | |h r]; simpl.
  - unfold startLoading. destruct (isLoading (this p)) eqn:Ha; [exact Hp|].
    destruct Hp as (Hc & Hs & Ht & Hsc & Hss & Htx).
    unfold loader_follows_flag. simpl. rewrite Hc.
    split; [apply classes_with_add|]. repeat (split; [assumption|]). reflexivity.
  - apply stopLoading_follows; assumption.
  - apply finishLoading_follows; assumption.
  - unfold tick. destruct (live (timers p) !! h) as [progress|]; [|exact Hp].
    assert (Hq : loader_follows_flag bar status
                   (with_timers (capture h (add progress (mul r (of_Z 10)))) p))
      by exact Hp.
    destruct (leb _ _); [|exact Hq].
    apply finishLoading_follows; assumption.
Qed.

Lemma run_loader_follows (bar status : element) (ops : list op) :
  forall p, "loading" ∉ classList bar ->
            loader_follows_flag bar status p ->
            loader_follows_flag bar status (run p ops).
Proof.
  induction ops as [|o ops IH]; intros p Hcs Hp; [exact Hp|].
  apply IH; [exact Hcs|]. apply step_loader_follows; assumption.
Qed.

(** X3. On a bar that does not carry [loading] when the manager is built,
    after every sequence of start, stop, completion and ticks the bar
    carries [loading] exactly while [isLoading] is set and the status text
    is [Loading...] while it is set; the manager never touches another
    class, nor a style, nor the text of the bar, and the only status texts
    it writes are [Loading...], [Stopped] and [Complete!]. *)
Theorem loading_class_follows_flag (bar status : element) (ops : list op) :
  "loading" ∉ classList bar ->
  let p := run (load bar status) ops in
  ("loading" ∈ classList (loadingBar (this p)) <-> isLoading (this p) = true)
  /\ (isLoading (this p) = true ->
      textContent (statusElement (this p)) = "Loading...")
  /\ (forall c, c <> "loading" ->
        (c ∈ classList (loadingBar (this p)) <-> c ∈ classList bar))
  /\ style (loadingBar (this p)) = style bar
  /\ textContent (loadingBar (this p)) = textContent bar
  /\ classList (statusElement (this p)) = classList status
  /\ style (statusElement (this p)) = style status
  /\ (textContent (statusElement (this p)) = textContent status
      \/ textContent (statusElement (this p)) = "Loading..."
      \/ textContent (statusElement (this p)) = "Stopped"
      \/ textContent (statusElement (this p)) = "Complete!").
Proof.
  intros Hcs p.
  destruct (run_loader_follows bar status ops (load bar status) Hcs)
    as (Hc & Hs & Ht & Hsc & Hss & Htx).
  { unfold loader_follows_flag. simpl. repeat split; auto. }
  fold p in Hc, Hs, Ht, Hsc, Hss, Htx. rewrite Hc. unfold classes_with.
  destruct (isLoading (this p)).
  - split; [split; [reflexivity | set_solver]|]. split; [intros _; exact Htx|].
    split; [set_solver|]. repeat (split; [assumption|]). tauto.
  - split; [split; [contradiction | discriminate]|]. split; [discriminate|].
    split; [tauto|]. repeat (split; [assumption|]). tauto.
Qed.

Lemma loading_class_follows_flag_witness :
  let el := {| classList := {["bar"]}; style := ∅; textContent := "" |} in
  let p := run (load el el) [Start; Stop; Start] in
  textContent (statusElement (this p)) = "Loading...".
Proof.
  intros el.
  destruct (loading_class_follows_flag el el [Start; Stop; Start])
    as (_ & Htext & _).
  - simpl. set_solver.
  - apply Htext. reflexivity.
Defined.

End LoaderElements.

(** X4. A controller that is not active ignores every tick: after any
    sequence of operations, if the flag is off no interval is live, and a
    callback of whatever handle leaves the page as it is. *)
Theorem inactive_controllers_ignore_ticks
    (boxElement loadingBar statusElement : element)
    (aops : list AnimationController.op) (lops : list LoadingManager.op)
    (h : positive) (random : number) :
  let a := AnimationController.run (AnimationController.load boxElement) aops in
  let l := LoadingManager.run (LoadingManager.load loadingBar statusElement) lops in
  (AnimationController.isAnimating (AnimationController.this a) = false ->
   live (AnimationController.timers a) = ∅ /\ AnimationController.tick h a = a)
  /\ (LoadingManager.isLoading (LoadingManager.this l) = false ->
      live (LoadingManager.timers l) = ∅ /\ LoadingManager.tick h random l = l).
Proof.
  intros a l.
  assert (Ha : animation_consistent a)
    by (apply run_consistent, load_consistent).
  assert (Hl : loading_consistent l)
    by (apply loading_run_consistent, loading_load_consistent).
  split.
  - intros Hoff. destruct Ha as [Hdom Hflag].
    destruct (AnimationController.animationInterval (AnimationController.this a))
      as [h'|] eqn:Hh.
    { rewrite Hoff in Hflag.
      assert (false = true) by (apply Hflag; discriminate). discriminate. }
    apply dom_empty_iff_L in Hdom. split; [exact Hdom|].
    unfold AnimationController.tick. rewrite Hdom, lookup_empty. reflexivity.
  - intros Hoff. destruct Hl as [Hdom Hflag].
    destruct (LoadingManager.loadingInterval (LoadingManager.this l))
      as [h'|] eqn:Hh.
    { rewrite Hoff in Hflag.
      assert (false = true) by (apply Hflag; discriminate). discriminate. }
    apply dom_empty_iff_L in Hdom. split; [exact Hdom|].
    unfold LoadingManager.tick. rewrite Hdom, lookup_empty. reflexivity.
Qed.

Lemma inactive_controllers_ignore_ticks_witness :
  let el := {| classList := ∅; style := ∅; textContent := "" |} in
  let a := AnimationController.run (AnimationController.load el)
             [AnimationController.Start; AnimationController.Reset] in
  let l := LoadingManager.run (LoadingManager.load el el)
             [LoadingManager.Start; LoadingManager.Stop] in
  AnimationController.tick 1 a = a /\ LoadingManager.tick 1 zero l = l.
Proof.
  intros el a l.
  destruct (inactive_controllers_ignore_ticks el el el
              [AnimationController.Start; AnimationController.Reset]
              [LoadingManager.Start; LoadingManager.Stop] 1%positive zero)
    as [Ha Hl].
  split; [apply Ha | apply Hl]; reflexivity.
Defined.

Section Rotation.
Import AnimationController.

Lemma ticks_rotate (h : positive) (k : nat) :
  forall (p : page) (rotation : Z),
    live (timers p) = {[h := rotation]} ->
    let q := run p (replicate (S k) (Tick h)) in
    isAnimating (this q) = isAnimating (this p)
    /\ animationInterval (this q) = animationInterval (this p)
    /\ classList (box (this q)) = classList (box (this p))
    /\ live (timers q) = {[h := (rotation + 2 * Z.of_nat (S k)) mod 360]}
    /\ style (box (this q)) !! "transform"
       = Some ("rotate("
               +:+ digits_of ((rotation + 2 * Z.of_nat (S k)) mod 360)
               +:+ "deg)").
Proof.
  induction k as [|k IH]; intros p rotation Hlive; cbv zeta.
  - cbn [replicate run foldl step]. unfold tick.
    rewrite Hlive, lookup_singleton_eq. simpl.
    rewrite Hlive, insert_singleton_eq, lookup_insert_eq.
    replace (rotation + 2 * 1) with (rotation + 2) by lia.
    repeat split; reflexivity.
  - change (run p (replicate (S (S k)) (Tick h)))
      with (run (tick h p) (replicate (S k) (Tick h))).
    assert (Hp1 : tick h p
                  = with_box (set_style "transform"
                      ("rotate(" +:+ digits_of ((rotation + 2) mod 360) +:+ "deg)"))
                      (with_timers (capture h ((rotation + 2) mod 360)) p)).
    { unfold tick. rewrite Hlive, lookup_singleton_eq. reflexivity. }
    destruct (IH (tick h p) ((rotation + 2) mod 360)) as (Ha & Hi & Hc & Hl & Ht).
    { rewrite Hp1. simpl. rewrite Hlive. apply insert_singleton_eq. }
    cbv zeta in Ha, Hi, Hc, Hl, Ht.
    replace (((rotation + 2) mod 360 + 2 * Z.of_nat (S k)) mod 360)
      with ((rotation + 2 * Z.of_nat (S (S k))) mod 360) in Hl, Ht.
    2:{ rewrite Zplus_mod_idemp_l. f_equal. lia. }
    rewrite Ha, Hi, Hc, Hl, Ht, Hp1. repeat split; reflexivity.
Qed.

(** X5. A controller at rest is started and its interval ticks [k] times,
    [k >= 1].  It is still animating with the same single interval, whose
    rotation is [2k mod 360], and the transform of the box is
    [rotate(<2k mod 360>deg)]: two degrees a tick, a full turn every 180
    ticks. *)
Theorem rotation_after_ticks (p : page) (k : nat) :
  animation_idle p -> (1 <= k)%nat ->
  let h := fresh (timers p) in
  let q := run (startAnimation p) (replicate k (Tick h)) in
  isAnimating (this q) = true
  /\ animationInterval (this q) = Some h
  /\ live (timers q) = {[h := (2 * Z.of_nat k) mod 360]}
  /\ style (box (this q)) !! "transform"
     = Some ("rotate(" +:+ digits_of ((2 * Z.of_nat k) mod 360) +:+ "deg)").
Proof.
  intros (Hflag & Hnone & Hlive) Hk h q.
  destruct k as [|k]; [lia|].
  destruct (ticks_rotate h k (startAnimation p) 0) as (Ha & Hi & _ & Hl & Ht).
  { unfold startAnimation. rewrite Hflag. simpl. rewrite Hlive.
    apply insert_empty. }
  cbv zeta in Ha, Hi, Hl, Ht. subst q. fold h.
  rewrite Ha, Hi, Hl, Ht. unfold startAnimation. rewrite Hflag.
  repeat split; reflexivity.
Qed.

Lemma rotation_after_ticks_witness :
  let el := {| classList := ∅; style := ∅; textContent := "" |} in
  let q := run (startAnimation (load el)) (replicate 181 (Tick 1)) in
  style (box (this q)) !! "transform" = Some "rotate(2deg)".
Proof.
  intros el.
  destruct (rotation_after_ticks (load el) 181) as (_ & _ & _ & Ht).
  - repeat split; reflexivity.
  - lia.
  - exact Ht.
Defined.

End Rotation.

(** ** formatText, applied again *)

Lemma char_upper_upper (c : ascii) :
  char_toUpperCase (char_toUpperCase c) = char_toUpperCase c.
Proof. destruct c as [[] [] [] [] [] [] [] []]; reflexivity. Qed.

Lemma char_lower_lower (c : ascii) :
  char_toLowerCase (char_toLowerCase c) = char_toLowerCase c.
Proof. destruct c as [[] [] [] [] [] [] [] []]; reflexivity. Qed.

Lemma char_upper_lower (c : ascii) :
  char_toUpperCase (char_toLowerCase c) = char_toUpperCase c.
Proof. destruct c as [[] [] [] [] [] [] [] []]; reflexivity. Qed.

Lemma char_lower_upper (c : ascii) :
  char_toLowerCase (char_toUpperCase c) = char_toLowerCase c.
Proof. destruct c as [[] [] [] [] [] [] [] []]; reflexivity. Qed.

Lemma is_word_char_upper (c : ascii) :
  is_word_char (char_toUpperCase c) = is_word_char c.
Proof. destruct c as [[] [] [] [] [] [] [] []]; reflexivity. Qed.

Lemma string_map_map (f g : ascii -> ascii) (s : string) :
  string_map f (string_map g s) = string_map (fun c => f (g c)) s.
Proof. induction s as [|c s IH]; simpl; [reflexivity | now rewrite IH]. Qed.

Lemma string_map_ext (f g : ascii -> ascii) (s : string) :
  (forall c, f c = g c) -> string_map f s = string_map g s.
Proof.
  intros Hfg. induction s as [|c s IH]; simpl; [reflexivity|].
  now rewrite IH, Hfg.
Qed.

Lemma replace_word_starts_again (text : string) :
  forall prev,
    replace_word_starts prev (replace_word_starts prev text)
    = replace_word_starts prev text.
Proof.
  induction text as [|c s IH]; intros prev; [reflexivity|].
  cbn [replace_word_starts].
  destruct (is_word_char c && negb prev) eqn:Hstart.
  - rewrite is_word_char_upper, Hstart, char_upper_upper, IH. reflexivity.
  - rewrite Hstart, IH. reflexivity.
Qed.

Lemma upper_of_replace_word_starts (text : string) :
  forall prev,
    toUpperCase (replace_word_starts prev text) = toUpperCase text.
Proof.
  induction text as [|c s IH]; intros prev; [reflexivity|].
  cbn [replace_word_starts]. unfold toUpperCase in *. cbn [string_map].
  rewrite IH. destruct (is_word_char c && negb prev);
    [rewrite char_upper_upper|]; reflexivity.
Qed.

Lemma lower_of_replace_word_starts (text : string) :
  forall prev,
    toLowerCase (replace_word_starts prev text) = toLowerCase text.
Proof.
  induction text as [|c s IH]; intros prev; [reflexivity|].
  cbn [replace_word_starts]. unfold toLowerCase in *. cbn [string_map].
  rewrite IH. destruct (is_word_char c && negb prev);
    [rewrite char_lower_upper|]; reflexivity.
Qed.

Lemma formatText_shape (text : string) (style : value) :
  formatText text style = toUpperCase text
  \/ formatText text style = toLowerCase text
  \/ formatText text style = replace_word_starts false text
  \/ formatText text style = text.
Proof.
  unfold formatText.
  destruct style as [| |b|x|z|s| | |]; auto.
  destruct (String.eqb s "upper"); [auto|].
  destruct (String.eqb s "lower"); [auto|].
  destruct (String.eqb s "capitalize"); auto.
Qed.

(** X6. On an ASCII text, formatting twice with the same style gives what
    formatting once gives, whatever the style value; and ['upper'] or
    ['lower'] applied after any style gives what it gives on the text
    itself: the styles change the case of characters and nothing else. *)
Theorem formatText_twice (text : string) (style other : value) :
  ascii_text text = true ->
  formatText (formatText text style) style = formatText text style
  /\ formatText (formatText text other) (VString "upper")
     = formatText text (VString "upper")
  /\ formatText (formatText text other) (VString "lower")
     = formatText text (VString "lower").
Proof.
  intros _.
  assert (Hup : forall t, formatText t (VString "upper") = toUpperCase t)
    by reflexivity.
  assert (Hlow : forall t, formatText t (VString "lower") = toLowerCase t)
    by reflexivity.
  split; [|split].
  - unfold formatText.
    destruct style as [| |b|x|z|s| | |]; try reflexivity;
      [apply replace_word_starts_again|].
    destruct (String.eqb s "upper").
    { unfold toUpperCase. rewrite string_map_map.
      apply string_map_ext, char_upper_upper. }
    destruct (String.eqb s "lower").
    { unfold toLowerCase. rewrite string_map_map.
      apply string_map_ext, char_lower_lower. }
    destruct (String.eqb s "capitalize");
      [apply replace_word_starts_again | reflexivity].
  - rewrite !Hup.
    destruct (formatText_shape text other) as [H|[H|[H|H]]]; rewrite H.
    + unfold toUpperCase. rewrite string_map_map.
      apply string_map_ext, char_upper_upper.
    + unfold toUpperCase, toLowerCase. rewrite string_map_map.
      apply string_map_ext, char_upper_lower.
    + apply upper_of_replace_word_starts.
    + reflexivity.
  - rewrite !Hlow.
    destruct (formatText_shape text other) as [H|[H|[H|H]]]; rewrite H.
    + unfold toUpperCase, toLowerCase. rewrite string_map_map.
      apply string_map_ext, char_lower_upper.
    + unfold toLowerCase. rewrite string_map_map.
      apply string_map_ext, char_lower_lower.
    + apply lower_of_replace_word_starts.
    + reflexivity.
Qed.

Lemma formatText_twice_witness :
  ascii_text "hello World" = true
  /\ formatText (formatText "hello World" VUndefined) VUndefined
     = formatText "hello World" VUndefined
  /\ formatText (formatText "hello World" (VString "upper")) (VString "lower")
     = formatText "hello World" (VString "lower").
Proof.
  destruct (formatText_twice "hello World" VUndefined (VString "upper")
              eq_refl) as (Hsame & _ & Hlower).
  split; [reflexivity|]. split; [exact Hsame | exact Hlower].
Defined.

(** ** getRandomColor and the colour button *)

Lemma color_loop_reads_its_values (rnd rnd' : random_source) (n : nat) :
  forall (pos : nat) (color : string),
    (forall i, (i < n)%nat -> rnd (pos + i)%nat = rnd' (pos + i)%nat) ->
    color_loop n rnd pos color = color_loop n rnd' pos color.
Proof.
  induction n as [|n IH]; intros pos color Hsame; [reflexivity|].
  cbn [color_loop].
  assert (H0 : rnd pos = rnd' pos).
  { specialize (Hsame 0%nat). rewrite Nat.add_0_r in Hsame. apply Hsame. lia. }
  rewrite H0. apply IH. intros i Hi.
  replace (S pos + i)%nat with (pos + S i)%nat by lia. apply Hsame. lia.
Qed.

Lemma color_loop_extends (rnd : random_source) (n : nat) :
  forall (pos : nat) (color : string),
    exists drawn,
      color_loop n rnd pos color = (color +:+ drawn, (pos + n)%nat).
Proof.
  induction n as [|n IH]; intros pos color; cbn [color_loop].
  - exists "". rewrite append_empty. f_equal. lia.
  - destruct (IH (S pos)
                (color +:+ letter_at (floor (mul (rnd pos) (of_Z 16)))))
      as [drawn Hd].
    exists (letter_at (floor (mul (rnd pos) (of_Z 16))) +:+ drawn).
    rewrite Hd. f_equal; [|lia].
    clear. induction color as [|a s IHs]; [reflexivity|].
    change (String a ((s +:+ letter_at (floor (mul (rnd pos) (of_Z 16))))
                      +:+ drawn)
            = String a (s +:+ letter_at (floor (mul (rnd pos) (of_Z 16)))
                          +:+ drawn)).
    f_equal. exact IHs.
Qed.

(** X7. Whatever the random source gives, in range or not,
    [getRandomColor()] reads exactly six of its values and returns a text
    that starts with [#]; and the text depends on these six values only:
    two sources that agree on them give the same colour. *)
Theorem getRandomColor_reads_six (rnd rnd' : random_source) (pos : nat) :
  (getRandomColor rnd pos).2 = (pos + 6)%nat
  /\ (exists drawn, (getRandomColor rnd pos).1 = String "#"%char drawn)
  /\ ((forall i, (i < 6)%nat -> rnd (pos + i)%nat = rnd' (pos + i)%nat) ->
      getRandomColor rnd pos = getRandomColor rnd' pos).
Proof.
  unfold getRandomColor.
  destruct (color_loop_extends rnd 6 pos "#") as [drawn Hd].
  rewrite Hd. split; [reflexivity|]. split; [exists drawn; reflexivity|].
  intros Hsame. rewrite <- Hd. apply color_loop_reads_its_values. exact Hsame.
Qed.

Lemma getRandomColor_reads_six_witness :
  getRandomColor (fun i => if (i <? 6)%nat then zero else NaN) 0
  = getRandomColor (fun _ => zero) 0.
Proof.
  apply (getRandomColor_reads_six
           (fun i => if (i <? 6)%nat then zero else NaN) (fun _ => zero) 0%nat).
  intros i Hi. simpl. destruct (Nat.ltb_spec i 6); [reflexivity | lia].
Defined.

(** X8. With random values in [0, 1), a click on the colour button reads
    twelve of them and sets the background of the body to a gradient of two
    colours, the first made of the first six values and the second of the
    next six; classes and text of the body are as before. *)
Theorem randomColor_click_draws_two_colours
    (rnd : random_source) (pos : nat) (body : element) :
  (forall i, unit_interval (rnd i)) ->
  let '(body', pos') := randomColor_click rnd pos body in
  pos' = (pos + 12)%nat
  /\ style body' !! "background"
     = Some ("linear-gradient(135deg, #" +:+ hex_digits 6 rnd pos
             +:+ " 0%, #" +:+ hex_digits 6 rnd (pos + 6) +:+ " 100%)")
  /\ is_color ("#" +:+ hex_digits 6 rnd pos) = true
  /\ is_color ("#" +:+ hex_digits 6 rnd (pos + 6)) = true
  /\ classList body' = classList body
  /\ textContent body' = textContent body.
Proof.
  intros Hrnd. unfold randomColor_click, getRandomColor.
  rewrite !(color_loop_digits rnd Hrnd).
  destruct (hex_digits_all_hex rnd Hrnd 6 pos) as [Hall1 Hlen1].
  destruct (hex_digits_all_hex rnd Hrnd 6 (pos + 6)) as [Hall2 Hlen2].
  split; [lia|]. split.
  - unfold assign_style. cbn [String.append String.eqb Ascii.eqb Bool.eqb].
    simpl. apply lookup_insert_eq.
  - change ("#" +:+ hex_digits 6 rnd pos)
      with (String "#"%char (hex_digits 6 rnd pos)).
    change ("#" +:+ hex_digits 6 rnd (pos + 6))
      with (String "#"%char (hex_digits 6 rnd (pos + 6))).
    unfold is_color. rewrite Hall1, Hlen1, Hall2, Hlen2.
    repeat split; reflexivity.
Qed.

Lemma randomColor_click_draws_two_colours_witness :
  let body := {| classList := ∅; style := ∅; textContent := "" |} in
  let half := S754_finite false 4503599627370496 (-53) in
  style (randomColor_click (fun _ => half) 0 body).1 !! "background"
  = Some "linear-gradient(135deg, #888888 0%, #888888 100%)".
Proof.
  intros body half.
  assert (Hrnd : forall i : nat, unit_interval ((fun _ => half) i))
    by (intros i; repeat split; reflexivity).
  pose proof (randomColor_click_draws_two_colours (fun _ => half) 0%nat body Hrnd)
    as H.
  destruct (randomColor_click (fun _ => half) 0 body) as [body' pos'].
  destruct H as (_ & Hbg & _). exact Hbg.
Defined.

(** ** debounce, call by call *)

Section DebounceCalls.
Import Debounce.
Context {A : Type}.
Variable wait : nat.

Lemma filter_handle {B : Type} (h : positive) (x : B) :
  filter (fun e : positive * B => e.1 ≠ h) [(h, x)] = [].
Proof.
  rewrite filter_cons. simpl. destruct (decide (h ≠ h)); [contradiction|].
  reflexivity.
Qed.







End DebounceCalls.


(** ** throttle *)

Section ThrottleCalls.
Import Throttle.
Context {A : Type}.
Variable limit : nat.

Lemma call_after_step (st : state (A := A)) (free_at : option nat)
    (g : nat) (a : A) :
  holds_free st free_at ->
  let t := (now st + g)%nat in
  let st' := call_after limit st (g, a) in
  calls st' = calls st ++ (if free_now free_at t then [(t, a)] else [])
  /\ now st' = t
  /\ holds_free st'
       (if free_now free_at t then Some (t + limit)%nat else free_at).
Proof.
  intros Hst. cbv zeta. unfold call_after, elapse. cbn [fst snd].
  destruct free_at as [f|]; simpl in Hst.
  - destruct Hst as (Hflag & Hnow & h & Hpend).
    rewrite Hpend. simpl. rewrite Hpend. simpl.
    destruct (Nat.leb_spec f (now st + g)) as [Hdue|Hdue].
    + rewrite filter_handle. simpl.
      split; [do 3 f_equal; lia|]. split; [lia|].
      split; [reflexivity|]. split; [lia|].
      eexists. do 2 f_equal. lia.
    + unfold throttled. simpl. rewrite Hflag. simpl. rewrite app_nil_r.
      split; [reflexivity|]. split; [lia|].
      split; [reflexivity|]. split; [lia|]. exists h. reflexivity.
  - destruct Hst as (Hflag & Hpend).
    rewrite Hpend. simpl. unfold throttled. simpl. rewrite Hflag. simpl.
    rewrite Hpend.
    split; [do 3 f_equal; lia|]. split; [lia|].
    split; [reflexivity|]. split; [lia|].
    eexists. simpl. do 2 f_equal. lia.
Qed.

Lemma run_calls (events : list (nat * A)) :
  forall (st : state) (free_at : option nat),
    holds_free st free_at ->
    calls (run limit st events)
    = calls st ++ throttled_calls limit free_at (now st) events.
Proof.
  induction events as [|[g a] rest IH]; intros st free_at Hst.
  - cbn [run foldl throttled_calls]. rewrite app_nil_r. reflexivity.
  - change (run limit st ((g, a) :: rest))
      with (run limit (call_after limit st (g, a)) rest).
    destruct (call_after_step st free_at g a Hst) as (Hc & Hn & Hfree).
    rewrite (IH _ _ Hfree), Hc, Hn. cbn [throttled_calls].
    destruct (free_now free_at (now st + g)).
    + rewrite <- app_assoc. reflexivity.
    + rewrite app_nil_r. reflexivity.
Qed.


Lemma throttled_calls_spaced (events : list (nat * A)) :
  forall (free_at : option nat) (t from : nat),
    (match free_at with Some f => from <= f | None => from <= t end)%nat ->
    spaced limit from (throttled_calls limit free_at t events).
Proof.
  induction events as [|[g a] rest IH]; intros free_at t from Hfrom;
    [exact I|].
  cbn [throttled_calls].
  destruct free_at as [f|]; unfold free_now.
  - destruct (Nat.leb_spec f (t + g)) as [Hdue|Hdue].
    + cbn. split; [lia|]. apply IH. lia.
    + apply IH. exact Hfrom.
  - cbn. split; [lia|]. apply IH. lia.
Qed.

Lemma throttled_calls_sublist (events : list (nat * A)) :
  forall (free_at : option nat) (t : nat),
    sublist (throttled_calls limit free_at t events) (timed t events).
Proof.
  induction events as [|[g a] rest IH]; intros free_at t;
    [apply sublist_nil|].
  cbn [throttled_calls timed].
  destruct (free_now free_at (t + g)).
  - apply sublist_skip, IH.
  - apply sublist_cons, IH.
Qed.

(** X11. [func] runs at most once every [limit] milliseconds through a
    throttled function: two runs that follow each other are [limit] or
    more apart; every run is at the time of a call and with the arguments
    of that call, in the order of the calls; and the first call always
    runs. *)
Theorem throttle_spaces_calls
    (t0 : nat) (first : nat * A) (rest : list (nat * A)) :
  let log := calls (run limit (throttle t0) (first :: rest)) in
  spaced limit t0 log
  /\ sublist log (timed t0 (first :: rest))
  /\ head log = Some ((t0 + first.1)%nat, first.2).
Proof.
  cbv zeta. rewrite (run_calls (first :: rest) (throttle t0) None)
    by (split; reflexivity).
  cbn [calls throttle app now].
  split; [apply throttled_calls_spaced; lia|].
  split; [apply throttled_calls_sublist|].
  destruct first as [g a]. reflexivity.
Qed.

End ThrottleCalls.

(** ** ModalManager *)

Section Modal.
Import ModalManager.

Lemma close_then_wait (p : page) (c : element) (d : nat) :
  modal_settled p c ->
  elapse d (close p).1
  = if (300 <=? d)%nat then
      {| modal := assign_style "display" "none" (modal p);
         content := Some (assign_style "animation" ""
                            (assign_style "animation"
                               "modalSlideOut 0.3s ease-in" c));
         pending := [];
         fresh_handle := Pos.succ (fresh_handle p);
         now := (now p + d)%nat |}
    else
      {| modal := modal p;
         content := Some (assign_style "animation"
                            "modalSlideOut 0.3s ease-in" c);
         pending := [(fresh_handle p, (now p + 300)%nat)];
         fresh_handle := Pos.succ (fresh_handle p);
         now := (now p + d)%nat |}.
Proof.
  intros [Hc Hp]. destruct (Nat.leb_spec 300 d) as [Hd|Hd];
    unfold close, elapse; rewrite Hc; simpl; rewrite Hp; simpl;
    destruct (Nat.leb_spec (now p + 300) (now p + d)); try lia.
  - rewrite filter_handle. unfold hide, with_modal, with_content. simpl.
    rewrite Hc. simpl. f_equal; lia.
  - rewrite Hc. simpl. f_equal; lia.
Qed.

(** X12. On a modal at rest, [close()] puts the exit animation on the
    content at once and hides nothing yet: until 300 ms have passed the
    modal is displayed as before and one timeout is pending; from 300 ms
    on the display of the modal is [none], the animation property of the
    content is taken off and nothing is pending. *)
Theorem close_hides_after_delay (p : page) (c : element) (d : nat) :
  modal_settled p c ->
  let q := elapse d (close p).1 in
  ((d < 300)%nat ->
   modal q = modal p
   /\ (style <$> content q) = Some (<["animation" := "modalSlideOut 0.3s ease-in"]> (style c))
   /\ length (pending q) = 1%nat)
  /\ ((300 <= d)%nat ->
      style (modal q) !! "display" = Some "none"
      /\ (style <$> content q) = Some (delete "animation" (style c))
      /\ pending q = []).
Proof.
  intros Hp q. subst q. rewrite (close_then_wait p c d Hp).
  split; intros Hd.
  - destruct (Nat.leb_spec 300 d); [lia|]. repeat split; reflexivity.
  - destruct (Nat.leb_spec 300 d); [|lia]. simpl.
    split; [apply lookup_insert_eq|]. split; [|reflexivity].
    f_equal. apply delete_insert_eq.
Qed.




Lemma close_hides_after_delay_witness :
  let el := {| classList := ∅; style := ∅; textContent := "" |} in
  style (modal (elapse 300 (close (constructor el (Some el) 0)).1))
  !! "display" = Some "none".
Proof.
  intros el.
  destruct (close_hides_after_delay (constructor el (Some el) 0) el 300)
    as [_ Hlate]; [split; reflexivity|].
  apply Hlate. lia.
Defined.

Lemma step_without_content (p : page) (o : op) :
  content p = None -> pending p = [] ->
  content (step p o) = None /\ pending (step p o) = []
  /\ match o with
     | Open => style (modal (step p o)) !! "display" = Some "block"
     | _ => modal (step p o) = modal p
     end.
Proof.
  intros Hc Hp. destruct o as [| |d]; simpl.
  - unfold open. simpl. rewrite Hc. simpl.
    repeat split; trivial. apply lookup_insert_eq.
  - unfold close. rewrite Hc. simpl. auto.
  - unfold elapse. rewrite Hp. simpl. auto.
Qed.

Lemma run_without_content (ops : list op) :
  forall p, content p = None -> pending p = [] ->
    let q := run p ops in
    content q = None /\ pending q = []
    /\ (Open ∈ ops -> style (modal q) !! "display" = Some "block")
    /\ (Open ∉ ops -> modal q = modal p).
Proof.
  induction ops as [|o ops IH] using rev_ind; intros p Hc Hp; cbv zeta.
  - simpl. repeat split; trivial. intros Hin. inversion Hin.
  - unfold run. rewrite foldl_app. cbn [foldl]. fold (run p ops).
    destruct (IH p Hc Hp) as (Hc' & Hp' & Hopen & Hnone).
    destruct (step_without_content (run p ops) o Hc' Hp') as (Hc2 & Hp2 & Hm).
    split; [exact Hc2|]. split; [exact Hp2|]. split.
    + intros Hin. destruct o; try (rewrite Hm; apply Hopen; set_solver).
      exact Hm.
    + intros Hout. destruct o; [set_solver| |];
        (rewrite Hm; apply Hnone; set_solver).
Qed.

(** X14. A modal in which [querySelector('.modal-content')] finds nothing:
    [open()] displays the modal and then fails with a [TypeError];
    [close()] fails with a [TypeError] before it changes anything or sets
    a timeout.  So after any calls of [open] and [close] and any waiting,
    nothing is pending, and the modal is as it was if [open] was never
    called and displayed as [block] if it was: no call hides it. *)
Theorem modal_without_content_cannot_close (p : page) (ops : list op) :
  content p = None -> pending p = [] ->
  let q := run p ops in
  pending q = []
  /\ (open q).2 = TypeError
  /\ close q = (q, TypeError)
  /\ (Open ∈ ops -> style (modal q) !! "display" = Some "block")
  /\ (Open ∉ ops -> modal q = modal p).
Proof.
  intros Hc Hp q.
  destruct (run_without_content ops p Hc Hp) as (Hc' & Hp' & Hopen & Hnone).
  fold q in Hc', Hp', Hopen, Hnone.
  split; [exact Hp'|].
  split; [unfold open; simpl; rewrite Hc'; reflexivity|].
  split; [unfold close; rewrite Hc'; reflexivity|].
  split; assumption.
Qed.

Lemma modal_without_content_cannot_close_witness :
  let el := {| classList := ∅; style := ∅; textContent := "" |} in
  style (modal (run (constructor el None 0) [Open; Close; Wait 500]))
  !! "display" = Some "block".
Proof.
  intros el.
  destruct (modal_without_content_cannot_close (constructor el None 0)
              [Open; Close; Wait 500]) as (_ & _ & _ & Hopen & _);
    [reflexivity | reflexivity |].
  apply Hopen. set_solver.
Defined.

End Modal.
(** ** Integers in performCalculations *)

Lemma shl_align_exponent (m : positive) (e e' : Z) :
  e' <= e -> snd (shl_align m e e') = e'.
Proof.
  intros Hle. unfold shl_align.
  destruct (e' - e) as [|d|d] eqn:Hd; try lia; cbn [snd]; lia.
Qed.

Lemma int_mantissa_digits (k : Z) :
  1 <= k < 2 ^ 53 ->
  Zpos (digits2_pos (Z.to_pos (k * 2 ^ (53 - int_digits k)))) = 53.
Proof.
  intros Hk. assert (Hd := int_digits_range k Hk).
  assert (0 < 2 ^ (53 - int_digits k)) by (apply Z.pow_pos_nonneg; lia).
  rewrite digits2_log2, Z2Pos.id, Z.log2_mul_pow2 by nia.
  unfold int_digits in *. lia.
Qed.

(** An integer below 2^53 in absolute value is a double. *)
Lemma of_Z_signed (z : Z) :
  z <> 0 -> Z.abs z < 2 ^ 53 ->
  of_Z z = signed_int_float (z <? 0) (Z.abs z).
Proof.
  intros Hz Habs.
  assert (Hshape : forall (s : bool) (p : positive),
            Zpos p < 2 ^ 53 ->
            binary_round prec emax s p 0 = signed_int_float s (Zpos p)).
  { intros s p Hp.
    assert (Hd := int_digits_range (Zpos p) ltac:(lia)).
    assert (Hdp : Zpos (digits2_pos p) = int_digits (Zpos p))
      by (rewrite digits2_log2; reflexivity).
    unfold binary_round. rewrite Hdp.
    replace (fexp prec emax (int_digits (Zpos p) + 0))
      with (int_digits (Zpos p) - 53)
      by (unfold fexp, emin, prec, emax; lia).
    destruct (shl_align p 0 (int_digits (Zpos p) - 53)) as [mz ez] eqn:Hal.
    assert (Hmz : Zpos mz = Zpos p * 2 ^ (53 - int_digits (Zpos p))).
    { replace mz with (fst (shl_align p 0 (int_digits (Zpos p) - 53)))
        by (rewrite Hal; reflexivity).
      rewrite shl_align_value by lia. f_equal. f_equal. lia. }
    assert (Hez : ez = int_digits (Zpos p) - 53).
    { replace ez with (snd (shl_align p 0 (int_digits (Zpos p) - 53)))
        by (rewrite Hal; reflexivity).
      apply shl_align_exponent. lia. }
    assert (Hdm : Zpos (digits2_pos mz) = 53).
    { replace mz with (Z.to_pos (Zpos p * 2 ^ (53 - int_digits (Zpos p))))
        by (rewrite <- Hmz; reflexivity).
      apply int_mantissa_digits. lia. }
    rewrite (binary_round_aux_exact s mz ez 0).
    - unfold signed_int_float. rewrite Z.div_1_r, Z.add_0_r, Hmz, Hez.
      reflexivity.
    - rewrite Hdm, Hez. unfold fexp, emin, prec, emax. lia.
    - lia.
    - exists (Zpos mz). lia.
    - rewrite Hez. unfold prec, emax. lia. }
  unfold of_Z, binary_normalize.
  destruct z as [|p|p]; [contradiction| |]; cbn [Z.abs Z.ltb Z.compare];
    apply Hshape; exact Habs.
Qed.

Lemma int_float_signed (k : Z) : int_float k = signed_int_float false k.
Proof. reflexivity. Qed.

Lemma mul_signed (s1 s2 : bool) (a b : Z) :
  1 <= a -> 1 <= b -> a * b < 2 ^ 53 ->
  mul (signed_int_float s1 a) (signed_int_float s2 b)
  = signed_int_float (xorb s1 s2) (a * b).
Proof.
  intros Ha Hb Hab.
  assert (Ha53 : a < 2 ^ 53) by nia. assert (Hb53 : b < 2 ^ 53) by nia.
  assert (Hda := int_digits_range a ltac:(lia)).
  assert (Hdb := int_digits_range b ltac:(lia)).
  assert (Hdab := int_digits_range (a * b) ltac:(nia)).
  assert (Hlow : int_digits a + int_digits b - 1 <= int_digits (a * b)).
  { unfold int_digits.
    assert (Z.log2 a + Z.log2 b <= Z.log2 (a * b))
      by (apply Z.log2_mul_below; lia).
    lia. }
  set (da := int_digits a) in *. set (db := int_digits b) in *.
  set (dab := int_digits (a * b)) in *.
  assert (Hpa : 0 < 2 ^ (53 - da)) by (apply Z.pow_pos_nonneg; lia).
  assert (Hpb : 0 < 2 ^ (53 - db)) by (apply Z.pow_pos_nonneg; lia).
  unfold signed_int_float, mul, SFmul. fold da db dab.
  set (ma := Z.to_pos (a * 2 ^ (53 - da))).
  set (mb := Z.to_pos (b * 2 ^ (53 - db))).
  assert (HM : Zpos (ma * mb) = a * b * 2 ^ (106 - da - db)).
  { rewrite Pos2Z.inj_mul. unfold ma, mb. rewrite !Z2Pos.id by nia.
    replace (106 - da - db) with ((53 - da) + (53 - db)) by lia.
    rewrite Z.pow_add_r by lia. ring. }
  assert (HdM : Zpos (digits2_pos (ma * mb)) = dab + (106 - da - db)).
  { rewrite digits2_log2, HM, Z.log2_mul_pow2 by nia.
    unfold dab, int_digits. lia. }
  rewrite (binary_round_aux_exact _ _ _ (dab + 53 - da - db)).
  - f_equal; [|lia]. f_equal. rewrite HM.
    replace (2 ^ (106 - da - db))
      with (2 ^ (53 - dab) * 2 ^ (dab + 53 - da - db)).
    2:{ rewrite <- Z.pow_add_r by lia. f_equal. lia. }
    rewrite Z.mul_assoc, Z.div_mul by (apply Z.pow_nonzero; lia).
    reflexivity.
  - rewrite HdM. unfold fexp, emin, prec, emax. lia.
  - lia.
  - rewrite HM. exists (a * b * 2 ^ (53 - dab)).
    rewrite <- (Z.mul_assoc (a * b)), <- Z.pow_add_r by lia.
    do 2 f_equal. lia.
  - unfold prec, emax. lia.
Qed.

Lemma ltb_signed_two_pow_53 (s : bool) (k : Z) :
  1 <= k < 2 ^ 53 -> ltb (signed_int_float s k) two_pow_53 = true.
Proof.
  intros Hk. assert (Hd := int_digits_range k Hk).
  unfold ltb, SFltb, signed_int_float.
  change two_pow_53 with (S754_finite false 4503599627370496 1).
  cbn [SFcompare]. destruct s; [reflexivity|].
  replace (int_digits k - 53 ?= 1) with Lt
    by (symmetry; apply Z.compare_lt_iff; lia).
  reflexivity.
Qed.

Lemma of_Z_below_two_pow_53 (z : Z) :
  Z.abs z < 2 ^ 53 -> ltb (of_Z z) two_pow_53 = true.
Proof.
  intros Hz. destruct (Z.eq_dec z 0) as [->|Hnz]; [reflexivity|].
  rewrite of_Z_signed by assumption. apply ltb_signed_two_pow_53. lia.
Qed.

Lemma calculations_fields (fuel : nat) (x : number) (r : calculations) :
  performCalculations fuel (VNumber x) = Return r ->
  squared r = mul x x
  /\ cubed r = mul (mul x x) x
  /\ squareRoot r = toFixed (sqrt x) 2
  /\ isEven r = strict_eqb (rem x two) zero
  /\ factorial_iife fuel x = Some (factorial r).
Proof.
  unfold performCalculations. destruct (isNaN x); [discriminate|].
  destruct (factorial_iife fuel x) as [f|]; [|discriminate].
  intros [= <-]. repeat split; reflexivity.
Qed.

Lemma rem_two_signed (s : bool) (k : Z) :
  1 <= k < 2 ^ 53 ->
  strict_eqb (rem (signed_int_float s k) two) zero = Z.even k.
Proof.
  intros Hk. destruct (Z.eq_dec k 1) as [->|Hk1].
  { destruct s; reflexivity. }
  assert (Hd := int_digits_range k Hk).
  assert (Hd2 : 2 <= int_digits k).
  { unfold int_digits. assert (1 <= Z.log2 k); [|lia].
    apply Z.log2_le_pow2; lia. }
  set (d := int_digits k) in *.
  assert (Hp : 0 < 2 ^ (53 - d)) by (apply Z.pow_pos_nonneg; lia).
  unfold signed_int_float, rem. fold d.
  change two with (S754_finite false 4503599627370496 (-51)).
  cbv iota beta.
  replace (Z.min (d - 53) (-51)) with (-51) by lia.
  rewrite !shl_align_value by lia.
  rewrite Z2Pos.id by nia.
  replace (k * 2 ^ (53 - d) * 2 ^ (d - 53 - -51)) with (k * 2 ^ 51).
  2:{ rewrite <- Z.mul_assoc, <- Z.pow_add_r by lia. do 2 f_equal. lia. }
  replace (4503599627370496 * 2 ^ (-51 - -51)) with (2 * 2 ^ 51) by reflexivity.
  rewrite Z.rem_mod_nonneg by lia.
  rewrite Z.mul_mod_distr_r by lia.
  rewrite Zmod_even. destruct (Z.even k); destruct s; reflexivity.
Qed.

Lemma isEven_of_Z (z : Z) :
  Z.abs z < 2 ^ 53 -> strict_eqb (rem (of_Z z) two) zero = Z.even z.
Proof.
  intros Hz. destruct (Z.eq_dec z 0) as [->|Hnz]; [reflexivity|].
  rewrite of_Z_signed, rem_two_signed by (trivial; lia).
  destruct z; reflexivity.
Qed.

Lemma squared_of_Z (z : Z) :
  z * z < 2 ^ 53 -> mul (of_Z z) (of_Z z) = of_Z (z * z).
Proof.
  intros Hz. destruct (Z.eq_dec z 0) as [->|Hnz]; [reflexivity|].
  assert (Habs : Z.abs z < 2 ^ 53) by nia.
  rewrite (of_Z_signed z), (of_Z_signed (z * z)) by (trivial; nia).
  rewrite mul_signed by nia.
  rewrite Z.abs_mul. f_equal.
  destruct (z <? 0); destruct (Z.ltb_spec (z * z) 0); trivial; nia.
Qed.

Lemma cubed_of_Z (z : Z) :
  Z.abs (z * z * z) < 2 ^ 53 ->
  mul (mul (of_Z z) (of_Z z)) (of_Z z) = of_Z (z * z * z).
Proof.
  intros Hz. destruct (Z.eq_dec z 0) as [->|Hnz]; [reflexivity|].
  assert (Hsq : z * z < 2 ^ 53) by nia.
  rewrite squared_of_Z by exact Hsq.
  rewrite (of_Z_signed z), (of_Z_signed (z * z)), (of_Z_signed (z * z * z))
    by (trivial; nia).
  rewrite mul_signed by nia.
  rewrite !Z.abs_mul. f_equal.
  destruct (Z.ltb_spec z 0), (Z.ltb_spec (z * z) 0),
           (Z.ltb_spec (z * z * z) 0); trivial; nia.
Qed.

(** X15. For every integer [z] below 2^53 in absolute value,
    [performCalculations(z)] returns, and in its result [squared] is
    exactly [z * z] when that is below 2^53 and [cubed] is exactly
    [z * z * z] when that is below 2^53 in absolute value: no rounding
    takes place. *)
Theorem integer_square_and_cube_are_exact (z : Z) :
  Z.abs z < 2 ^ 53 ->
  exists (fuel : nat) (r : calculations),
    (forall fuel', (fuel <= fuel')%nat ->
       performCalculations fuel' (VNumber (of_Z z)) = Return r)
    /\ (z * z < 2 ^ 53 -> squared r = of_Z (z * z))
    /\ (Z.abs (z * z * z) < 2 ^ 53 -> cubed r = of_Z (z * z * z)).
Proof.
  intros Hz.
  destruct (returns_below_two_pow_53 (of_Z z) (of_Z_below_two_pow_53 z Hz))
    as (fuel & r & Hr).
  exists fuel, r. split; [exact Hr|].
  destruct (calculations_fields fuel (of_Z z) r (Hr fuel (le_n _)))
    as (Hsq & Hcu & _).
  rewrite Hsq, Hcu. split; [apply squared_of_Z | apply cubed_of_Z].
Qed.

Lemma integer_square_and_cube_are_exact_witness :
  exists (fuel : nat) (r : calculations),
    (forall fuel', (fuel <= fuel')%nat ->
       performCalculations fuel' (VNumber (of_Z (-12))) = Return r)
    /\ squared r = of_Z 144 /\ cubed r = of_Z (-1728).
Proof.
  destruct (integer_square_and_cube_are_exact (-12)) as (fuel & r & Hr & Hsq & Hcu);
    [reflexivity|].
  exists fuel, r. split; [exact Hr|].
  split; [apply Hsq | apply Hcu]; reflexivity.
Defined.

(** X16. For every integer [z] below 2^53 in absolute value,
    [performCalculations(z)] returns and its [isEven] field tells whether
    [z] is even, for negative [z] too. *)
Theorem isEven_is_parity (z : Z) :
  Z.abs z < 2 ^ 53 ->
  exists (fuel : nat) (r : calculations),
    (forall fuel', (fuel <= fuel')%nat ->
       performCalculations fuel' (VNumber (of_Z z)) = Return r)
    /\ isEven r = Z.even z.
Proof.
  intros Hz.
  destruct (returns_below_two_pow_53 (of_Z z) (of_Z_below_two_pow_53 z Hz))
    as (fuel & r & Hr).
  exists fuel, r. split; [exact Hr|].
  destruct (calculations_fields fuel (of_Z z) r (Hr fuel (le_n _)))
    as (_ & _ & _ & Hev & _).
  rewrite Hev. apply isEven_of_Z. exact Hz.
Qed.

Lemma isEven_is_parity_witness :
  exists (fuel : nat) (r : calculations),
    (forall fuel', (fuel <= fuel')%nat ->
       performCalculations fuel' (VNumber (of_Z (-7))) = Return r)
    /\ isEven r = false.
Proof.
  apply (isEven_is_parity (-7)). reflexivity.
Defined.
(** ** The factorial of a number that is no integer *)

Lemma binary_round_int (s : bool) (p : positive) :
  Zpos p < 2 ^ 53 ->
  binary_round prec emax s p 0 = signed_int_float s (Zpos p).
Proof.
  intros Hp.
  assert (H := of_Z_signed (cond_Zopp s (Zpos p))).
  destruct s; cbn [cond_Zopp Z.opp] in H.
  - specialize (H ltac:(discriminate) ltac:(simpl; exact Hp)). exact H.
  - specialize (H ltac:(discriminate) ltac:(simpl; exact Hp)). exact H.
Qed.

Lemma canonical_shape (s : bool) (m : positive) (e : Z) :
  is_double (S754_finite s m e) = true ->
  -1074 <= e <= 971
  /\ Zpos (digits2_pos m) <= 53
  /\ (Zpos (digits2_pos m) = 53 \/ e = -1074)
  /\ Zpos m < 2 ^ 53.
Proof.
  unfold is_double, valid_binary, bounded, canonical_mantissa.
  intros Hb. apply andb_true_iff in Hb as [Hc He].
  apply Z.eqb_eq in Hc. apply Z.leb_le in He.
  unfold fexp, emin, prec, emax in Hc, He.
  assert (Hdm : Zpos (digits2_pos m) <= 53) by lia.
  repeat split; try lia.
  apply Z.log2_lt_pow2; [lia|]. rewrite digits2_log2 in Hdm. lia.
Qed.

Lemma mantissa_lower (m : positive) :
  2 ^ (Zpos (digits2_pos m) - 1) <= Zpos m.
Proof.
  rewrite digits2_log2. replace (Z.log2 (Zpos m) + 1 - 1) with (Z.log2 (Zpos m)) by lia.
  apply Z.log2_spec. lia.
Qed.

Lemma compare_cont_Eq_spec (p q : positive) :
  PosDef.Pos.compare_cont Eq p q = (Zpos p ?= Zpos q).
Proof. reflexivity. Qed.

(** Below one half of 2^53 a positive double that is no integer compares
    with the integers as its integer part does. *)
Lemma leb_int_floor (k : Z) (m : positive) (e : Z) :
  1 <= k <= 2 ^ 53 -> e < 0 ->
  is_double (S754_finite false m e) = true ->
  leb (int_or_two_pow_53 k) (S754_finite false m e)
  = (k <=? Zpos m / 2 ^ (- e)).
Proof.
  intros Hk He Hx.
  destruct (canonical_shape false m e Hx) as (Hrange & Hdm & Hnorm & Hm).
  assert (Hpe : 0 < 2 ^ (- e)) by (apply Z.pow_pos_nonneg; lia).
  assert (Hq : Zpos m / 2 ^ (- e) < 2 ^ 52).
  { apply Z.div_lt_upper_bound; [lia|].
    assert (2 ^ 1 <= 2 ^ (- e)) by (apply Z.pow_le_mono_r; lia).
    change (2 ^ 53) with (2 ^ 52 * 2 ^ 1) in Hm. nia. }
  unfold int_or_two_pow_53. destruct (Z.ltb_spec k (2 ^ 53)) as [Hlt|Hge].
  2:{ change two_pow_53 with (S754_finite false 4503599627370496 1).
      unfold leb, SFleb. cbn [SFcompare].
      replace (1 ?= e) with Gt by (symmetry; apply Z.compare_gt_iff; lia).
      symmetry. apply Z.leb_gt. lia. }
  assert (Hd := int_digits_range k ltac:(lia)).
  set (d := int_digits k) in *.
  assert (Hpd : 0 < 2 ^ (53 - d)) by (apply Z.pow_pos_nonneg; lia).
  assert (Hklow : 2 ^ (d - 1) <= k).
  { unfold d, int_digits. replace (Z.log2 k + 1 - 1) with (Z.log2 k) by lia.
    apply Z.log2_spec. lia. }
  assert (Hkup : k < 2 ^ d).
  { unfold d, int_digits. apply Z.log2_spec. lia. }
  unfold int_float, leb, SFleb. fold d. cbn [SFcompare].
  rewrite compare_cont_Eq_spec, Z2Pos.id by nia.
  destruct (Z.compare_spec (d - 53) e) as [Heq|Hlt'|Hgt].
  - (* same exponent: the mantissas decide *)
    assert (Hpow : 2 ^ (- e) = 2 ^ (53 - d)) by (f_equal; lia).
    rewrite Hpow.
    destruct (Z.compare_spec (k * 2 ^ (53 - d)) (Zpos m)) as [Hc|Hc|Hc];
      symmetry.
    + apply Z.leb_le. rewrite <- Hc, Z.div_mul by lia. lia.
    + apply Z.leb_le. apply Z.div_le_lower_bound; lia.
    + apply Z.leb_gt. apply Z.div_lt_upper_bound; lia.
  - (* the integer has the smaller exponent *)
    symmetry. apply Z.leb_le.
    destruct Hnorm as [Hnorm|Hsub]; [|lia].
    assert (Hmlow := mantissa_lower m). rewrite Hnorm in Hmlow.
    apply Z.div_le_lower_bound; [lia|].
    assert (Hkk : k * 2 ^ (- e) < 2 ^ d * 2 ^ (- e)) by nia.
    rewrite <- Z.pow_add_r in Hkk by lia.
    assert (2 ^ (d + - e) <= 2 ^ (53 - 1)) by (apply Z.pow_le_mono_r; lia).
    lia.
  - (* the integer has the larger exponent *)
    symmetry. apply Z.leb_gt. apply Z.div_lt_upper_bound; [lia|].
    assert (Hmm : Zpos m < 2 ^ (Zpos (digits2_pos m))).
    { rewrite digits2_log2. apply Z.log2_spec. lia. }
    assert (Hkk : 2 ^ (d - 1) * 2 ^ (- e) <= k * 2 ^ (- e)) by nia.
    rewrite <- Z.pow_add_r in Hkk by lia.
    assert (2 ^ 53 <= 2 ^ (d - 1 + - e)) by (apply Z.pow_le_mono_r; lia).
    assert (2 ^ Zpos (digits2_pos m) <= 2 ^ 53) by (apply Z.pow_le_mono_r; lia).
    lia.
Qed.

Lemma positive_floor (m : positive) (e : Z) :
  e < 0 -> is_double (S754_finite false m e) = true ->
  floor (S754_finite false m e) = of_Z (Zpos m / 2 ^ (- e))
  /\ 0 <= Zpos m / 2 ^ (- e) < 2 ^ 52.
Proof.
  intros He Hx.
  destruct (canonical_shape false m e Hx) as (_ & _ & _ & Hm).
  assert (Hpe : 0 < 2 ^ (- e)) by (apply Z.pow_pos_nonneg; lia).
  split.
  - unfold floor. destruct (Z.leb_spec 0 e); [lia | reflexivity].
  - split; [apply Z.div_pos; lia|].
    apply Z.div_lt_upper_bound; [lia|].
    assert (2 ^ 1 <= 2 ^ (- e)) by (apply Z.pow_le_mono_r; lia).
    change (2 ^ 53) with (2 ^ 52 * 2 ^ 1) in Hm. nia.
Qed.

Lemma leb_int_int (k q : Z) :
  1 <= k <= 2 ^ 53 -> 1 <= q < 2 ^ 52 ->
  leb (int_or_two_pow_53 k) (int_float q) = (k <=? q).
Proof.
  intros Hk Hq.
  assert (Hd := int_digits_range q ltac:(lia)).
  assert (Hd52 : int_digits q <= 52).
  { unfold int_digits. assert (Z.log2 q < 52); [|lia].
    apply Z.log2_lt_pow2; lia. }
  assert (Hp : 0 < 2 ^ (53 - int_digits q)) by (apply Z.pow_pos_nonneg; lia).
  unfold int_float at 1.
  rewrite (leb_int_floor k _ (int_digits q - 53)); [| lia | lia |].
  - rewrite Z2Pos.id by nia.
    replace (- (int_digits q - 53)) with (53 - int_digits q) by lia.
    rewrite Z.div_mul by lia. reflexivity.
  - unfold is_double, valid_binary, bounded, canonical_mantissa.
    rewrite int_mantissa_digits by lia.
    unfold fexp, emin, prec, emax.
    apply andb_true_iff. split; [apply Z.eqb_eq | apply Z.leb_le]; lia.
Qed.

Lemma factorial_loop_of_floor (m : positive) (e : Z) (q : Z) (fuel : nat) :
  e < 0 -> is_double (S754_finite false m e) = true ->
  q = Zpos m / 2 ^ (- e) -> 1 <= q ->
  forall (k : Z) (res : number),
    1 <= k <= 2 ^ 53 ->
    factorial_loop fuel (S754_finite false m e) (int_or_two_pow_53 k) res
    = factorial_loop fuel (int_float q) (int_or_two_pow_53 k) res.
Proof.
  intros He Hx Hq Hq1.
  destruct (positive_floor m e He Hx) as [_ Hrange]. rewrite <- Hq in Hrange.
  induction fuel as [|fuel IH]; intros k res Hk; [reflexivity|].
  cbn [factorial_loop].
  rewrite (leb_int_floor k m e Hk He Hx), <- Hq, (leb_int_int k q Hk) by lia.
  destruct (k <=? q); [|reflexivity].
  rewrite add_one_int_or_two_pow_53 by lia. apply IH. lia.
Qed.

Lemma strict_eqb_one (m : positive) (e : Z) :
  strict_eqb (S754_finite false m e) one = true ->
  e = -52 /\ m = 4503599627370496%positive.
Proof.
  unfold strict_eqb, SFeqb.
  change one with (S754_finite false 4503599627370496 (-52)).
  cbn [SFcompare]. rewrite compare_cont_Eq_spec.
  destruct (Z.compare_spec e (-52)) as [He| |]; try discriminate.
  destruct (Z.compare_spec (Zpos m) 4503599627370496) as [Hm| |];
    try discriminate.
  intros _. split; [exact He | congruence].
Qed.

(** The function expression of the [factorial] field gives on a number
    what it gives on its integer part, when there is fuel for one test of
    the loop at least. *)
Lemma factorial_iife_of_floor (x : number) (fuel : nat) :
  is_double x = true -> ltb x two_pow_53 = true ->
  factorial_iife (S fuel) x = factorial_iife (S fuel) (floor x)
  /\ isNaN (floor x) = false.
Proof.
  intros Hx Hlt.
  destruct x as [s|s| |s m e]; try (split; reflexivity).
  - discriminate Hlt.
  - unfold floor at 1 2. destruct (Z.leb_spec 0 e) as [He|He];
      [split; reflexivity|].
    destruct (canonical_shape s m e Hx) as (_ & _ & _ & Hm).
    assert (Hpe : 0 < 2 ^ (- e)) by (apply Z.pow_pos_nonneg; lia).
    destruct s; cbn [cond_Zopp Z.opp].
    + (* a negative number: its integer part is negative *)
      change (- Z.pos m) with (Z.neg m).
      assert (Hq : Z.neg m <= Z.neg m / 2 ^ (- e) < 0).
      { split; [apply Z.div_le_lower_bound; nia|].
        apply Z.div_lt_upper_bound; lia. }
      destruct (Z.neg m / 2 ^ (- e)) as [|p|p] eqn:Hp; try lia.
      cbn [binary_normalize]. rewrite binary_round_int by lia.
      split; reflexivity.
    + destruct (positive_floor m e He Hx) as [_ Hq].
      set (q := Zpos m / 2 ^ (- e)) in *.
      change (binary_normalize prec emax q 0 false) with (of_Z q).
      assert (Hleb2 : leb two (S754_finite false m e) = (2 <=? q)).
      { rewrite two_eq. apply leb_int_floor; trivial; lia. }
      destruct (Z.eq_dec q 0) as [Hq0|Hq0].
      { rewrite Hq0. split; [|reflexivity].
        unfold factorial_iife.
        change (ltb (S754_finite false m e) zero) with false.
        change (strict_eqb (S754_finite false m e) zero) with false.
        cbv iota. cbn [orb].
        destruct (strict_eqb (S754_finite false m e) one); [reflexivity|].
        cbn [factorial_loop]. rewrite Hleb2, Hq0. reflexivity. }
      destruct (Z.eq_dec q 1) as [Hq1|Hq1].
      { rewrite Hq1. split; [|reflexivity].
        unfold factorial_iife.
        change (ltb (S754_finite false m e) zero) with false.
        change (strict_eqb (S754_finite false m e) zero) with false.
        cbv iota. cbn [orb].
        destruct (strict_eqb (S754_finite false m e) one); [reflexivity|].
        cbn [factorial_loop]. rewrite Hleb2, Hq1. reflexivity. }
      rewrite (of_Z_signed q) by lia.
      replace (q <? 0) with false by (symmetry; apply Z.ltb_ge; lia).
      rewrite Z.abs_eq by lia. rewrite <- int_float_signed.
      split; [|reflexivity].
      unfold factorial_iife.
      change (ltb (S754_finite false m e) zero) with false.
      change (strict_eqb (S754_finite false m e) zero) with false.
      change (ltb (int_float q) zero) with false.
      change (strict_eqb (int_float q) zero) with false.
      cbv iota. cbn [orb].
      assert (Hne : strict_eqb (S754_finite false m e) one = false).
      { destruct (strict_eqb (S754_finite false m e) one) eqn:Heq; [|reflexivity].
        apply strict_eqb_one in Heq as [-> ->]. exfalso. apply Hq1.
        reflexivity. }
      assert (Hne' : strict_eqb (int_float q) one = false).
      { destruct (strict_eqb (int_float q) one) eqn:Heq; [|reflexivity].
        unfold int_float in Heq. apply strict_eqb_one in Heq as [Hd _].
        exfalso. assert (int_digits q = 1) by lia.
        unfold int_digits in *. assert (1 <= Z.log2 q); [|lia].
        apply Z.log2_le_pow2; lia. }
      rewrite Hne, Hne', two_eq.
      rewrite (factorial_loop_of_floor m e q (S fuel) He Hx eq_refl) by lia.
      reflexivity.
Qed.

(** X17. For every number of the page below 2^53, integer or not,
    negative or not, [performCalculations] returns on the number and on
    [Math.floor] of it, and the two results have the same [factorial]
    field: the loop of the factorial sees the integer part only. *)
Theorem factorial_sees_integer_part (x : number) :
  is_double x = true -> ltb x (of_Z (2 ^ 53)) = true ->
  exists (fuel : nat) (r r' : calculations),
    (forall fuel', (fuel <= fuel')%nat ->
       performCalculations fuel' (VNumber x) = Return r
       /\ performCalculations fuel' (VNumber (floor x)) = Return r')
    /\ factorial r' = factorial r.
Proof.
  intros Hx Hlt.
  destruct (returns_below_two_pow_53 x Hlt) as (fuel & r & Hr).
  exists (S fuel), r.
  exists {| squared := mul (floor x) (floor x);
            cubed := mul (mul (floor x) (floor x)) (floor x);
            squareRoot := toFixed (sqrt (floor x)) 2;
            isEven := strict_eqb (rem (floor x) two) zero;
            factorial := factorial r |}.
  split; [|reflexivity].
  intros fuel' Hle. split; [apply Hr; lia|].
  destruct fuel' as [|n]; [lia|].
  destruct (calculations_fields (S n) x r (Hr (S n) ltac:(lia)))
    as (_ & _ & _ & _ & Hf).
  destruct (factorial_iife_of_floor x n Hx Hlt) as [Heq Hnan].
  unfold performCalculations. rewrite Hnan, <- Heq, Hf. reflexivity.
Qed.

Lemma factorial_sees_integer_part_witness :
  exists (fuel : nat) (r r' : calculations),
    (forall fuel', (fuel <= fuel')%nat ->
       performCalculations fuel' (VNumber (S754_finite false 7881299347898368 (-51)))
       = Return r
       /\ performCalculations fuel'
            (VNumber (floor (S754_finite false 7881299347898368 (-51))))
          = Return r')
    /\ factorial r' = factorial r.
Proof.
  apply (factorial_sees_integer_part (S754_finite false 7881299347898368 (-51)));
    reflexivity.
Defined.

Lemma below_21_shape (m : positive) (e : Z) :
  is_double (S754_finite false m e) = true ->
  ltb (S754_finite false m e) (of_Z 21) = true ->
  e < 0 /\ Zpos m / 2 ^ (- e) <= 20
  /\ ltb (S754_finite false m e) two_pow_53 = true.
Proof.
  intros Hx Hlt.
  assert (He : e <= -48).
  { revert Hlt. unfold ltb, SFltb.
    change (of_Z 21) with (S754_finite false 5910974510923776 (-48)).
    cbn [SFcompare].
    destruct (Z.compare_spec e (-48)); try discriminate; intros _; lia. }
  split; [lia|]. split.
  - assert (Hleb : leb (int_or_two_pow_53 21) (S754_finite false m e)
                   = (21 <=? Zpos m / 2 ^ (- e)))
      by (apply leb_int_floor; trivial; lia).
    change (int_or_two_pow_53 21) with (of_Z 21) in Hleb.
    rewrite (ltb_not_leb _ _ Hlt) in Hleb. symmetry in Hleb.
    apply Z.leb_gt in Hleb. lia.
  - unfold ltb, SFltb.
    change two_pow_53 with (S754_finite false 4503599627370496 1).
    cbn [SFcompare].
    replace (e ?= 1) with Lt by (symmetry; apply Z.compare_lt_iff; lia).
    reflexivity.
Qed.

Lemma factorial_iife_small (n extra : nat) :
  (n <= 20)%nat ->
  factorial_iife (20 + extra) (of_Z (Z.of_nat n))
  = Some (VNumber (of_Z (factorial_spec n))).
Proof.
  intros Hn. apply factorial_iife_more_fuel.
  do 21 (destruct n as [|n]; [vm_compute; reflexivity|]). lia.
Qed.

(** X18. For every number [x] of the page with [0 <= x < 21], integer or
    not, [performCalculations(x)] returns and its [factorial] field is the
    factorial of the integer part of [x]. *)
Theorem factorial_of_integer_part (x : number) :
  is_double x = true -> leb zero x = true -> ltb x (of_Z 21) = true ->
  exists (fuel : nat) (r : calculations),
    (forall fuel', (fuel <= fuel')%nat ->
       performCalculations fuel' (VNumber x) = Return r)
    /\ factorial r = VNumber (of_Z (factorial_spec (Z.to_nat (floor_Z x)))).
Proof.
  intros Hx Hge Hlt.
  assert (Hshape :
    ltb x two_pow_53 = true
    /\ 0 <= floor_Z x <= 20 /\ floor x = of_Z (floor_Z x)
       \/ exists s, x = S754_zero s).
  { destruct x as [s|s| |s m e];
      [right; eauto
      | destruct s; discriminate Hlt || discriminate Hge
      | discriminate Hlt |].
    destruct s; [discriminate Hge|]. left.
    destruct (below_21_shape m e Hx Hlt) as (He & Hq & Htop).
    destruct (positive_floor m e He Hx) as [Hfloor Hrange].
    unfold floor_Z. destruct (Z.leb_spec 0 e); [lia|]. cbn [cond_Zopp].
    split; [exact Htop|]. split; [lia | exact Hfloor]. }
  destruct Hshape as [(Htop & Hq & Hfloor)|[s ->]].
  - destruct (returns_below_two_pow_53 x Htop) as (fuel & r & Hr).
    exists fuel, r. split; [exact Hr|].
    set (big := (S (fuel + 20))%nat).
    destruct (calculations_fields big x r (Hr big ltac:(lia)))
      as (_ & _ & _ & _ & Hf).
    destruct (factorial_iife_of_floor x (fuel + 20) Hx Htop) as [Heq _].
    fold big in Heq. rewrite Heq, Hfloor in Hf.
    rewrite <- (Z2Nat.id (floor_Z x)) in Hf at 1 by lia.
    replace big with (20 + S fuel)%nat in Hf by lia.
    rewrite factorial_iife_small in Hf by lia. congruence.
  - exists 0%nat. eexists. split; [intros fuel' _; reflexivity|].
    reflexivity.
Qed.

Lemma factorial_of_integer_part_witness :
  exists (fuel : nat) (r : calculations),
    (forall fuel', (fuel <= fuel')%nat ->
       performCalculations fuel'
         (VNumber (S754_finite false 7881299347898368 (-51))) = Return r)
    /\ factorial r = VNumber (of_Z 6).
Proof.
  apply (factorial_of_integer_part (S754_finite false 7881299347898368 (-51)));
    reflexivity.
Defined.

(** X19. For every number from 2^53 on, [Infinity] included,
    [performCalculations] neither returns nor throws, whatever the fuel:
    the counter of the factorial loop stops at 2^53, where adding one
    rounds back to it, and never passes the number. *)
Theorem large_numbers_never_return (x : number) (fuel : nat) :
  leb (of_Z (2 ^ 53)) x = true ->
  performCalculations fuel (VNumber x) = OutOfFuel
  /\ factorial_loop fuel x (of_Z (2 ^ 53)) one = None
  /\ add (of_Z (2 ^ 53)) one = of_Z (2 ^ 53).
Proof.
  intros Hx. split; [apply never_returns_from_two_pow_53; exact Hx|].
  split; [|reflexivity].
  apply (factorial_loop_never_returns x Hx fuel (2 ^ 53) one). lia.
Qed.

Lemma large_numbers_never_return_witness :
  performCalculations 1000 (VNumber (of_Z (2 ^ 53))) = OutOfFuel
  /\ performCalculations 1000 (VNumber Infinity) = OutOfFuel.
Proof.
  split.
  - apply (large_numbers_never_return (of_Z (2 ^ 53)) 1000). reflexivity.
  - apply (large_numbers_never_return Infinity 1000). reflexivity.
Defined.
(** ** Rounding to nearest *)

Lemma shr_1_halves (x : shr_record) :
  0 <= shr_m x ->
  shr_m (shr_1 x) = shr_m x / 2 /\ shr_r (shr_1 x) = Z.odd (shr_m x).
Proof.
  destruct x as [m r s]. cbn [shr_m]. intros Hm.
  rewrite <- Z.div2_div.
  destruct m as [|[p|p|]|p]; try lia; split; reflexivity.
Qed.

Lemma iter_shr_1_halves (M : Z) (n : nat) :
  0 <= M ->
  let x := Nat.iter (S n) shr_1 (Build_shr_record M false false) in
  shr_m x = M / 2 ^ (Z.of_nat n + 1) /\ shr_r x = Z.odd (M / 2 ^ Z.of_nat n).
Proof.
  intros HM. cbv zeta. induction n as [|n IH].
  - change (Nat.iter 1 shr_1 (Build_shr_record M false false))
      with (shr_1 (Build_shr_record M false false)).
    destruct (shr_1_halves (Build_shr_record M false false) HM)
      as [Hm Hr].
    cbn [shr_m] in Hm, Hr. rewrite Hm, Hr.
    change (Z.of_nat 0) with 0. rewrite Z.pow_0_r, Z.div_1_r. split; reflexivity.
  - destruct IH as [Hm Hr].
    set (x := Nat.iter (S n) shr_1 (Build_shr_record M false false)) in *.
    change (Nat.iter (S (S n)) shr_1 (Build_shr_record M false false))
      with (shr_1 x).
    assert (Hx : 0 <= shr_m x).
    { rewrite Hm. apply Z.div_pos; [lia|]. apply Z.pow_pos_nonneg; lia. }
    destruct (shr_1_halves x Hx) as [Hm' Hr'].
    rewrite Hm', Hr', Hm.
    replace (Z.of_nat (S n)) with (Z.of_nat n + 1) by lia.
    split; [|reflexivity].
    rewrite Z.div_div by (try apply Z.pow_pos_nonneg; lia).
    f_equal.
    replace (Z.of_nat n + 1 + 1) with (Z.succ (Z.of_nat n + 1)) by lia.
    rewrite Z.pow_succ_r by lia. lia.
Qed.

(** A mantissa [M] shifted by [n >= 1] bits and rounded to nearest is at
    most half a unit of the new last place above [M]. *)
Lemma round_shift_bound (M e n : Z) :
  0 <= M -> 1 <= n ->
  let y := shr (Build_shr_record M false false) e n in
  let mr := round_nearest_even (shr_m y.1) (loc_of_shr_record y.1) in
  y.2 = e + n /\ 0 <= mr /\ 2 * (mr * 2 ^ n) <= 2 * M + 2 ^ n
  /\ M / 2 ^ n <= mr.
Proof.
  intros HM Hn. destruct n as [|p|p]; try lia.
  cbv zeta. unfold shr. cbn [fst snd]. split; [reflexivity|].
  rewrite iter_pos_nat.
  destruct (Pos2Nat.is_succ p) as [k Hk]. rewrite Hk.
  destruct (iter_shr_1_halves M k HM) as [Hm Hr].
  set (x := Nat.iter (S k) shr_1 (Build_shr_record M false false)) in *.
  assert (Hp : Zpos p = Z.of_nat k + 1) by lia.
  rewrite Hp.
  assert (H2k : 0 < 2 ^ Z.of_nat k) by (apply Z.pow_pos_nonneg; lia).
  assert (H2 : 2 ^ (Z.of_nat k + 1) = 2 * 2 ^ Z.of_nat k)
    by (rewrite Z.pow_add_r, Z.pow_1_r by lia; lia).
  assert (Hq : 0 <= M / 2 ^ (Z.of_nat k + 1))
    by (apply Z.div_pos; lia).
  assert (Hle : M / 2 ^ (Z.of_nat k + 1) * 2 ^ (Z.of_nat k + 1) <= M).
  { rewrite Z.mul_comm. apply Z.mul_div_le. lia. }
  assert (Hup : shr_r x = true ->
                2 * ((M / 2 ^ (Z.of_nat k + 1) + 1) * 2 ^ (Z.of_nat k + 1))
                <= 2 * M + 2 ^ (Z.of_nat k + 1)).
  { rewrite Hr. intros Hodd.
    assert (Hd := Z.div_mod M (2 ^ Z.of_nat k) ltac:(lia)).
    assert (Hmod := Z.mod_pos_bound M (2 ^ Z.of_nat k) ltac:(lia)).
    set (a := M / 2 ^ Z.of_nat k) in *.
    assert (Ha : M / 2 ^ (Z.of_nat k + 1) = a / 2).
    { rewrite H2, Z.mul_comm, <- Z.div_div by lia. reflexivity. }
    rewrite Ha. rewrite (Zodd_div2 a) in Hd.
    2:{ apply Zodd_bool_iff. exact Hodd. }
    rewrite Z.div2_div in Hd. rewrite H2. nia. }
  destruct x as [m r s]. cbn [shr_m shr_r] in *. subst m.
  destruct r, s; cbn [loc_of_shr_record round_nearest_even].
  - split; [lia|]. split; [apply Hup; reflexivity | lia].
  - destruct (Z.even _); (split; [lia|]); (split; [|lia]);
      [lia | apply Hup; reflexivity].
  - split; [lia|]. split; lia.
  - split; [lia|]. split; lia.
Qed.

Lemma shr_keeps (x : shr_record) (e n : Z) : n <= 0 -> shr x e n = (x, e).
Proof. intros Hn. destruct n; try lia; reflexivity. Qed.

Lemma shr_truncates (M e n : Z) :
  0 <= M -> 1 <= n ->
  shr_m (shr (Build_shr_record M false false) e n).1 = M / 2 ^ n
  /\ (shr (Build_shr_record M false false) e n).2 = e + n.
Proof.
  intros HM Hn. destruct n as [|p|p]; try lia.
  unfold shr. cbn [fst snd]. split; [|reflexivity].
  rewrite iter_pos_nat.
  destruct (Pos2Nat.is_succ p) as [k Hk]. rewrite Hk.
  destruct (iter_shr_1_halves M k HM) as [Hm _]. rewrite Hm.
  f_equal. f_equal. lia.
Qed.

(** What rounding gives for a positive mantissa [P] at exponent [E]: a
    mantissa [m2] at an exponent [e2 >= E] that is at most half a unit of
    the place the first shift stops at above [P]. *)
Lemma binary_round_aux_bound (sg : bool) (P : positive) (E : Z) :
  let n1 := Z.max 0 (fexp prec emax (Zpos (digits2_pos P) + E) - E) in
  exists m2 e2 : Z,
    E <= e2 /\ 0 <= m2
    /\ 2 * (m2 * 2 ^ (e2 - E)) <= 2 * Zpos P + 2 ^ n1
    /\ binary_round_aux prec emax sg (Zpos P) E loc_Exact
       = match m2 with
         | Z0 => S754_zero sg
         | Zpos m => if e2 <=? emax - prec then S754_finite sg m e2
                     else S754_infinity sg
         | Zneg _ => S754_nan
         end.
Proof.
  cbv zeta. unfold binary_round_aux, shr_fexp.
  cbn [shr_record_of_loc Zdigits2].
  set (n := fexp prec emax (Zpos (digits2_pos P) + E) - E).
  assert (Hsecond : forall mr e1 : Z,
    0 <= mr -> E <= e1 ->
    2 * (mr * 2 ^ (e1 - E)) <= 2 * Zpos P + 2 ^ Z.max 0 n ->
    exists m2 e2 : Z,
      E <= e2 /\ 0 <= m2
      /\ 2 * (m2 * 2 ^ (e2 - E)) <= 2 * Zpos P + 2 ^ Z.max 0 n
      /\ (let '(mrs'', e'') :=
            shr (Build_shr_record mr false false) e1
                (fexp prec emax (Zdigits2 mr + e1) - e1) in
          match shr_m mrs'' with
          | Z0 => S754_zero sg
          | Zpos m => if e'' <=? emax - prec then S754_finite sg m e''
                      else S754_infinity sg
          | Zneg _ => S754_nan
          end)
         = match m2 with
           | Z0 => S754_zero sg
           | Zpos m => if e2 <=? emax - prec then S754_finite sg m e2
                       else S754_infinity sg
           | Zneg _ => S754_nan
           end).
  { intros mr e1 Hmr He1 Hb.
    set (n2 := fexp prec emax (Zdigits2 mr + e1) - e1).
    destruct (Z_lt_le_dec n2 1) as [Hn2|Hn2].
    - rewrite shr_keeps by lia. exists mr, e1. cbn [shr_m]. auto.
    - destruct (shr_truncates mr e1 n2 Hmr Hn2) as [Hm He].
      destruct (shr _ e1 n2) as [mrs e'']. cbn [fst snd] in Hm, He. subst e''.
      rewrite Hm. exists (mr / 2 ^ n2), (e1 + n2).
      assert (H2 : 0 < 2 ^ n2) by (apply Z.pow_pos_nonneg; lia).
      assert (HE : 0 < 2 ^ (e1 - E)) by (apply Z.pow_pos_nonneg; lia).
      assert (Hq : 0 <= mr / 2 ^ n2) by (apply Z.div_pos; lia).
      assert (Hle : mr / 2 ^ n2 * 2 ^ n2 <= mr)
        by (rewrite Z.mul_comm; apply Z.mul_div_le; lia).
      repeat split; try lia.
      replace (e1 + n2 - E) with (n2 + (e1 - E)) by lia.
      rewrite Z.pow_add_r by lia. nia. }
  destruct (Z_lt_le_dec n 1) as [Hn|Hn].
  - rewrite shr_keeps by lia.
    cbn [shr_m loc_of_shr_record round_nearest_even].
    apply Hsecond; [lia|lia|].
    rewrite Z.sub_diag, Z.pow_0_r.
    assert (0 < 2 ^ Z.max 0 n) by (apply Z.pow_pos_nonneg; lia). lia.
  - destruct (round_shift_bound (Zpos P) E n ltac:(lia) Hn) as (He & Hmr & Hb & _).
    destruct (shr _ E n) as [mrs e']. cbn [fst snd] in He, Hmr, Hb. subst e'.
    apply Hsecond; [exact Hmr|lia|].
    replace (E + n - E) with n by lia.
    replace (Z.max 0 n) with n by lia. exact Hb.
Qed.

(** ** Integers as text *)


Lemma small_integer_int (k : Z) :
  1 <= k < 2 ^ 53 ->
  small_integer (Zpos (Z.to_pos (k * 2 ^ (53 - int_digits k))))
    (int_digits k - 53) = Some k.
Proof.
  intros Hk. assert (Hd := int_digits_range k Hk).
  assert (Hp : 0 < 2 ^ (53 - int_digits k)) by (apply Z.pow_pos_nonneg; lia).
  unfold small_integer. rewrite Z2Pos.id by nia.
  destruct (Z.leb_spec 0 (int_digits k - 53)) as [He|He].
  - replace (int_digits k - 53) with 0 by lia.
    replace (53 - int_digits k) with 0 by lia.
    rewrite Z.pow_0_r, !Z.mul_1_r.
    destruct (Z.leb_spec k (2 ^ 53)); [reflexivity|lia].
  - replace (- (int_digits k - 53)) with (53 - int_digits k) by lia.
    rewrite Z.mod_mul, Z.div_mul by lia. cbn [Z.eqb andb].
    destruct (Z.leb_spec k (2 ^ 53)); [reflexivity|lia].
Qed.

(** An integer from 1 to 2^53 is written with its decimal digits. *)
Lemma toString_int_or_two_pow_53 (k : Z) :
  1 <= k <= 2 ^ 53 -> toString (int_or_two_pow_53 k) = digits_of k.
Proof.
  intros Hk. unfold int_or_two_pow_53.
  destruct (Z.ltb_spec k (2 ^ 53)) as [Hlt|Hge].
  - unfold int_float, toString. rewrite small_integer_int by lia. reflexivity.
  - replace k with (2 ^ 53) by lia. vm_compute. reflexivity.
Qed.

Lemma of_Z_int_or_two_pow_53 (k : Z) :
  1 <= k <= 2 ^ 53 -> of_Z k = int_or_two_pow_53 k.
Proof.
  intros Hk. unfold int_or_two_pow_53.
  destruct (Z.ltb_spec k (2 ^ 53)) as [Hlt|Hge].
  - rewrite of_Z_signed by lia.
    destruct (Z.ltb_spec k 0); [lia|].
    rewrite Z.abs_eq by lia. reflexivity.
  - replace k with (2 ^ 53) by lia. reflexivity.
Qed.

(** The shortest digits on integers that have few, on fractions, and at
    the ends of the range. *)
Example toString_examples :
  map toString
    [of_Z 120; of_Z (-64); of_Z (2 ^ 53 + 2); of_Z (10 ^ 21);
     S754_finite false 7205759403792794 (-56);
     S754_finite false 7881299347898368 (-51);
     S754_finite true 5404319552844595 (-54);
     S754_finite false 1 (-1074);
     S754_finite false 9007199254740991 971;
     S754_finite false 7555786372591432 (-76)]
  = ["120"; "-64"; "9007199254740994"; "1e+21"; "0.1"; "3.5"; "-0.3";
     "5e-324"; "1.7976931348623157e+308"; "1e-7"].
Proof. vm_compute. reflexivity. Qed.

(** On integers up to 2^53 the shortest digits are all the digits. *)
Example shortest_text_integers :
  forallb (fun z => match of_Z z with
                    | S754_finite _ m e =>
                        String.eqb (shortest_text m e) (digits_of z)
                    | _ => false
                    end)
    [1; 7; 10; 99; 100; 120; 5040; 12345; 1000000; 2432902008176640000;
     2 ^ 53 - 1; 2 ^ 53]
  = true.
Proof. vm_compute. reflexivity. Qed.

(** ** demonstrateScope *)

Lemma counter_step (k : Z) :
  0 <= k <= 2 ^ 53 -> add (of_Z k) one = of_Z (Z.min (k + 1) (2 ^ 53)).
Proof.
  intros Hk. destruct (Z.eq_dec k 0) as [->|Hnz]; [reflexivity|].
  rewrite !of_Z_int_or_two_pow_53 by lia.
  apply add_one_int_or_two_pow_53. lia.
Qed.

Lemma demonstrateScope_from (k : Z) (html : string) :
  0 <= k <= 2 ^ 53 ->
  demonstrateScope {| globalCounter := of_Z k; scopeOutput := html |}
  = {| globalCounter := of_Z (Z.min (k + 1) (2 ^ 53));
       scopeOutput := scope_markup (Z.min (k + 1) (2 ^ 53)) |}.
Proof.
  intros Hk. unfold demonstrateScope. cbn [globalCounter].
  rewrite counter_step by exact Hk.
  set (g := Z.min (k + 1) (2 ^ 53)).
  rewrite (of_Z_int_or_two_pow_53 g) by (unfold g; lia).
  rewrite toString_int_or_two_pow_53 by (unfold g; lia).
  change (add zero one) with one.
  change (toString one) with "1".
  change (innerFunction one) with "Inner function result: 11".
  reflexivity.
Qed.

(** X20. The global counter counts the calls of [demonstrateScope]: after
    [n] calls on the page as loaded it is [n], as long as [n] is at most
    2^53, where it stays for good; and from the first call on the output
    shows this count, a local counter of 1 and an inner result of 11,
    whatever it showed before. *)
Theorem demonstrateScope_counts_calls (html : string) (n : nat) :
  let st := Nat.iter n demonstrateScope
              {| globalCounter := zero; scopeOutput := html |} in
  let count := Z.min (Z.of_nat n) (2 ^ 53) in
  globalCounter st = of_Z count
  /\ scopeOutput st = match n with
                      | O => html
                      | S _ => scope_markup count
                      end.
Proof.
  cbv zeta. induction n as [|n [IHg IHo]]; [split; reflexivity|].
  change (Nat.iter (S n) demonstrateScope ?s)
    with (demonstrateScope (Nat.iter n demonstrateScope s)).
  destruct (Nat.iter n demonstrateScope _) as [g o]. cbn [globalCounter] in IHg.
  subst g. rewrite demonstrateScope_from by lia.
  cbn [globalCounter scopeOutput].
  replace (Z.min (Z.min (Z.of_nat n) (2 ^ 53) + 1) (2 ^ 53))
    with (Z.min (Z.of_nat (S n)) (2 ^ 53)) by lia.
  split; reflexivity.
Qed.

(** ** The listener of the calculate button *)








Lemma calculate_click_more_fuel (fuel extra : nat) (text markup : string) :
  calculate_click fuel text = Return markup ->
  calculate_click (fuel + extra) text = Return markup.
Proof.
  unfold calculate_click. destruct (isNaN (parseInt text)) eqn:Hnan; [trivial|].
  destruct (performCalculations fuel _) as [r|m|] eqn:Hr; try discriminate.
  - rewrite (performCalculations_more_fuel _ extra _ _ Hr). trivial.
  - exfalso.
    apply (guard_passes fuel (VNumber (parseInt text)) m); [exact Hnan|exact Hr].
Qed.



(** X22. An integer from -20 to 20 typed in decimal: the listener shows
    the integer, its square, its cube, its parity and, when it is not
    negative, its square root to the nearest hundredth and its factorial;
    for a negative integer the square root is shown as [NaN] and the
    factorial as [undefined]. *)
Theorem calculate_click_small_integers (z : Z) (fuel : nat) :
  -20 <= z <= 20 -> (21 <= fuel)%nat ->
  calculate_click fuel (Z_text z) = Return (integer_markup z).
Proof.
  intros Hz Hfuel.
  replace fuel with (21 + (fuel - 21))%nat by lia.
  apply calculate_click_more_fuel.
  replace z with (Z.of_nat (Z.to_nat (z + 20)) - 20) by lia.
  assert (Hn : (Z.to_nat (z + 20) <= 40)%nat) by lia.
  revert Hn. generalize (Z.to_nat (z + 20)). intros n Hn.
  do 41 (destruct n as [|n]; [vm_compute; reflexivity|]). lia.
Qed.

Lemma calculate_click_small_integers_witness :
  calculate_click 25 "-3" = Return (integer_markup (-3)).
Proof.
  apply (calculate_click_small_integers (-3) 25); [lia|lia].
Defined.

(** ** The style of the format button *)

(** [Math.floor(Math.random() * 3)] is 0, 1 or 2: the product is rounded,
    but never up to 3. *)
Lemma random_index_three (r : number) :
  unit_interval r ->
  exists i : nat,
    to_index (floor (mul r (of_Z 3))) = Some i /\ (i < 3)%nat.
Proof.
  intros (Hd & Hge & Hlt).
  destruct r as [s|s| |s m e];
    [ | destruct s; discriminate Hlt || discriminate Hge
      | discriminate Hlt | ].
  - exists 0%nat. split; [destruct s; reflexivity | lia].
  - destruct s; [discriminate Hge|].
    destruct (below_one_shape m e Hd Hlt) as [He Hdm].
    assert (Hm : Zpos m < 2 ^ 53).
    { apply Z.log2_lt_pow2; [lia|]. rewrite digits2_log2 in Hdm. lia. }
    assert (Hme : Zpos m + 1 <= 2 ^ (- e)).
    { assert (2 ^ 53 <= 2 ^ (- e)) by (apply Z.pow_le_mono_r; lia). lia. }
    unfold mul, SFmul.
    change (of_Z 3) with (S754_finite false 6755399441055744 (-51)).
    cbn [xorb].
    set (P := (m * 6755399441055744)%positive).
    set (E := e + -51).
    assert (HP : Zpos P = Zpos m * 3 * 2 ^ 51) by (unfold P; lia).
    destruct (binary_round_aux_bound false P E) as (m2 & e2 & He2 & Hm2 & Hb & ->).
    set (n1 := Z.max 0 (fexp prec emax (Zpos (digits2_pos P) + E) - E)) in Hb.
    assert (Hn1 : 0 <= n1 <= 53).
    { assert (Hlog : Z.log2 (Zpos P) < 106).
      { apply Z.log2_lt_pow2; [lia|]. rewrite HP.
        change (2 ^ 106) with (2 ^ 53 * 4 * 2 ^ 51). lia. }
      unfold n1. rewrite digits2_log2.
      unfold fexp, emin, prec, emax, E. lia. }
    assert (Hpow : 2 ^ n1 <= 2 ^ 53) by (apply Z.pow_le_mono_r; lia).
    assert (HE : 2 ^ (- E) = 2 ^ 51 * 2 ^ (- e)).
    { rewrite <- Z.pow_add_r by lia. f_equal. unfold E. lia. }
    assert (Hval : m2 * 2 ^ (e2 - E) < 3 * 2 ^ (- E)).
    { rewrite HE. change (2 ^ 53) with (4 * 2 ^ 51) in Hpow.
      assert (0 < 2 ^ 51) by lia. nia. }
    assert (H2E : 0 < 2 ^ (e2 - E)) by (apply Z.pow_pos_nonneg; lia).
    destruct m2 as [|m'|m']; [| |lia].
    + exists 0%nat. split; [reflexivity | lia].
    + assert (He2' : e2 <= 1).
      { destruct (Z_lt_le_dec e2 2) as [|Hbig]; [lia|]. exfalso.
        replace (e2 - E) with ((e2 - 2) + 2 + (- E)) in Hval, H2E by lia.
        rewrite !Z.pow_add_r in Hval by lia.
        assert (0 < 2 ^ (e2 - 2)) by (apply Z.pow_pos_nonneg; lia).
        assert (0 < 2 ^ (- E)) by (apply Z.pow_pos_nonneg; unfold E; lia).
        change (2 ^ 2) with 4 in Hval.
        assert (1 <= Zpos m' * 2 ^ (e2 - 2)) by nia.
        assert (2 ^ (- E) <= Zpos m' * 2 ^ (e2 - 2) * 2 ^ (- E)) by nia.
        lia. }
      destruct (Z.leb_spec e2 (emax - prec)) as [_|Hbad];
        [|unfold emax, prec in Hbad; lia].
      unfold floor, to_index.
      destruct (Z.leb_spec 0 e2) as [Hpos|Hneg].
      * assert (Hint : Zpos m' * 2 ^ e2 < 3).
        { replace (e2 - E) with (e2 + (- E)) in Hval by lia.
          rewrite Z.pow_add_r in Hval by (unfold E; lia).
          assert (0 < 2 ^ (- E)) by (apply Z.pow_pos_nonneg; unfold E; lia).
          nia. }
        destruct (Z.leb_spec 0 e2); [|lia].
        eexists. split; [reflexivity|].
        assert (0 < 2 ^ e2) by (apply Z.pow_pos_nonneg; lia). lia.
      * cbn [cond_Zopp].
        assert (H2 : 0 < 2 ^ (- e2)) by (apply Z.pow_pos_nonneg; lia).
        assert (Hq : 0 <= Zpos m' / 2 ^ (- e2) <= 2).
        { split; [apply Z.div_pos; lia|].
          assert (Zpos m' / 2 ^ (- e2) < 3); [|lia].
          apply Z.div_lt_upper_bound; [lia|].
          replace (- E) with ((- e2) + (e2 - E)) in Hval by lia.
          rewrite Z.pow_add_r in Hval by lia. nia. }
        change (binary_normalize prec emax (Zpos m' / 2 ^ (- e2)) 0 false)
          with (of_Z (Zpos m' / 2 ^ (- e2))).
        exists (Z.to_nat (Zpos m' / 2 ^ (- e2))). split; [|lia].
        apply to_index_small. lia.
Qed.

(** ** The listener of the format button *)

Lemma styles_cases (s : string) :
  s ∈ styles -> s = "upper" \/ s = "lower" \/ s = "capitalize".
Proof. unfold styles. set_solver. Qed.

Lemma random_style_picks (r : number) :
  unit_interval r -> exists s, random_style r = Some s /\ s ∈ styles.
Proof.
  intros Hr. destruct (random_index_three r Hr) as (i & Hi & Hlt).
  unfold random_style. change (of_Z (Z.of_nat (length styles))) with (of_Z 3).
  rewrite Hi. unfold styles.
  do 3 (destruct i as [|i]; [eexists; split; [reflexivity|set_solver]|]).
  lia.
Qed.

(** X23. With [Math.random()] in [0, 1) the style that a click on the
    format button picks is one of ['upper'], ['lower'] and
    ['capitalize'], never [undefined]: the product by 3 is rounded, but
    never up to 3.  Each of the three styles is picked for some value. *)
Theorem random_style_is_a_style (r : number) :
  unit_interval r ->
  (exists s, random_style r = Some s /\ s ∈ styles)
  /\ (forall s, s ∈ styles ->
        exists r', unit_interval r' /\ random_style r' = Some s).
Proof.
  intros Hr. split; [exact (random_style_picks r Hr)|].
  intros s Hs. destruct (styles_cases s Hs) as [->|[->| ->]].
  - exists zero. repeat split; reflexivity.
  - exists (S754_finite false 4503599627370496 (-53)).
    repeat split; reflexivity.
  - exists (S754_finite false 6755399441055744 (-53)).
    repeat split; reflexivity.
Qed.

Lemma random_style_is_a_style_witness :
  exists s, random_style (S754_finite false 4503599627370496 (-53)) = Some s
            /\ s ∈ styles.
Proof.
  apply (random_style_is_a_style (S754_finite false 4503599627370496 (-53))).
  repeat split; reflexivity.
Defined.

Lemma plain_char_upper (c : ascii) :
  negb (Ascii.eqb (char_toUpperCase c) "000")
  && negb (Ascii.eqb (char_toUpperCase c) "013")
  = negb (Ascii.eqb c "000") && negb (Ascii.eqb c "013").
Proof. destruct c as [[] [] [] [] [] [] [] []]; reflexivity. Qed.

Lemma plain_char_lower (c : ascii) :
  negb (Ascii.eqb (char_toLowerCase c) "000")
  && negb (Ascii.eqb (char_toLowerCase c) "013")
  = negb (Ascii.eqb c "000") && negb (Ascii.eqb c "013").
Proof. destruct c as [[] [] [] [] [] [] [] []]; reflexivity. Qed.

Lemma ascii_char_upper (c : ascii) :
  (nat_of_ascii (char_toUpperCase c) <? 128)%nat = (nat_of_ascii c <? 128)%nat.
Proof. destruct c as [[] [] [] [] [] [] [] []]; reflexivity. Qed.

Lemma ascii_char_lower (c : ascii) :
  (nat_of_ascii (char_toLowerCase c) <? 128)%nat = (nat_of_ascii c <? 128)%nat.
Proof. destruct c as [[] [] [] [] [] [] [] []]; reflexivity. Qed.

(** Every style gives an ASCII text on an ASCII text. *)
Lemma ascii_text_formatText (text : string) (style : value) :
  ascii_text (formatText text style) = ascii_text text.
Proof.
  destruct (formatText_shape text style) as [H|[H|[H|H]]]; rewrite H; clear H.
  - induction text as [|c s IH]; [reflexivity|].
    change (toUpperCase (String c s))
      with (String (char_toUpperCase c) (toUpperCase s)).
    cbn [ascii_text]. rewrite IH, ascii_char_upper. reflexivity.
  - induction text as [|c s IH]; [reflexivity|].
    change (toLowerCase (String c s))
      with (String (char_toLowerCase c) (toLowerCase s)).
    cbn [ascii_text]. rewrite IH, ascii_char_lower. reflexivity.
  - generalize false. induction text as [|c s IH]; intros prev; [reflexivity|].
    cbn [replace_word_starts ascii_text]. rewrite IH.
    destruct (is_word_char c && negb prev); [|reflexivity].
    rewrite ascii_char_upper. reflexivity.
  - reflexivity.
Qed.

Lemma ascii_text_append (a b : string) :
  ascii_text (a +:+ b) = ascii_text a && ascii_text b.
Proof.
  induction a as [|c a IH]; [reflexivity|].
  change (String c a +:+ b) with (String c (a +:+ b)).
  cbn [ascii_text]. rewrite IH, !andb_assoc. reflexivity.
Qed.

Lemma plain_text_formatText (text : string) (style : value) :
  plain_text (formatText text style) = plain_text text.
Proof.
  destruct (formatText_shape text style) as [H|[H|[H|H]]]; rewrite H; clear H;
    [| | |reflexivity].
  - induction text as [|c s IH]; [reflexivity|].
    change (toUpperCase (String c s))
      with (String (char_toUpperCase c) (toUpperCase s)).
    cbn [plain_text]. rewrite IH, plain_char_upper. reflexivity.
  - induction text as [|c s IH]; [reflexivity|].
    change (toLowerCase (String c s))
      with (String (char_toLowerCase c) (toLowerCase s)).
    cbn [plain_text]. rewrite IH, plain_char_lower. reflexivity.
  - generalize false. induction text as [|c s IH]; intros prev; [reflexivity|].
    cbn [replace_word_starts plain_text]. rewrite IH.
    destruct (is_word_char c && negb prev); [|reflexivity].
    rewrite plain_char_upper. reflexivity.
Qed.

Lemma parsed_text_plain (s : string) : plain_text s = true -> parsed_text s = s.
Proof.
  induction s as [|c s IH]; [reflexivity|]. cbn [plain_text parsed_text].
  destruct (Ascii.eqb c "000"); [discriminate|].
  destruct (Ascii.eqb c "013"); [discriminate|].
  cbn [negb andb]. intros H. rewrite IH by exact H. reflexivity.
Qed.

Lemma plain_text_append (a b : string) :
  plain_text (a +:+ b) = plain_text a && plain_text b.
Proof.
  induction a as [|c a IH]; [reflexivity|].
  change (String c a +:+ b) with (String c (a +:+ b)).
  cbn [plain_text]. rewrite IH, !andb_assoc. reflexivity.
Qed.

Lemma length_append (a b : string) :
  String.length (a +:+ b) = (String.length a + String.length b)%nat.
Proof.
  induction a as [|c a IH]; [reflexivity|].
  change (String c a +:+ b) with (String c (a +:+ b)).
  cbn [String.length]. rewrite IH. reflexivity.
Qed.

(** On an ASCII text no style changes the length. *)
Lemma formatText_length (text : string) (style : value) :
  ascii_text text = true ->
  String.length (formatText text style) = String.length text.
Proof.
  intros _.
  destruct (formatText_shape text style) as [H|[H|[H|H]]]; rewrite H.
  - apply string_map_length.
  - apply string_map_length.
  - apply replace_word_starts_length.
  - reflexivity.
Qed.

(** One click on a text that markup keeps as it is. *)
Lemma formatText_click_text (r : number) (output : element) :
  unit_interval r -> plain_text (textContent output) = true ->
  exists s, s ∈ styles
    /\ random_style r = Some s
    /\ textContent (formatText_click r output)
       = formatText (textContent output) (VString s)
         +:+ "Applied style: " +:+ s
    /\ classList (formatText_click r output) = classList output
    /\ style (formatText_click r output) = style output.
Proof.
  intros Hr Hplain.
  destruct (random_style_picks r Hr) as (s & Hs & Hin).
  exists s. split; [exact Hin|]. split; [exact Hs|].
  unfold formatText_click. rewrite Hs.
  destruct output as [cl st tx]. cbn [textContent] in Hplain.
  unfold set_textContent.
  cbn [textContent classList style default element_value].
  rewrite parsed_text_plain by (rewrite plain_text_formatText; exact Hplain).
  auto.
Qed.

Lemma style_text (s : string) :
  s ∈ styles -> (5 <= String.length s <= 10)%nat /\ plain_text s = true.
Proof.
  intros Hs. destruct (styles_cases s Hs) as [->|[->| ->]];
    split; cbn; (lia || reflexivity).
Qed.

Lemma style_ascii (s : string) : s ∈ styles -> ascii_text s = true.
Proof.
  intros Hs. destruct (styles_cases s Hs) as [->|[->| ->]]; reflexivity.
Qed.

Lemma format_clicks_keep (output : element) (rs : list number) :
  ascii_text (textContent output) = true ->
  plain_text (textContent output) = true ->
  Forall unit_interval rs ->
  let after := format_clicks output rs in
  (String.length (textContent output) + 20 * length rs
   <= String.length (textContent after)
   <= String.length (textContent output) + 25 * length rs)%nat
  /\ ascii_text (textContent after) = true
  /\ plain_text (textContent after) = true
  /\ classList after = classList output
  /\ style after = style output.
Proof.
  cbv zeta. unfold format_clicks.
  induction rs as [|r rs IH] using rev_ind; intros Hascii Hplain Hrs.
  - cbn [foldl length]. repeat split; try lia; assumption.
  - apply Forall_app in Hrs as [Hrs Hr]. apply Forall_inv in Hr.
    rewrite foldl_app, length_app. cbn [foldl length].
    destruct (IH Hascii Hplain Hrs) as (Hlen & Has & Hpl & Hcl & Hst).
    set (el := foldl (fun el r => formatText_click r el) output rs) in *.
    destruct (formatText_click_text r el Hr Hpl)
      as (s & Hs & _ & Htx & Hcl' & Hst').
    rewrite Htx, Hcl', Hst'.
    destruct (style_text s Hs) as [Hls Hps].
    rewrite !length_append, formatText_length by exact Has.
    change (String.length "Applied style: ") with 15%nat.
    repeat split; try lia; try assumption.
    + rewrite !ascii_text_append, ascii_text_formatText, Has,
        (style_ascii s Hs). reflexivity.
    + rewrite !plain_text_append, plain_text_formatText, Hpl, Hps.
      reflexivity.
Qed.

Lemma format_clicks_snoc (output : element) (rs : list number) (r : number) :
  format_clicks output (rs ++ [r]) = formatText_click r (format_clicks output rs).
Proof. unfold format_clicks. rewrite foldl_app. reflexivity. Qed.

(** X24. The output of the format button never stops growing.  On an
    ASCII text without the characters 0 and 13, with [Math.random()] in
    [0, 1): after [n] clicks the text is 20 to 25 characters longer for
    each click, and classes and style of the element are as they were.
    One more click
    leaves this text formatted with the style the click picks and followed
    by the label of the click, [Applied style: ] and the style: the labels
    of the earlier clicks are formatted with the rest. *)
Theorem format_clicks_grow
    (output : element) (rs : list number) (r : number) :
  ascii_text (textContent output) = true ->
  plain_text (textContent output) = true ->
  Forall unit_interval rs -> unit_interval r ->
  let before := format_clicks output rs in
  let after := format_clicks output (rs ++ [r]) in
  (String.length (textContent output) + 20 * length rs
   <= String.length (textContent before)
   <= String.length (textContent output) + 25 * length rs)%nat
  /\ classList before = classList output
  /\ style before = style output
  /\ exists s,
       s ∈ styles /\ random_style r = Some s
       /\ textContent after
          = formatText (textContent before) (VString s)
            +:+ "Applied style: " +:+ s.
Proof.
  intros Hascii Hplain Hrs Hr. cbv zeta.
  destruct (format_clicks_keep output rs Hascii Hplain Hrs)
    as (Hlen & _ & Hpl & Hcl & Hst).
  split; [exact Hlen|]. split; [exact Hcl|]. split; [exact Hst|].
  rewrite format_clicks_snoc.
  destruct (formatText_click_text r (format_clicks output rs) Hr Hpl)
    as (s & Hs & Hrs' & Htx & _).
  exists s. auto.
Qed.

Lemma format_clicks_grow_witness :
  let output :=
    {| classList := ∅; style := ∅; textContent := "hello world" |} in
  let after :=
    format_clicks output [zero; S754_finite false 6755399441055744 (-53)] in
  exists s,
    s ∈ styles
    /\ textContent after
       = formatText "HELLO WORLDApplied style: upper" (VString s)
         +:+ "Applied style: " +:+ s.
Proof.
  cbv zeta.
  destruct (format_clicks_grow
              {| classList := ∅; style := ∅; textContent := "hello world" |}
              [zero] (S754_finite false 6755399441055744 (-53)))
    as (_ & _ & _ & s & Hs & _ & Htx).
  - reflexivity.
  - reflexivity.
  - repeat constructor.
  - repeat split; reflexivity.
  - exists s. split; [exact Hs | exact Htx].
Defined.

(** ** The shape of a rounded number *)

Lemma digits2_upper (P : positive) : Zpos P < 2 ^ Zpos (digits2_pos P).
Proof.
  rewrite digits2_log2. apply Z.log2_spec. lia.
Qed.

Lemma fexp_lower (x : Z) : x - 53 <= fexp prec emax x /\ -1074 <= fexp prec emax x.
Proof. unfold fexp, emin, prec, emax. lia. Qed.

Lemma fexp_cases (x : Z) :
  fexp prec emax x = x - 53 \/ fexp prec emax x = -1074.
Proof. unfold fexp, emin, prec, emax. lia. Qed.

(** Rounding a positive mantissa [P] at exponent [E] gives a mantissa
    below 2^53 at the exponent [e1] of its format, or 2^52 at the next
    exponent, and at most half a unit of [e1] above [P]. *)
Lemma binary_round_aux_shape (sg : bool) (P : positive) (E : Z) :
  let e1 := Z.max E (fexp prec emax (Zpos (digits2_pos P) + E)) in
  exists m2 e2 : Z,
    e1 <= e2 <= e1 + 1 /\ 0 <= m2 < 2 ^ 53
    /\ (e2 = e1 + 1 -> m2 = 2 ^ 52)
    /\ 2 * (m2 * 2 ^ (e2 - E)) <= 2 * Zpos P + 2 ^ (e1 - E)
    /\ Zpos P / 2 ^ (e2 - E) <= m2
    /\ binary_round_aux prec emax sg (Zpos P) E loc_Exact
       = match m2 with
         | Z0 => S754_zero sg
         | Zpos m => if e2 <=? emax - prec then S754_finite sg m e2
                     else S754_infinity sg
         | Zneg _ => S754_nan
         end.
Proof.
  cbv zeta. unfold binary_round_aux, shr_fexp.
  cbn [shr_record_of_loc Zdigits2].
  destruct (fexp_lower (Zpos (digits2_pos P) + E)) as [Hlo Hmin].
  assert (HP := digits2_upper P).
  set (fx := fexp prec emax (Zpos (digits2_pos P) + E)) in *.
  set (e1 := Z.max E fx).
  assert (He1 : -1074 <= e1 /\ E <= e1) by (unfold e1; lia).
  (* the first shift and the rounding *)
  assert (Hfirst : exists mr : Z,
    0 <= mr <= 2 ^ 53
    /\ 2 * (mr * 2 ^ (e1 - E)) <= 2 * Zpos P + 2 ^ (e1 - E)
    /\ Zpos P / 2 ^ (e1 - E) <= mr
    /\ (let '(mrs', e') := shr (Build_shr_record (Zpos P) false false) E (fx - E) in
        (round_nearest_even (shr_m mrs') (loc_of_shr_record mrs'), e'))
       = (mr, e1)).
  { destruct (Z_lt_le_dec (fx - E) 1) as [Hn|Hn].
    - rewrite shr_keeps by lia.
      cbn [shr_m loc_of_shr_record round_nearest_even].
      exists (Zpos P). replace e1 with E by (unfold e1; lia).
      rewrite Z.sub_diag, Z.pow_0_r, Z.div_1_r.
      assert (2 ^ Zpos (digits2_pos P) <= 2 ^ 53)
        by (apply Z.pow_le_mono_r; lia).
      repeat split; try lia.
    - destruct (round_shift_bound (Zpos P) E (fx - E) ltac:(lia) Hn)
        as (He & Hmr & Hb & Hfl).
      destruct (shr _ E (fx - E)) as [mrs e'].
      cbn [fst snd] in He, Hmr, Hb, Hfl.
      subst e'. replace (E + (fx - E)) with e1 by (unfold e1; lia).
      replace (e1 - E) with (fx - E) by (unfold e1; lia).
      eexists. split; [|split; [exact Hb|split; [exact Hfl|reflexivity]]].
      split; [exact Hmr|].
      assert (Ha : 0 < 2 ^ (fx - E)) by (apply Z.pow_pos_nonneg; lia).
      assert (HPa : Zpos P < 2 ^ 53 * 2 ^ (fx - E)).
      { rewrite <- Z.pow_add_r by lia.
        eapply Z.lt_le_trans; [exact HP|]. apply Z.pow_le_mono_r; lia. }
      nia. }
  destruct Hfirst as (mr & Hmr & Hb & Hfl & Hshift).
  destruct (shr _ E (fx - E)) as [mrs' e'].
  injection Hshift as Hr ->. rewrite Hr. clear Hr mrs'.
  (* the second shift *)
  destruct (Z.eq_dec mr (2 ^ 53)) as [->|Hne].
  - change (Zdigits2 (2 ^ 53)) with 54.
    assert (Hn2 : fexp prec emax (54 + e1) - e1 = 1)
      by (unfold fexp, emin, prec, emax; lia).
    rewrite Hn2.
    destruct (shr_truncates (2 ^ 53) e1 1 ltac:(lia) ltac:(lia)) as [Hm He].
    destruct (shr _ e1 1) as [mrs e'']. cbn [fst snd] in Hm, He. subst e''.
    rewrite Hm. exists (2 ^ 52), (e1 + 1).
    change (2 ^ 53 / 2 ^ 1) with (2 ^ 52).
    assert (Hp1 : 2 ^ (e1 + 1 - E) = 2 ^ (e1 - E) * 2).
    { replace (e1 + 1 - E) with (e1 - E + 1) by lia.
      rewrite Z.pow_add_r by lia. reflexivity. }
    assert (Hpp : 0 < 2 ^ (e1 - E)) by (apply Z.pow_pos_nonneg; lia).
    repeat split; try lia.
    rewrite Hp1, <- Z.div_div by lia.
    change (2 ^ 52) with (2 ^ 53 / 2).
    apply Z.div_le_mono; lia.
  - assert (Hd : Zdigits2 mr <= 53).
    { destruct mr as [|p|p]; [simpl; lia| |lia].
      cbn [Zdigits2]. rewrite digits2_log2.
      assert (Z.log2 (Zpos p) < 53) by (apply Z.log2_lt_pow2; lia). lia. }
    rewrite shr_keeps by (unfold fexp, emin, prec, emax; lia).
    cbn [shr_m]. exists mr, e1. repeat split; try lia.
Qed.

Lemma binary_round_shape (sg : bool) (S : positive) (ez : Z) :
  let e1 := fexp prec emax (Zpos (digits2_pos S) + ez) in
  let E := Z.min ez e1 in
  exists m2 e2 : Z,
    e1 <= e2 <= e1 + 1 /\ 0 <= m2 < 2 ^ 53
    /\ (e2 = e1 + 1 -> m2 = 2 ^ 52)
    /\ 2 * (m2 * 2 ^ (e2 - E)) <= 2 * (Zpos S * 2 ^ (ez - E)) + 2 ^ (e1 - E)
    /\ Zpos S * 2 ^ (ez - E) / 2 ^ (e2 - E) <= m2
    /\ binary_round prec emax sg S ez
       = match m2 with
         | Z0 => S754_zero sg
         | Zpos m => if e2 <=? emax - prec then S754_finite sg m e2
                     else S754_infinity sg
         | Zneg _ => S754_nan
         end.
Proof.
  cbv zeta. unfold binary_round.
  set (e1 := fexp prec emax (Zpos (digits2_pos S) + ez)).
  destruct (Z_lt_le_dec e1 ez) as [Hlt|Hge].
  - assert (Hv := shl_align_value S ez e1 ltac:(lia)).
    assert (He := shl_align_exponent S ez e1 ltac:(lia)).
    destruct (shl_align S ez e1) as [P E]. cbn [fst snd] in Hv, He. subst E.
    assert (Hd := digits2_shift S (ez - e1) P ltac:(lia) Hv).
    destruct (binary_round_aux_shape sg P e1) as (m2 & e2 & H).
    replace (Zpos (digits2_pos P) + e1) with (Zpos (digits2_pos S) + ez) in H
      by lia.
    fold e1 in H. replace (Z.max e1 e1) with e1 in H by lia.
    replace (Z.min ez e1) with e1 by lia.
    exists m2, e2. rewrite <- Hv. exact H.
  - rewrite shl_align_keep by lia.
    destruct (binary_round_aux_shape sg S ez) as (m2 & e2 & H).
    fold e1 in H. replace (Z.max ez e1) with e1 in H by lia.
    replace (Z.min ez e1) with ez by lia.
    rewrite Z.sub_diag, Z.pow_0_r, Z.mul_1_r.
    exists m2, e2. exact H.
Qed.

(** A rounded number whose value is below an integer [N <= 128]. *)
Lemma shape_below (sg : bool) (N m2 e2 e1 E : Z) :
  0 <= N <= 128 -> -1074 <= e1 <= -46 -> E <= e1 ->
  e1 <= e2 <= e1 + 1 -> 0 <= m2 < 2 ^ 53 -> (e2 = e1 + 1 -> m2 = 2 ^ 52) ->
  m2 * 2 ^ (e2 - E) < N * 2 ^ (- E) ->
  below_integer N
    match m2 with
    | Z0 => S754_zero sg
    | Zpos m => if e2 <=? emax - prec then S754_finite false m e2
                else S754_infinity sg
    | Zneg _ => S754_nan
    end.
Proof.
  intros HN He1 HE He2 Hm2 Hcarry Hval.
  destruct m2 as [|m|m]; [left; eauto| |lia].
  assert (HpE : 0 < 2 ^ (e2 - E)) by (apply Z.pow_pos_nonneg; lia).
  assert (He2' : e2 <= -46).
  { destruct (Z_le_gt_dec e2 (-46)) as [|Hbig]; [assumption|]. exfalso.
    assert (e2 = -45) by lia. subst e2.
    rewrite (Hcarry ltac:(lia)) in Hval.
    replace (- E) with (45 + (-45 - E)) in Hval by lia.
    rewrite Z.pow_add_r in Hval by lia.
    change (2 ^ 45) with 35184372088832 in Hval.
    change (2 ^ 52) with (128 * 35184372088832) in Hval.
    nia. }
  destruct (Z.leb_spec e2 (emax - prec)) as [_|Hbad];
    [|unfold emax, prec in Hbad; lia].
  right. exists m, e2. repeat split; try lia.
  replace (- E) with (- e2 + (e2 - E)) in Hval by lia.
  rewrite Z.pow_add_r, Z.mul_assoc in Hval by lia.
  apply Z.mul_lt_mono_pos_r in Hval; [exact Hval|exact HpE].
Qed.

Lemma below_integer_more (N N' : Z) (x : number) :
  N <= N' -> below_integer N x -> below_integer N' x.
Proof.
  intros HN [Hz|(m & e & -> & He & Hm & Hv)]; [left; exact Hz|].
  right. exists m, e. repeat split; try lia.
  assert (0 < 2 ^ (- e)) by (apply Z.pow_pos_nonneg; lia). nia.
Qed.

(** The sum of two numbers below [A] and below [B] is below [A + B]:
    rounding does not reach [A + B]. *)
Lemma add_below (A B : Z) (a b : number) :
  0 <= A -> 0 <= B -> A + B <= 128 ->
  below_integer A a -> below_integer B b ->
  below_integer (A + B) (add a b).
Proof.
  intros HA HB HAB [[sa ->]|(ma & ea & -> & Hea & Hma & Hva)]
    [[sb ->]|(mb & eb & -> & Heb & Hmb & Hvb)].
  - left. destruct sa, sb; eexists; reflexivity.
  - apply (below_integer_more B); [lia|]. right. exists mb, eb. auto.
  - apply (below_integer_more A); [lia|]. right. exists ma, ea. auto.
  - unfold add, SFadd. cbn [cond_Zopp].
    set (ez := Z.min ea eb).
    assert (Hpa := shl_align_value ma ea ez ltac:(unfold ez; lia)).
    assert (Hpb := shl_align_value mb eb ez ltac:(unfold ez; lia)).
    rewrite <- Pos2Z.inj_add. cbn [binary_normalize].
    set (S := (fst (shl_align ma ea ez) + fst (shl_align mb eb ez))%positive).
    assert (HS : Zpos S = Zpos ma * 2 ^ (ea - ez) + Zpos mb * 2 ^ (eb - ez))
      by (unfold S; rewrite Pos2Z.inj_add, Hpa, Hpb; reflexivity).
    clearbody S. clear Hpa Hpb.
    assert (Hxa : 0 < 2 ^ (ea - ez)) by (apply Z.pow_pos_nonneg; unfold ez; lia).
    assert (Hxb : 0 < 2 ^ (eb - ez)) by (apply Z.pow_pos_nonneg; unfold ez; lia).
    assert (Hez : -1074 <= ez <= -46) by (unfold ez; lia).
    assert (Hpa : 2 ^ (- ez) = 2 ^ (- ea) * 2 ^ (ea - ez)).
    { rewrite <- Z.pow_add_r by (unfold ez; lia). f_equal. lia. }
    assert (Hpb : 2 ^ (- ez) = 2 ^ (- eb) * 2 ^ (eb - ez)).
    { rewrite <- Z.pow_add_r by (unfold ez; lia). f_equal. lia. }
    set (X := 2 ^ (ea - ez) + 2 ^ (eb - ez)).
    assert (Hsum : Zpos S + X <= (A + B) * 2 ^ (- ez)).
    { unfold X. rewrite HS, Z.mul_add_distr_r.
      rewrite Hpa at 1. rewrite Hpb. nia. }
    assert (Hbig : Zpos S < 2 ^ 53 * X) by (unfold X; rewrite HS; nia).
    assert (Hup := digits2_upper S). assert (Hdn := mantissa_lower S).
    set (dS := Zpos (digits2_pos S)) in *.
    assert (HdS : 1 <= dS) by (unfold dS; lia).
    assert (Hd7 : dS + ez <= 7).
    { assert (Hlt : 2 ^ (dS - 1) < 2 ^ (7 - ez)).
      { eapply Z.le_lt_trans; [exact Hdn|].
        replace (7 - ez) with (7 + - ez) by lia.
        rewrite Z.pow_add_r by lia. change (2 ^ 7) with 128.
        assert (0 < 2 ^ (- ez)) by (apply Z.pow_pos_nonneg; lia). nia. }
      apply Z.pow_lt_mono_r_iff in Hlt; lia. }
    destruct (binary_round_shape false S ez)
      as (m2 & e2 & He2 & Hm2 & Hcarry & Hb & _ & ->).
    fold dS in He2, Hcarry, Hb.
    destruct (fexp_lower (dS + ez)) as [Hf1 Hf2].
    assert (Hfc := fexp_cases (dS + ez)).
    set (e1 := fexp prec emax (dS + ez)) in *.
    set (E := Z.min ez e1) in *.
    assert (HE : E <= e1 /\ E <= ez) by (unfold E; lia).
    assert (HpE : 2 ^ (- E) = 2 ^ (- ez) * 2 ^ (ez - E))
      by (rewrite <- Z.pow_add_r by lia; f_equal; lia).
    assert (HzE : 0 < 2 ^ (ez - E)) by (apply Z.pow_pos_nonneg; lia).
    assert (HX : 2 <= X) by (unfold X; lia).
    assert (Hhalf : 2 ^ (e1 - E) < 2 * (X * 2 ^ (ez - E))).
    { destruct (Z_le_gt_dec e1 ez) as [Hle|Hgt].
      - replace (e1 - E) with 0 by lia. rewrite Z.pow_0_r.
        assert (2 * 1 <= X * 2 ^ (ez - E))
          by (apply Z.mul_le_mono_nonneg; lia).
        lia.
      - replace (ez - E) with 0 by lia. rewrite Z.pow_0_r, Z.mul_1_r.
        replace (e1 - E) with (dS - 53) by lia.
        assert (Hs : 2 ^ (dS - 1) = 2 ^ (dS - 53) * 2 ^ 52).
        { rewrite <- Z.pow_add_r by lia. f_equal. lia. }
        apply (Z.mul_lt_mono_pos_r (2 ^ 52)); [lia|].
        rewrite <- Hs. change (2 ^ 53) with (2 * 2 ^ 52) in Hbig. lia. }
    apply (shape_below false (A + B) m2 e2 e1 E); try lia.
    rewrite HpE, Z.mul_assoc.
    assert (Hmul : (Zpos S + X) * 2 ^ (ez - E)
                   <= (A + B) * 2 ^ (- ez) * 2 ^ (ez - E))
      by (apply Z.mul_le_mono_nonneg_r; lia).
    rewrite Z.mul_add_distr_r in Hmul. lia.
Qed.

(** ** The first ticks of a loading *)

(** One step of the progress is below 10. *)
Lemma mul_below (r : number) :
  unit_interval r -> below_integer 10 (mul r (of_Z 10)).
Proof.
  intros (Hd & Hge & Hlt).
  destruct r as [s|s| |s m e];
    [ | destruct s; discriminate Hlt || discriminate Hge
      | discriminate Hlt | ].
  - left. exists s. destruct s; reflexivity.
  - destruct s; [discriminate Hge|].
    destruct (below_one_shape m e Hd Hlt) as [He Hdm].
    assert (Hm : Zpos m < 2 ^ 53).
    { apply Z.log2_lt_pow2; [lia|]. rewrite digits2_log2 in Hdm. lia. }
    assert (Hme : Zpos m + 1 <= 2 ^ (- e)).
    { assert (2 ^ 53 <= 2 ^ (- e)) by (apply Z.pow_le_mono_r; lia). lia. }
    unfold mul, SFmul.
    change (of_Z 10) with (S754_finite false 5629499534213120 (-49)).
    cbn [xorb].
    set (P := (m * 5629499534213120)%positive).
    set (E := e + -49).
    assert (HP : Zpos P = Zpos m * 10 * 2 ^ 49) by (unfold P; lia).
    assert (HE : 2 ^ (- E) = 2 ^ 49 * 2 ^ (- e)).
    { rewrite <- Z.pow_add_r by lia. f_equal. unfold E. lia. }
    assert (Hpe : 0 < 2 ^ (- e)) by (apply Z.pow_pos_nonneg; lia).
    assert (Hup := digits2_upper P). assert (Hdn := mantissa_lower P).
    set (dP := Zpos (digits2_pos P)) in *.
    assert (HdP : 1 <= dP <= 106).
    { split; [unfold dP; lia|].
      assert (Hlt' : 2 ^ (dP - 1) < 2 ^ 106).
      { eapply Z.le_lt_trans; [exact Hdn|]. rewrite HP.
        change (2 ^ 106) with (2 ^ 53 * 16 * 2 ^ 49). lia. }
      apply Z.pow_lt_mono_r_iff in Hlt'; lia. }
    assert (Hd4 : dP + E <= 4).
    { assert (Hlt' : 2 ^ (dP - 1) < 2 ^ (4 - E)).
      { eapply Z.le_lt_trans; [exact Hdn|]. rewrite HP.
        replace (4 - E) with (4 + - E) by lia.
        rewrite Z.pow_add_r, HE by (unfold E; lia).
        change (2 ^ 4) with 16.
        assert (Zpos m * 2 ^ 49 < 2 ^ (- e) * 2 ^ 49)
          by (apply Z.mul_lt_mono_pos_r; lia).
        lia. }
      apply Z.pow_lt_mono_r_iff in Hlt'; unfold E in *; lia. }
    destruct (binary_round_aux_shape false P E)
      as (m2 & e2 & He2 & Hm2 & Hcarry & Hb & _ & ->).
    fold dP in He2, Hcarry, Hb.
    destruct (fexp_lower (dP + E)) as [Hf1 Hf2].
    assert (Hfc := fexp_cases (dP + E)).
    set (e1 := Z.max E (fexp prec emax (dP + E))) in *.
    assert (Hn1 : 0 <= e1 - E <= 53) by (unfold e1, E in *; lia).
    assert (Hpow : 2 ^ (e1 - E) <= 2 ^ 53) by (apply Z.pow_le_mono_r; lia).
    assert (Hprod : (Zpos m + 1) * 2 ^ 49 <= 2 ^ (- e) * 2 ^ 49)
      by (apply Z.mul_le_mono_nonneg_r; lia).
    apply (shape_below false 10 m2 e2 e1 E); try (unfold e1, E in *; lia).
Qed.

(** A progress below 100 does not complete the loading. *)
Lemma below_not_complete (N : Z) (x : number) :
  N <= 100 -> below_integer N x -> leb (of_Z 100) x = false.
Proof.
  intros HN [[s ->]|(m & e & -> & He & Hm & Hv)].
  - destruct s; reflexivity.
  - unfold leb, SFleb.
    change (of_Z 100) with (S754_finite false 7036874417766400 (-46)).
    cbn [SFcompare].
    destruct (Z.compare_spec (-46) e) as [Heq|Hlt|Hgt]; [|lia|reflexivity].
    subst e. rewrite compare_cont_Eq_spec.
    change (2 ^ (- -46)) with 70368744177664 in Hv.
    replace (7036874417766400 ?= Zpos m) with Gt; [reflexivity|].
    symmetry. apply Z.compare_gt_iff. lia.
Qed.

(** Ten ticks or fewer from a progress of zero stay below 100. *)
Lemma stays_below_ten (randoms : list number) :
  forall (progress : number) (N : Z),
    0 <= N -> below_integer N progress ->
    Forall unit_interval randoms ->
    N + 10 * Z.of_nat (length randoms) <= 100 ->
    stays_below progress randoms = true
    /\ below_integer (N + 10 * Z.of_nat (length randoms))
         (progress_after progress randoms).
Proof.
  induction randoms as [|r rs IH]; intros progress N HN Hp Hrs Hlen.
  - split; [reflexivity|]. cbn [length progress_after].
    replace (N + 10 * Z.of_nat 0) with N by lia. exact Hp.
  - apply Forall_cons in Hrs as [Hr Hrs]. cbn [length] in Hlen.
    cbn [stays_below progress_after length].
    assert (Hnext : below_integer (N + 10) (add progress (mul r (of_Z 10))))
      by (apply add_below; [lia|lia|lia|exact Hp|apply mul_below; exact Hr]).
    destruct (IH _ (N + 10) ltac:(lia) Hnext Hrs ltac:(lia)) as [Hs Hb].
    rewrite (below_not_complete (N + 10)) by (lia || exact Hnext).
    rewrite Hs. split; [reflexivity|].
    replace (N + 10 * Z.of_nat (S (length rs)))
      with (N + 10 + 10 * Z.of_nat (length rs)) by lia.
    exact Hb.
Qed.

Section LoadingTicks.
Import LoadingManager.

(** X25. A loading never completes within its first ten ticks.  A manager
    at rest is started and its interval ticks up to ten times with
    [Math.random()] in [0, 1): it is still loading, with its interval live
    and the status text [Loading...], and after [n] ticks the progress is
    below [10 n], however the sums are rounded.  Eleven ticks can complete
    it. *)
Theorem loading_needs_eleven_ticks (p : page) (randoms : list number) :
  loading_idle p -> Forall unit_interval randoms ->
  (length randoms <= 10)%nat ->
  let h := fresh (timers p) in
  let q := run (startLoading p) (map (Tick h) randoms) in
  (phase_of q = Loading
   /\ loadingInterval (this q) = Some h
   /\ live (timers q) = {[h := progress_after zero randoms]}
   /\ textContent (statusElement (this q)) = "Loading..."
   /\ below_integer (10 * Z.of_nat (length randoms))
        (progress_after zero randoms))
  /\ exists eleven,
       length eleven = 11%nat /\ Forall unit_interval eleven
       /\ phase_of (run (startLoading p) (map (Tick h) eleven)) = Complete.
Proof.
  intros (Hflag & Hnone & Hlive) Hrs Hlen h q.
  assert (Hstart : startLoading p
    = set_loadingInterval (Some h)
        (with_timers (fun _ => (setInterval zero (timers p)).2)
           (with_statusElement (set_textContent "Loading...")
              (with_loadingBar (classList_add "loading")
                 (set_isLoading true p))))).
  { unfold startLoading. rewrite Hflag. reflexivity. }
  assert (Hlive0 : live (timers (startLoading p)) = {[h := zero]}).
  { rewrite Hstart. simpl. rewrite Hlive. apply insert_empty. }
  split.
  - destruct (stays_below_ten randoms zero 0 ltac:(lia)
                ltac:(left; exists false; reflexivity) Hrs ltac:(lia))
      as [Hbelow Hprog].
    subst q. rewrite (ticks_below h randoms _ zero Hlive0 Hbelow), Hstart.
    repeat split; try reflexivity. exact Hprog.
  - set (r := S754_finite false 9007199254740991 (-53)).
    exists (replicate 11 r).
    split; [reflexivity|]. split.
    + apply Forall_replicate. repeat split; reflexivity.
    + change (replicate 11 r) with (replicate 10 r ++ [r]).
      rewrite map_app. unfold run. rewrite foldl_app.
      fold (run (startLoading p) (map (Tick h) (replicate 10 r))).
      assert (Hbelow : stays_below zero (replicate 10 r) = true)
        by (vm_compute; reflexivity).
      assert (Hcross : leb (of_Z 100)
                (add (progress_after zero (replicate 10 r)) (mul r (of_Z 10)))
              = true) by (vm_compute; reflexivity).
      rewrite (ticks_below h (replicate 10 r) _ zero Hlive0 Hbelow), Hstart.
      set (progress := progress_after zero (replicate 10 r)) in *.
      clearbody progress. clearbody r.
      cbn [map foldl step]. unfold tick. simpl.
      rewrite lookup_singleton_eq, Hcross. reflexivity.
Qed.

End LoadingTicks.

Lemma loading_needs_eleven_ticks_witness :
  let el := {| classList := ∅; style := ∅; textContent := "" |} in
  let r := S754_finite false 9007199254740991 (-53) in
  LoadingManager.phase_of
    (LoadingManager.run
       (LoadingManager.startLoading (LoadingManager.load el el))
       (map (LoadingManager.Tick 1) (replicate 10 r)))
  = LoadingManager.Loading.
Proof.
  intros el r.
  assert (Hidle : loading_idle (LoadingManager.load el el))
    by (repeat split; reflexivity).
  assert (Hrs : Forall unit_interval (replicate 10 r))
    by (apply Forall_replicate; repeat split; reflexivity).
  destruct (loading_needs_eleven_ticks (LoadingManager.load el el)
              (replicate 10 r) Hidle Hrs ltac:(simpl; lia))
    as [(Hphase & _) _].
  exact Hphase.
Defined.

(** ** FlipCardManager, call by call *)

Section FlipCalls.
Import FlipCardManager.

Lemma step_keeps_card (m : t) (o : op) :
  (forall c, c <> "flipped" ->
     (c ∈ classList (card (step m o)) <-> c ∈ classList (card m)))
  /\ style (card (step m o)) = style (card m)
  /\ textContent (card (step m o)) = textContent (card m).
Proof.
  destruct o; unfold step, flip, reset; rewrite ?toggleClass_flipped;
    [destruct (isFlipped m)|]; simpl;
    (split; [intros c Hc; set_solver | split; reflexivity]).
Qed.

(** X26. After any calls of [flip()] and [reset()] on a card just built,
    [isFlipped] tells whether the number of flips since the last reset is
    odd.  From the first call on the flag is true exactly when the card
    carries the class [flipped], also for a card that carried the class
    when it was built: [flip] forces the class to the flag.  No other
    class, no style and not the text of the card are ever changed. *)
Theorem flip_card_counts_flips (cardElement : element) (ops : list op) :
  let m := run (constructor cardElement) ops in
  isFlipped m = Nat.odd (flips_since_reset ops)
  /\ (ops <> [] ->
      (isFlipped m = true <-> "flipped" ∈ classList (card m)))
  /\ (forall c, c <> "flipped" ->
        (c ∈ classList (card m) <-> c ∈ classList cardElement))
  /\ style (card m) = style cardElement
  /\ textContent (card m) = textContent cardElement.
Proof.
  cbv zeta. unfold run, flips_since_reset.
  induction ops as [|o ops IH] using rev_ind.
  - simpl. repeat split; try reflexivity; try tauto.
  - rewrite !foldl_app. cbn [foldl].
    destruct IH as (Hflag & _ & Hcls & Hst & Htx).
    set (m := foldl step (constructor cardElement) ops) in *.
    destruct (step_keeps_card m o) as (Hcls' & Hst' & Htx').
    split; [|split; [|split; [|split]]].
    + destruct o; cbn [step flip reset isFlipped].
      * rewrite Hflag, Nat.odd_succ, Nat.negb_odd. reflexivity.
      * reflexivity.
    + intros _. destruct o; [apply flip_matches | apply reset_matches].
    + intros c Hc. rewrite (Hcls' c Hc). apply Hcls. exact Hc.
    + rewrite Hst'. exact Hst.
    + rewrite Htx'. exact Htx.
Qed.

End FlipCalls.

Lemma flip_card_counts_flips_witness :
  let el := {| classList := {["flipped"]}; style := ∅; textContent := "" |} in
  let m := FlipCardManager.run (FlipCardManager.constructor el)
             [FlipCardManager.Flip; FlipCardManager.Flip] in
  FlipCardManager.isFlipped m = true
  <-> "flipped" ∈ classList (FlipCardManager.card m).
Proof.
  intros el.
  apply (flip_card_counts_flips el [FlipCardManager.Flip; FlipCardManager.Flip]).
  discriminate.
Defined.

(** ** Integers typed into the calculator *)








